(** * Samplers of tangent-to/mc: NUTS, fixed-length HMC and Metropolis-Hastings

    A shallow embedding of the classes [NUTS] (the No-U-Turn sampler),
    [HamiltonianMC] ([src/samplers/hmc.js]) and [MetropolisHastings], in
    exact real arithmetic.

    Conventions of the embedding.
    - A JavaScript number is a real ([R]); [Math.exp], [Math.log],
      [Math.sqrt], [Math.pow], [Math.max] and [Math.min] are [exp], [ln],
      [sqrt], [Rpower], [Rmax] and [Rmin].  Rounding, NaN and the infinities
      are outside the model.
    - A position, momentum or gradient object ([{ x: 0.3, y: -1 }]) is a
      finite map from variable names to reals.  [o[name]] is [get o name];
      reading a name that the object lacks gives [undefined] in the source
      and is only modelled for objects that carry the name.
    - [Math.random()] and [tf.randomNormal([])] read two streams of draws
      ([jstat.normal.sample] is counted with the latter); the world counts
      how many draws were taken, and how many leapfrog steps and model
      evaluations were performed.  The lines written to the console are left
      out. *)

From Stdlib Require Import Reals Lra Lia ZArith.
From stdpp Require Import gmap strings list fin_maps.

Local Open Scope R_scope.

(** * The program

    ** Numbers *)

#[global] Instance Rlt_decision (x y : R) : Decision (x < y) := Rlt_dec x y.
#[global] Instance Rle_decision (x y : R) : Decision (x <= y) := Rle_dec x y.
#[global] Instance Rgt_decision (x y : R) : Decision (x > y) := Rgt_dec x y.

(** ** Objects keyed by variable name *)

(** [o[name]], for an object that carries [name]. *)
Definition get (o : gmap string R) (name : string) : R := default 0 (o !! name).

(** [Object.keys(o)] *)
Definition keys (o : gmap string R) : list string := (map_to_list o).*1.

(** [const o = {}; for (const name of names) { o[name] = f(name); }] *)
Definition forNames (names : list string) (f : string → R) : gmap string R :=
  fold_left (λ o name, <[name := f name]> o) names ∅.

(** [let acc = 0; for (const name of names) { acc += f(name); }] *)
Definition sumNames (names : list string) (f : string → R) : R :=
  fold_left (λ acc name, acc + f name) names 0.

(** [{ ...o }] *)
Definition spread (o : gmap string R) : gmap string R := o.

(** ** The model (collaborator) *)

Record LogProbAndGradient := {
  lpg_logProb : R;
  gradients : gmap string R
}.

Record Model := {
  logProb : gmap string R → R;
  logProbAndGradient : gmap string R → LogProbAndGradient;
  getFreeVariableNames : list string
}.

(** ** Results of running code that may throw *)

Inductive JSError :=
| ConfigurationError
| OtherError.

Inductive Completion (A : Type) :=
| Normal (value : A)
| Throw (error : JSError).
Arguments Normal {A} value.
Arguments Throw {A} error.

(** ** The sampler objects and their constructors *)

Record NUTS := {
  stepSize : R;
  maxTreeDepth : Z;
  targetAcceptance : R;
  mu : R;
  gamma : R;
  t0 : R;
  kappa : R
}.

(** The body of the constructor: the fields it assigns to [this]. *)
Definition NUTS_fields (stepSize : R) (maxTreeDepth : Z) (targetAcceptance : R) : NUTS :=
  {| stepSize := stepSize;
     maxTreeDepth := maxTreeDepth;
     targetAcceptance := targetAcceptance;
     (* Dual averaging parameters for step size adaptation *)
     mu := ln (10 * stepSize);
     gamma := 0.05;
     t0 := 10;
     kappa := 0.75 |}.

(** [constructor(stepSize = 0.01, maxTreeDepth = 10, targetAcceptance = 0.8)];
    an argument left out ([undefined]) is [None]. *)
Definition NUTS_constructor (stepSize : option R) (maxTreeDepth : option Z)
    (targetAcceptance : option R) : Completion NUTS :=
  let stepSize := default 0.01 stepSize in
  let maxTreeDepth := default 10%Z maxTreeDepth in
  let targetAcceptance := default 0.8 targetAcceptance in
  Normal (NUTS_fields stepSize maxTreeDepth targetAcceptance).

Record HamiltonianMC := {
  hmc_stepSize : R;
  nSteps : Z
}.

(** [constructor(stepSize = 0.01, nSteps = 10)] *)
Definition HamiltonianMC_constructor (stepSize : option R) (nSteps : option Z)
    : Completion HamiltonianMC :=
  let stepSize := default 0.01 stepSize in
  let nSteps := default 10%Z nSteps in
  Normal {| hmc_stepSize := stepSize; nSteps := nSteps |}.

(** ** Leapfrog, Hamiltonian, U-turn *)

(** The object [{ position, momentum }] returned by [leapfrog]. *)
Module Leapfrog.
Record result := {
  position : gmap string R;
  momentum : gmap string R
}.
End Leapfrog.

(** [NUTS.leapfrog(position, momentum, stepSize, model)] *)
Definition leapfrog (position momentum : gmap string R) (stepSize : R)
    (model : Model) : Leapfrog.result :=
  let variableNames := keys position in
  let q := forNames variableNames (get position) in
  let p := forNames variableNames (get momentum) in
  (* Half step for momentum *)
  let grad1 := logProbAndGradient model q in
  let pHalf := forNames variableNames
                 (λ name, get p name + stepSize / 2 * get (gradients grad1) name) in
  (* Full step for position *)
  let qNew := forNames variableNames
                (λ name, get q name + stepSize * get pHalf name) in
  (* Half step for momentum *)
  let grad2 := logProbAndGradient model qNew in
  let pNew := forNames variableNames
                (λ name, get pHalf name + stepSize / 2 * get (gradients grad2) name) in
  let positionNew := forNames variableNames (get qNew) in
  let momentumNew := forNames variableNames (get pNew) in
  {| Leapfrog.position := positionNew; Leapfrog.momentum := momentumNew |}.

(** [NUTS.hamiltonian(position, momentum, model)] *)
Definition hamiltonian (position momentum : gmap string R) (model : Model) : R :=
  let logProb := logProb model position in
  let variableNames := keys momentum in
  let kineticEnergy :=
    sumNames variableNames (λ name, let p := get momentum name in 0.5 * p * p) in
  - logProb + kineticEnergy.

(** [NUTS.isUTurn(positionMinus, positionPlus, momentumMinus, momentumPlus)] *)
Definition isUTurn (positionMinus positionPlus momentumMinus momentumPlus : gmap string R)
    : bool :=
  let variableNames := keys positionMinus in
  let dotPlus :=
    sumNames variableNames
      (λ name, let deltaTheta := get positionPlus name - get positionMinus name in
               deltaTheta * get momentumPlus name) in
  let dotMinus :=
    sumNames variableNames
      (λ name, let deltaTheta := get positionPlus name - get positionMinus name in
               deltaTheta * get momentumMinus name) in
  bool_decide (dotPlus < 0) || bool_decide (dotMinus < 0).

(** ** Effects: random draws and evaluation counters *)

Record World := {
  randomDraws : nat;       (* calls of [Math.random()] so far *)
  normalDraws : nat;       (* calls of [tf.randomNormal([])] so far *)
  leapfrogSteps : nat;     (* calls of [leapfrog] so far *)
  modelEvaluations : nat   (* calls of [model.logProb] and [model.logProbAndGradient] so far *)
}.

Definition M (A : Type) : Type := World → A * World.

Definition ret {A} (a : A) : M A := λ w, (a, w).
Definition bind {A B} (c : M A) (k : A → M B) : M B :=
  λ w, let r := c w in k r.1 r.2.

Declare Scope js_scope.
Delimit Scope js_scope with js.
Notation "'let!' x ':=' c 'in' k" := (bind c (λ x, k))
  (at level 10, x name, c at level 200, k at level 200) : js_scope.
Local Open Scope js_scope.

(** ** The data of the tree builder and of the driver *)

(** The tree object returned by [buildTree]. *)
Record Tree := {
  positionMinus : gmap string R;
  positionPlus : gmap string R;
  momentumMinus : gmap string R;
  momentumPlus : gmap string R;
  positionPrime : gmap string R;
  nValid : Z;
  stop : bool;
  alpha : R;
  nAlpha : Z
}.

(** The local variables of the doubling loop of [sample]. *)
Module Loop.
Record vars := {
  positionMinus : gmap string R;
  positionPlus : gmap string R;
  momentumMinus : gmap string R;
  momentumPlus : gmap string R;
  proposedParams : gmap string R;
  depth : nat;
  stop : bool;
  nValid : Z;
  alpha : R;
  nAlpha : Z
}.
End Loop.

(** The variables of [sample] that live across outer iterations; [this] is
    the sampler object, whose [stepSize] the adaptation overwrites. *)
Module Chain.
Record vars := {
  this : NUTS;
  trace : gmap string (list R);
  accepted_count : nat;
  accepted_total : nat;
  currentParams : gmap string R;
  logStepSize : R;
  logStepSizeBar : R;
  hBar : R
}.
End Chain.

(** The object returned by [sample]. *)
Module Result.
Record t := {
  trace : gmap string (list R);
  acceptanceRate : R;
  nSamples : nat;
  stepSize : R
}.
End Result.

(** [this.stepSize = v] *)
Definition set_stepSize (this : NUTS) (v : R) : NUTS :=
  {| stepSize := v;
     maxTreeDepth := maxTreeDepth this;
     targetAcceptance := targetAcceptance this;
     mu := mu this;
     gamma := gamma this;
     t0 := t0 this;
     kappa := kappa this |}.

(** [for (const name of variableNames) { trace[name] = []; }] *)
Definition initTrace (variableNames : list string) : gmap string (list R) :=
  fold_left (λ trace name, <[name := []]> trace) variableNames ∅.

(** [for (const name of variableNames) { trace[name].push(currentParams[name]); }] *)
Definition pushTrace (variableNames : list string) (trace : gmap string (list R))
    (currentParams : gmap string R) : gmap string (list R) :=
  fold_left (λ trace name, <[name := (trace !!! name) ++ [get currentParams name]]> trace)
    variableNames trace.

(** The variables of the doubling loop as [sample] initialises them:
    [positionMinus = { ...currentParams }], ..., [depth = 0], [stop = false],
    [nValid = 1], [alpha = 0], [nAlpha = 0]. *)
Definition loopStart (currentParams momentum : gmap string R) : Loop.vars :=
  {| Loop.positionMinus := spread currentParams;
     Loop.positionPlus := spread currentParams;
     Loop.momentumMinus := spread momentum;
     Loop.momentumPlus := spread momentum;
     Loop.proposedParams := spread currentParams;
     Loop.depth := 0;
     Loop.stop := false;
     Loop.nValid := 1;
     Loop.alpha := 0;
     Loop.nAlpha := 0 |}.

Section Sampler.

(** The draws of [Math.random()] and of [tf.randomNormal([])], in order. *)
Variable uniformDraw : nat → R.
Variable normalDraw : nat → R.

Definition Math_random : M R :=
  λ w, (uniformDraw (randomDraws w),
        {| randomDraws := S (randomDraws w);
           normalDraws := normalDraws w;
           leapfrogSteps := leapfrogSteps w;
           modelEvaluations := modelEvaluations w |}).

Definition tf_randomNormal : M R :=
  λ w, (normalDraw (normalDraws w),
        {| randomDraws := randomDraws w;
           normalDraws := S (normalDraws w);
           leapfrogSteps := leapfrogSteps w;
           modelEvaluations := modelEvaluations w |}).

(** [this.leapfrog(...)], counted: one leapfrog step, two gradient evaluations. *)
Definition call_leapfrog (position momentum : gmap string R) (stepSize : R)
    (model : Model) : M Leapfrog.result :=
  λ w, (leapfrog position momentum stepSize model,
        {| randomDraws := randomDraws w;
           normalDraws := normalDraws w;
           leapfrogSteps := S (leapfrogSteps w);
           modelEvaluations := S (S (modelEvaluations w)) |}).

(** [this.hamiltonian(...)], counted: one log-density evaluation. *)
Definition call_hamiltonian (position momentum : gmap string R) (model : Model) : M R :=
  λ w, (hamiltonian position momentum model,
        {| randomDraws := randomDraws w;
           normalDraws := normalDraws w;
           leapfrogSteps := leapfrogSteps w;
           modelEvaluations := S (modelEvaluations w) |}).

(** ** The tree builder *)

(** [NUTS.buildTree(position, momentum, slice, direction, depth, stepSize, model, H0)];
    [depth] is a natural number, as it is at every call made by [sample]; the
    local [accept] of the base case, which the source never reads, is left
    out. *)
Fixpoint buildTree (position momentum : gmap string R) (slice : R) (direction : Z)
    (depth : nat) (stepSize : R) (model : Model) (H0 : R) : M Tree :=
  let deltaMax := 1000 in
  match depth with
  | O =>
    (* Base case: single leapfrog step *)
    let! new := call_leapfrog position momentum (IZR direction * stepSize) model in
    let positionNew := Leapfrog.position new in
    let momentumNew := Leapfrog.momentum new in
    let! H := call_hamiltonian positionNew momentumNew model in
    let valid := bool_decide (slice <= exp (H0 - H)) in
    ret {| positionMinus := positionNew;
           positionPlus := positionNew;
           momentumMinus := momentumNew;
           momentumPlus := momentumNew;
           positionPrime := positionNew;
           nValid := if valid then 1%Z else 0%Z;
           stop := negb valid || bool_decide (H0 - H > deltaMax);
           alpha := Rmin 1 (exp (H0 - H));
           nAlpha := 1%Z |}
  | S depth' =>
    (* Recursion: build left and right subtrees *)
    let! tree1 := buildTree position momentum slice direction depth' stepSize model H0 in
    if stop tree1 then ret tree1 else
    (* Build second half of tree *)
    let position2 := if (direction =? 1)%Z then positionPlus tree1 else positionMinus tree1 in
    let momentum2 := if (direction =? 1)%Z then momentumPlus tree1 else momentumMinus tree1 in
    let! tree2 := buildTree position2 momentum2 slice direction depth' stepSize model H0 in
    (* Combine trees *)
    let positionMinus' := if (direction =? 1)%Z then positionMinus tree1 else positionMinus tree2 in
    let positionPlus' := if (direction =? 1)%Z then positionPlus tree2 else positionPlus tree1 in
    let momentumMinus' := if (direction =? 1)%Z then momentumMinus tree1 else momentumMinus tree2 in
    let momentumPlus' := if (direction =? 1)%Z then momentumPlus tree2 else momentumPlus tree1 in
    (* Check for U-turn *)
    let uTurn := isUTurn positionMinus' positionPlus' momentumMinus' momentumPlus' in
    (* Sample from combined tree *)
    let acceptProb := IZR (nValid tree2) / Rmax (IZR (nValid tree1 + nValid tree2)) 1 in
    let! u := Math_random in
    let positionPrime' :=
      if bool_decide (u < acceptProb) then positionPrime tree2 else positionPrime tree1 in
    ret {| positionMinus := positionMinus';
           positionPlus := positionPlus';
           momentumMinus := momentumMinus';
           momentumPlus := momentumPlus';
           positionPrime := positionPrime';
           nValid := nValid tree1 + nValid tree2;
           stop := stop tree1 || stop tree2 || uTurn;
           alpha := alpha tree1 + alpha tree2;
           nAlpha := nAlpha tree1 + nAlpha tree2 |}
  end.

(** ** The sampler driver *)

(** [const momentum = {}; for (const name of variableNames)
      { momentum[name] = tf.randomNormal([]).arraySync(); }] *)
Fixpoint drawMomentum (variableNames : list string) (momentum : gmap string R)
    : M (gmap string R) :=
  match variableNames with
  | [] => ret momentum
  | name :: rest =>
    let! z := tf_randomNormal in
    drawMomentum rest (<[name := z]> momentum)
  end.

(** The body of [while (!stop && depth < this.maxTreeDepth) { ... }]. *)
Definition doublingStep (this : NUTS) (model : Model) (slice H0 : R) (l : Loop.vars)
    : M Loop.vars :=
  (* Choose direction randomly *)
  let! r := Math_random in
  let direction := if bool_decide (r < 0.5) then (-1)%Z else 1%Z in
  (* Build subtree *)
  let! tree :=
    (if (direction =? 1)%Z
     then buildTree (Loop.positionPlus l) (Loop.momentumPlus l) slice direction
            (Loop.depth l) (stepSize this) model H0
     else buildTree (Loop.positionMinus l) (Loop.momentumMinus l) slice direction
            (Loop.depth l) (stepSize this) model H0) in
  let positionPlus' := if (direction =? 1)%Z then positionPlus tree else Loop.positionPlus l in
  let momentumPlus' := if (direction =? 1)%Z then momentumPlus tree else Loop.momentumPlus l in
  let positionMinus' := if (direction =? 1)%Z then Loop.positionMinus l else positionMinus tree in
  let momentumMinus' := if (direction =? 1)%Z then Loop.momentumMinus l else momentumMinus tree in
  (* Sample from tree *)
  let! proposedParams' :=
    (if stop tree then ret (Loop.proposedParams l)
     else
       let acceptProb := IZR (nValid tree) / IZR (Loop.nValid l) in
       let! u := Math_random in
       ret (if bool_decide (u < acceptProb) then positionPrime tree
            else Loop.proposedParams l)) in
  (* Check for U-turn or divergence *)
  let stop' := stop tree || isUTurn positionMinus' positionPlus' momentumMinus' momentumPlus' in
  ret {| Loop.positionMinus := positionMinus';
         Loop.positionPlus := positionPlus';
         Loop.momentumMinus := momentumMinus';
         Loop.momentumPlus := momentumPlus';
         Loop.proposedParams := proposedParams';
         Loop.depth := S (Loop.depth l);
         Loop.stop := stop';
         Loop.nValid := Loop.nValid l + nValid tree;
         Loop.alpha := Loop.alpha l + alpha tree;
         Loop.nAlpha := Loop.nAlpha l + nAlpha tree |}.

(** The first two statements of the loop body on their own: the direction
    drawn and the subtree built in one round of doubling. *)
Definition drawDirection : M Z :=
  let! r := Math_random in
  ret (if bool_decide (r < 0.5) then (-1)%Z else 1%Z).

Definition newSubtree (this : NUTS) (model : Model) (slice H0 : R) (l : Loop.vars)
    : M (Z * Tree) :=
  let! direction := drawDirection in
  let! tree :=
    (if (direction =? 1)%Z
     then buildTree (Loop.positionPlus l) (Loop.momentumPlus l) slice direction
            (Loop.depth l) (stepSize this) model H0
     else buildTree (Loop.positionMinus l) (Loop.momentumMinus l) slice direction
            (Loop.depth l) (stepSize this) model H0) in
  ret (direction, tree).

(** [while (!stop && depth < this.maxTreeDepth) { ... }]; [fuel] bounds the
    number of rounds, and [Z.to_nat (maxTreeDepth this)] rounds always suffice
    (lemma [doublingLoop_exit]). *)
Fixpoint doublingLoop (fuel : nat) (this : NUTS) (model : Model) (slice H0 : R)
    (l : Loop.vars) : M Loop.vars :=
  if negb (Loop.stop l) && (Z.of_nat (Loop.depth l) <? maxTreeDepth this)%Z then
    match fuel with
    | O => ret l
    | S fuel' =>
      let! l' := doublingStep this model slice H0 l in
      doublingLoop fuel' this model slice H0 l'
    end
  else ret l.

(** One outer iteration of [sample], from the momentum draw to the end of the
    doubling loop. *)
Definition trajectory (this : NUTS) (model : Model) (variableNames : list string)
    (currentParams : gmap string R) : M Loop.vars :=
  (* Sample momentum *)
  let! momentum := drawMomentum variableNames ∅ in
  (* Compute current Hamiltonian *)
  let! H0 := call_hamiltonian currentParams momentum model in
  (* Sample slice variable *)
  let! r := Math_random in
  let slice := r * exp (- H0) in
  (* Initialize tree *)
  let init := loopStart currentParams momentum in
  (* Build tree by doubling *)
  doublingLoop (Z.to_nat (maxTreeDepth this)) this model slice H0 init.

(** The body of [for (let i = 0; i < totalIterations; i++) { ... }]; the
    progress lines written to the console are left out. *)
Definition iteration (model : Model) (variableNames : list string) (nWarmup thin : nat)
    (i : nat) (c : Chain.vars) : M Chain.vars :=
  let! l := trajectory (Chain.this c) model variableNames (Chain.currentParams c) in
  (* Update current state *)
  let currentParams' := Loop.proposedParams l in
  (* Compute acceptance rate for this iteration *)
  let iterAcceptRate := Loop.alpha l / Rmax (IZR (Loop.nAlpha l)) 1 in
  let total' := S (Chain.accepted_total c) in
  let count' := if bool_decide (iterAcceptRate > 0.5) then S (Chain.accepted_count c)
                else Chain.accepted_count c in
  (* Adapt step size during warmup using dual averaging *)
  let '(hBar', logStepSize', logStepSizeBar', this') :=
    if (i <? nWarmup)%nat then
      let eta := 1 / (INR (i + 1) + t0 (Chain.this c)) in
      let hBar' := (1 - eta) * Chain.hBar c
                   + eta * (targetAcceptance (Chain.this c) - iterAcceptRate) in
      let logStepSize' := mu (Chain.this c) - sqrt (INR (i + 1)) / gamma (Chain.this c) * hBar' in
      let logEta := Rpower (INR (i + 1)) (- kappa (Chain.this c)) in
      let logStepSizeBar' := logEta * logStepSize' + (1 - logEta) * Chain.logStepSizeBar c in
      (hBar', logStepSize', logStepSizeBar', set_stepSize (Chain.this c) (exp logStepSize'))
    else if (i =? nWarmup)%nat then
      (* End of warmup: set final step size *)
      (Chain.hBar c, Chain.logStepSize c, Chain.logStepSizeBar c,
       set_stepSize (Chain.this c) (exp (Chain.logStepSizeBar c)))
    else (Chain.hBar c, Chain.logStepSize c, Chain.logStepSizeBar c, Chain.this c) in
  (* Store samples after warmup and according to thinning *)
  let trace' :=
    if (nWarmup <=? i)%nat && (0 <? thin)%nat && ((i - nWarmup) mod thin =? 0)%nat
    then pushTrace variableNames (Chain.trace c) currentParams'
    else Chain.trace c in
  ret {| Chain.this := this';
         Chain.trace := trace';
         Chain.accepted_count := count';
         Chain.accepted_total := total';
         Chain.currentParams := currentParams';
         Chain.logStepSize := logStepSize';
         Chain.logStepSizeBar := logStepSizeBar';
         Chain.hBar := hBar' |}.

(** [for (let i = ...; i < ...; i++)]: [n] iterations starting at index [i]. *)
Fixpoint forLoop (n : nat) (model : Model) (variableNames : list string)
    (nWarmup thin : nat) (i : nat) (c : Chain.vars) : M Chain.vars :=
  match n with
  | O => ret c
  | S n' =>
    let! c' := iteration model variableNames nWarmup thin i c in
    forLoop n' model variableNames nWarmup thin (S i) c'
  end.

(** The variables of [sample] before the first iteration. *)
Definition initChain (this : NUTS) (variableNames : list string)
    (initialValues : gmap string R) : Chain.vars :=
  {| Chain.this := this;
     Chain.trace := initTrace variableNames;
     Chain.accepted_count := 0;
     Chain.accepted_total := 0;
     Chain.currentParams := spread initialValues;
     (* Dual averaging state *)
     Chain.logStepSize := ln (stepSize this);
     Chain.logStepSizeBar := 0;
     Chain.hBar := 0 |}.

(** [NUTS.sample(model, initialValues, nSamples = 1000, nWarmup = 500, thin = 1)];
    returns the result object and the sampler object as the call leaves it. *)
Definition sample (this : NUTS) (model : Model) (initialValues : gmap string R)
    (nSamples nWarmup thin : option nat) : M (Result.t * NUTS) :=
  let nSamples := default 1000%nat nSamples in
  let nWarmup := default 500%nat nWarmup in
  let thin := default 1%nat thin in
  let variableNames := getFreeVariableNames model in
  let totalIterations := (nWarmup + nSamples * thin)%nat in
  let! c := forLoop totalIterations model variableNames nWarmup thin 0
              (initChain this variableNames initialValues) in
  ret ({| Result.trace := Chain.trace c;
          Result.acceptanceRate := INR (Chain.accepted_count c) / INR (Chain.accepted_total c);
          Result.nSamples := nSamples;
          Result.stepSize := stepSize (Chain.this c) |},
       Chain.this c).

End Sampler.

(** * Vocabulary of the statements

    ** Two models used in examples *)

(** The standard normal potential on the variables of the position:
    [logProb = - Σ x² / 2], gradient [- x] per variable. *)
Definition standardNormal : Model :=
  {| logProb := λ q, - sumNames (keys q) (λ name, get q name * get q name / 2);
     logProbAndGradient := λ q,
       {| lpg_logProb := - sumNames (keys q) (λ name, get q name * get q name / 2);
          gradients := forNames (keys q) (λ name, - get q name) |};
     getFreeVariableNames := ["x"%string] |}.

(** A flat potential: constant log-density, zero gradient. *)
Definition flat : Model :=
  {| logProb := λ q, 0;
     logProbAndGradient := λ q,
       {| lpg_logProb := 0; gradients := forNames (keys q) (λ name, 0) |};
     getFreeVariableNames := ["x"%string] |}.

(** ** The U-turn test, following the words of the specification *)

(** [Δθ = pos⁺ − pos⁻], component by component. *)
Definition spec_deltaTheta (positionMinus positionPlus : gmap string R) : gmap string R :=
  map_zip_with (λ plus minus, plus - minus) positionPlus positionMinus.

(** The dot product of two vectors of variable components, summed over all
    components of the first. *)
Definition spec_dot (a b : gmap string R) : R :=
  foldr (λ component acc, component.2 * get b component.1 + acc) 0 (map_to_list a).

Definition spec_isUTurn (positionMinus positionPlus momentumMinus momentumPlus
    : gmap string R) : Prop :=
  spec_dot (spec_deltaTheta positionMinus positionPlus) momentumPlus < 0
  ∨ spec_dot (spec_deltaTheta positionMinus positionPlus) momentumMinus < 0.

(** ** Observations on a run *)

(** The energy [H] that the base case of [buildTree] computes for its leaf. *)
Definition leafEnergy (position momentum : gmap string R) (direction : Z) (stepSize : R)
    (model : Model) : R :=
  let new := leapfrog position momentum (IZR direction * stepSize) model in
  hamiltonian (Leapfrog.position new) (Leapfrog.momentum new) model.

(** Where the second half-subtree starts: the edge of the first half on the
    side of [direction]. *)
Definition position2 (direction : Z) (tree1 : Tree) : gmap string R :=
  if (direction =? 1)%Z then positionPlus tree1 else positionMinus tree1.
Definition momentum2 (direction : Z) (tree1 : Tree) : gmap string R :=
  if (direction =? 1)%Z then momentumPlus tree1 else momentumMinus tree1.

(** [negate(p)]: every component of the momentum with its sign changed. *)
Definition negate (p : gmap string R) : gmap string R := Ropp <$> p.

(** [alpha / Math.max(nAlpha, 1)] at the end of the doubling loop. *)
Definition iterAcceptRate (l : Loop.vars) : R :=
  Loop.alpha l / Rmax (IZR (Loop.nAlpha l)) 1.

(** The variables of [sample] after its first [k] outer iterations. *)
Definition chainAfter (uniformDraw normalDraw : nat → R) (this : NUTS) (model : Model)
    (initialValues : gmap string R) (nWarmup thin : nat) (k : nat) (w : World)
    : Chain.vars * World :=
  forLoop uniformDraw normalDraw k model (getFreeVariableNames model) nWarmup thin 0
    (initChain this (getFreeVariableNames model) initialValues) w.

(** The doubling loop run by outer iteration [k]. *)
Definition trajectoryOf (uniformDraw normalDraw : nat → R) (this : NUTS) (model : Model)
    (initialValues : gmap string R) (nWarmup thin : nat) (k : nat) (w : World)
    : Loop.vars * World :=
  let before := chainAfter uniformDraw normalDraw this model initialValues nWarmup thin k w in
  trajectory uniformDraw normalDraw (Chain.this before.1) model
    (getFreeVariableNames model) (Chain.currentParams before.1) before.2.

(** Two sampler objects that agree on every field other than [stepSize]. *)
Definition sameConstants (a b : NUTS) : Prop :=
  maxTreeDepth a = maxTreeDepth b ∧ targetAcceptance a = targetAcceptance b
  ∧ mu a = mu b ∧ gamma a = gamma b ∧ t0 a = t0 b ∧ kappa a = kappa b.

(** ** Example inputs *)

(** A stream of draws that are all equal to [u]. *)
Definition always (u : R) : nat → R := λ _, u.

(** The object [{ x: v }]. *)
Definition x_is (v : R) : gmap string R := {["x"%string := v]}.

(** The world before anything ran. *)
Definition startWorld : World :=
  {| randomDraws := 0; normalDraws := 0; leapfrogSteps := 0; modelEvaluations := 0 |}.

(** An invalid leaf without divergence: one step of size 2 on the standard
    normal from [x = 0] with momentum 1, the slice drawn with
    [Math.random() = 0.9]. *)
Definition ex_position : gmap string R := x_is 0.
Definition ex_momentum : gmap string R := x_is 1.
Definition ex_H0 : R := hamiltonian ex_position ex_momentum standardNormal.
Definition ex_slice : R := 0.9 * exp (- ex_H0).

(** A leaf that continues the trajectory: the flat potential at rest. *)
Definition ex_first (w : World) : Tree * World :=
  buildTree (always 0.5) (x_is 0) (x_is 0) 0.5 1 0 0.1 flat 0 w.

(** The variables of the doubling loop before its first round, at rest, and
    the first subtree built from them. *)
Definition ex_loop : Loop.vars :=
  {| Loop.positionMinus := x_is 0;
     Loop.positionPlus := x_is 0;
     Loop.momentumMinus := x_is 0;
     Loop.momentumPlus := x_is 0;
     Loop.proposedParams := x_is 0;
     Loop.depth := 0;
     Loop.stop := false;
     Loop.nValid := 1;
     Loop.alpha := 0;
     Loop.nAlpha := 0 |}.

Definition ex_built : Z * Tree * World :=
  newSubtree (always 0.5) (NUTS_fields 0.1 3 0.8) flat 0.5 0 ex_loop startWorld.

(** * The other samplers of the library

    ** Fixed-length Hamiltonian Monte Carlo ([HamiltonianMC]) *)

(** [for (const name of names) { o[name] = f(o, name); }], on an object that
    exists already. *)
Definition assignNames (names : list string) (f : gmap string R → string → R)
    (o : gmap string R) : gmap string R :=
  fold_left (λ o name, <[name := f o name]> o) names o.

(** The loop [for (let i = 0; i < this.nSteps; i++) { ... }] of
    [HamiltonianMC.leapfrog]: [n] rounds from index [i] on. *)
Fixpoint hmc_steps (this : HamiltonianMC) (model : Model) (variableNames : list string)
    (n : nat) (i : Z) (qNew pNew : gmap string R) : gmap string R * gmap string R :=
  match n with
  | O => (qNew, pNew)
  | S n' =>
    (* Full step for position *)
    let qNew := assignNames variableNames
                  (λ qNew name, get qNew name + hmc_stepSize this * get pNew name) qNew in
    (* Full step for momentum (except at end) *)
    let pNew :=
      if (i <? nSteps this - 1)%Z then
        let gradNew := logProbAndGradient model qNew in
        assignNames variableNames
          (λ pNew name, get pNew name + hmc_stepSize this * get (gradients gradNew) name)
          pNew
      else pNew in
    hmc_steps this model variableNames n' (i + 1) qNew pNew
  end.

(** [HamiltonianMC.leapfrog(position, momentum, model)] *)
Definition HamiltonianMC_leapfrog (this : HamiltonianMC) (position momentum : gmap string R)
    (model : Model) : Leapfrog.result :=
  let variableNames := keys position in
  let q := forNames variableNames (get position) in
  let p := forNames variableNames (get momentum) in
  (* Half step for momentum *)
  let grad := logProbAndGradient model q in
  let pHalf := forNames variableNames
                 (λ name, get p name + hmc_stepSize this / 2 * get (gradients grad) name) in
  (* Full steps for position and momentum *)
  let stepped := hmc_steps this model variableNames (Z.to_nat (nSteps this)) 0
                   (spread q) (spread pHalf) in
  let qNew := stepped.1 in
  let pNew := stepped.2 in
  (* Half step for momentum at end *)
  let gradFinal := logProbAndGradient model qNew in
  let pNew := assignNames variableNames
                (λ pNew name,
                   get pNew name + hmc_stepSize this / 2 * get (gradients gradFinal) name)
                pNew in
  let positionNew := forNames variableNames (get qNew) in
  let momentumNew := forNames variableNames (get pNew) in
  {| Leapfrog.position := positionNew; Leapfrog.momentum := momentumNew |}.

(** [HamiltonianMC.hamiltonian(position, momentum, model)] *)
Definition HamiltonianMC_hamiltonian (position momentum : gmap string R) (model : Model)
    : R :=
  let logProb := logProb model position in
  let variableNames := keys momentum in
  let kineticEnergy :=
    sumNames variableNames (λ name, let p := get momentum name in 0.5 * p * p) in
  - logProb + kineticEnergy.

(** The variables of [HamiltonianMC.sample] that live across iterations. *)
Module Walk.
Record vars := {
  trace : gmap string (list R);
  accepted_count : nat;
  accepted_total : nat;
  currentParams : gmap string R
}.
End Walk.

(** The object returned by [HamiltonianMC.sample] and by
    [MetropolisHastings.sample]. *)
Module Outcome.
Record t := {
  trace : gmap string (list R);
  acceptanceRate : R;
  nSamples : nat
}.
End Outcome.

(** [i >= burnIn && (i - burnIn) % thin === 0]; with [thin = 0] the remainder
    is [NaN] and the test fails. *)
Definition keptIteration (burnIn thin i : nat) : bool :=
  (burnIn <=? i)%nat && (0 <? thin)%nat && ((i - burnIn) mod thin =? 0)%nat.

(** ** Metropolis-Hastings ([MetropolisHastings]) *)

Record MetropolisHastings := {
  proposalStd : R
}.

(** [constructor(proposalStd = 0.1)] *)
Definition MetropolisHastings_constructor (proposalStd : option R)
    : Completion MetropolisHastings :=
  let proposalStd := default 0.1 proposalStd in
  Normal {| proposalStd := proposalStd |}.

(** [MetropolisHastings.tuneProposal(currentAcceptanceRate)]: the sampler
    object as the call leaves it, and the value returned. *)
Definition tuneProposal (this : MetropolisHastings) (currentAcceptanceRate : R)
    : MetropolisHastings * R :=
  let targetRate := 0.234 in
  let this :=
    if bool_decide (currentAcceptanceRate > targetRate)
    then {| proposalStd := proposalStd this * 1.1 |}    (* Increase step size *)
    else {| proposalStd := proposalStd this * 0.9 |} in (* Decrease step size *)
  (this, proposalStd this).

(** The variables of [MetropolisHastings.sample] that live across iterations. *)
Module MHWalk.
Record vars := {
  trace : gmap string (list R);
  accepted_count : nat;
  accepted_total : nat;
  currentParams : gmap string R;
  currentLogProb : R
}.
End MHWalk.

Section Walks.

(** The draws of [Math.random()], of [tf.randomNormal([])] and of
    [jstat.normal.sample(mean, std)], in order. *)
Variable uniformDraw : nat → R.
Variable normalDraw : nat → R.
Variable jstatDraw : nat → R → R → R.

(** [jstat.normal.sample(mean, std)], counted with the normal draws. *)
Definition jstat_normal_sample (mean std : R) : M R :=
  λ w, (jstatDraw (normalDraws w) mean std,
        {| randomDraws := randomDraws w;
           normalDraws := S (normalDraws w);
           leapfrogSteps := leapfrogSteps w;
           modelEvaluations := modelEvaluations w |}).

(** [model.logProb(params).arraySync()], counted. *)
Definition call_logProb (model : Model) (params : gmap string R) : M R :=
  λ w, (logProb model params,
        {| randomDraws := randomDraws w;
           normalDraws := normalDraws w;
           leapfrogSteps := leapfrogSteps w;
           modelEvaluations := S (modelEvaluations w) |}).

(** [HamiltonianMC.leapfrog(...)], counted: one call, one gradient evaluation
    before the loop, one per round but the last, and one after the loop. *)
Definition call_HamiltonianMC_leapfrog (this : HamiltonianMC)
    (position momentum : gmap string R) (model : Model) : M Leapfrog.result :=
  λ w, (HamiltonianMC_leapfrog this position momentum model,
        {| randomDraws := randomDraws w;
           normalDraws := normalDraws w;
           leapfrogSteps := S (leapfrogSteps w);
           modelEvaluations :=
             (modelEvaluations w + 2 + Z.to_nat (nSteps this - 1))%nat |}).

(** [HamiltonianMC.hamiltonian(...)], counted: one log-density evaluation. *)
Definition call_HamiltonianMC_hamiltonian (position momentum : gmap string R)
    (model : Model) : M R :=
  λ w, (HamiltonianMC_hamiltonian position momentum model,
        {| randomDraws := randomDraws w;
           normalDraws := normalDraws w;
           leapfrogSteps := leapfrogSteps w;
           modelEvaluations := S (modelEvaluations w) |}).

(** The body of the loop of [HamiltonianMC.sample]; the progress lines
    written to the console are left out. *)
Definition hmc_iteration (this : HamiltonianMC) (model : Model)
    (variableNames : list string) (burnIn thin : nat) (i : nat) (c : Walk.vars)
    : M Walk.vars :=
  (* Sample momentum *)
  let! momentum := drawMomentum normalDraw variableNames ∅ in
  (* Current Hamiltonian *)
  let! currentH := call_HamiltonianMC_hamiltonian (Walk.currentParams c) momentum model in
  (* Leapfrog integration *)
  let! new := call_HamiltonianMC_leapfrog this (Walk.currentParams c) momentum model in
  let proposedParams := Leapfrog.position new in
  let proposedMomentum := Leapfrog.momentum new in
  (* Proposed Hamiltonian *)
  let! proposedH := call_HamiltonianMC_hamiltonian proposedParams proposedMomentum model in
  (* Accept or reject *)
  let logAcceptanceRatio := currentH - proposedH in
  let acceptanceRatio := exp (Rmin 0 logAcceptanceRatio) in
  let total' := S (Walk.accepted_total c) in
  let! u := Math_random uniformDraw in
  let accept := bool_decide (u < acceptanceRatio) in
  let currentParams' := if accept then proposedParams else Walk.currentParams c in
  let count' := if accept then S (Walk.accepted_count c) else Walk.accepted_count c in
  (* Store samples after burn-in and according to thinning *)
  let trace' :=
    if keptIteration burnIn thin i
    then pushTrace variableNames (Walk.trace c) currentParams'
    else Walk.trace c in
  ret {| Walk.trace := trace';
         Walk.accepted_count := count';
         Walk.accepted_total := total';
         Walk.currentParams := currentParams' |}.

Fixpoint hmc_forLoop (n : nat) (this : HamiltonianMC) (model : Model)
    (variableNames : list string) (burnIn thin : nat) (i : nat) (c : Walk.vars)
    : M Walk.vars :=
  match n with
  | O => ret c
  | S n' =>
    let! c' := hmc_iteration this model variableNames burnIn thin i c in
    hmc_forLoop n' this model variableNames burnIn thin (S i) c'
  end.

(** [HamiltonianMC.sample(model, initialValues, nSamples = 1000, burnIn = 500, thin = 1)] *)
Definition HamiltonianMC_sample (this : HamiltonianMC) (model : Model)
    (initialValues : gmap string R) (nSamples burnIn thin : option nat) : M Outcome.t :=
  let nSamples := default 1000%nat nSamples in
  let burnIn := default 500%nat burnIn in
  let thin := default 1%nat thin in
  let variableNames := getFreeVariableNames model in
  let totalIterations := (burnIn + nSamples * thin)%nat in
  let! c := hmc_forLoop totalIterations this model variableNames burnIn thin 0
              {| Walk.trace := initTrace variableNames;
                 Walk.accepted_count := 0;
                 Walk.accepted_total := 0;
                 Walk.currentParams := spread initialValues |} in
  ret {| Outcome.trace := Walk.trace c;
         Outcome.acceptanceRate :=
           INR (Walk.accepted_count c) / INR (Walk.accepted_total c);
         Outcome.nSamples := nSamples |}.

(** [const proposedParams = {}; for (const name of variableNames)
      { proposedParams[name] = currentParams[name]
                               + jstat.normal.sample(0, this.proposalStd); }] *)
Fixpoint propose (this : MetropolisHastings) (variableNames : list string)
    (currentParams proposedParams : gmap string R) : M (gmap string R) :=
  match variableNames with
  | [] => ret proposedParams
  | name :: rest =>
    let currentValue := get currentParams name in
    let! noise := jstat_normal_sample 0 (proposalStd this) in
    let proposal := currentValue + noise in
    propose this rest currentParams (<[name := proposal]> proposedParams)
  end.

(** The body of the loop of [MetropolisHastings.sample]. *)
Definition mh_iteration (this : MetropolisHastings) (model : Model)
    (variableNames : list string) (burnIn thin : nat) (i : nat) (c : MHWalk.vars)
    : M MHWalk.vars :=
  (* Propose new parameters *)
  let! proposedParams := propose this variableNames (MHWalk.currentParams c) ∅ in
  (* Compute acceptance probability *)
  let! proposedLogProb := call_logProb model proposedParams in
  let logAcceptanceRatio := proposedLogProb - MHWalk.currentLogProb c in
  let acceptanceRatio := exp logAcceptanceRatio in
  (* Accept or reject *)
  let total' := S (MHWalk.accepted_total c) in
  let! u := Math_random uniformDraw in
  let accept := bool_decide (u < acceptanceRatio) in
  let currentParams' := if accept then proposedParams else MHWalk.currentParams c in
  let currentLogProb' := if accept then proposedLogProb else MHWalk.currentLogProb c in
  let count' := if accept then S (MHWalk.accepted_count c) else MHWalk.accepted_count c in
  (* Store samples after burn-in and according to thinning *)
  let trace' :=
    if keptIteration burnIn thin i
    then pushTrace variableNames (MHWalk.trace c) currentParams'
    else MHWalk.trace c in
  ret {| MHWalk.trace := trace';
         MHWalk.accepted_count := count';
         MHWalk.accepted_total := total';
         MHWalk.currentParams := currentParams';
         MHWalk.currentLogProb := currentLogProb' |}.

Fixpoint mh_forLoop (n : nat) (this : MetropolisHastings) (model : Model)
    (variableNames : list string) (burnIn thin : nat) (i : nat) (c : MHWalk.vars)
    : M MHWalk.vars :=
  match n with
  | O => ret c
  | S n' =>
    let! c' := mh_iteration this model variableNames burnIn thin i c in
    mh_forLoop n' this model variableNames burnIn thin (S i) c'
  end.

(** The variables of [MetropolisHastings.sample] before the first iteration. *)
Definition mh_start (model : Model) (variableNames : list string)
    (initialValues : gmap string R) : M MHWalk.vars :=
  let currentParams := spread initialValues in
  let! currentLogProb := call_logProb model currentParams in
  ret {| MHWalk.trace := initTrace variableNames;
         MHWalk.accepted_count := 0;
         MHWalk.accepted_total := 0;
         MHWalk.currentParams := currentParams;
         MHWalk.currentLogProb := currentLogProb |}.

(** [MetropolisHastings.sample(model, initialValues, nSamples = 1000, burnIn = 500, thin = 1)] *)
Definition MetropolisHastings_sample (this : MetropolisHastings) (model : Model)
    (initialValues : gmap string R) (nSamples burnIn thin : option nat) : M Outcome.t :=
  let nSamples := default 1000%nat nSamples in
  let burnIn := default 500%nat burnIn in
  let thin := default 1%nat thin in
  let variableNames := getFreeVariableNames model in
  let totalIterations := (burnIn + nSamples * thin)%nat in
  let! start := mh_start model variableNames initialValues in
  let! c := mh_forLoop totalIterations this model variableNames burnIn thin 0 start in
  ret {| Outcome.trace := MHWalk.trace c;
         Outcome.acceptanceRate :=
           INR (MHWalk.accepted_count c) / INR (MHWalk.accepted_total c);
         Outcome.nSamples := nSamples |}.

End Walks.

(** ** Vocabulary for the other samplers *)

(** [n] leapfrog steps of [NUTS.leapfrog], one after the other. *)
Fixpoint leapfrogs (n : nat) (position momentum : gmap string R) (stepSize : R)
    (model : Model) : Leapfrog.result :=
  match n with
  | O => {| Leapfrog.position := position; Leapfrog.momentum := momentum |}
  | S n' =>
    let new := leapfrog position momentum stepSize model in
    leapfrogs n' (Leapfrog.position new) (Leapfrog.momentum new) stepSize model
  end.

(** The number of samples kept by the first [k] iterations: the iterations
    [burnIn], [burnIn + thin], [burnIn + 2 thin], ... below [k]. *)
Definition keptBefore (burnIn thin k : nat) : nat :=
  ((k - burnIn + (thin - 1)) / thin)%nat.

(** The entries of a trace object: a sequence of [size] values for each of
    the names, and nothing else. *)
Definition traceShape (variableNames : list string) (size : nat)
    (trace : gmap string (list R)) : Prop :=
  ∀ name, (name ∈ variableNames → ∃ samples, trace !! name = Some samples
                                              ∧ length samples = size)
          ∧ (name ∉ variableNames → trace !! name = None).

(** The sampler that integrates backwards: the same number of steps with the
    opposite step size. *)
Definition reversed (this : HamiltonianMC) : HamiltonianMC :=
  {| hmc_stepSize := - hmc_stepSize this; nSteps := nSteps this |}.

(** [new HamiltonianMC(0.1, 3)] and [new MetropolisHastings(0.1)]. *)
Definition ex_hmc : HamiltonianMC := {| hmc_stepSize := 0.1; nSteps := 3 |}.
Definition ex_mh : MetropolisHastings := {| proposalStd := 0.1 |}.

(** * Properties

    ** Objects: lookups, keys and sums *)

Lemma keys_singleton (name : string) (v : R) : keys {[name := v]} = [name].
Proof. unfold keys. by rewrite map_to_list_singleton. Qed.

Lemma forNames_singleton (name : string) (f : string → R) :
  forNames [name] f = {[name := f name]}.
Proof. reflexivity. Qed.

Lemma get_singleton (name : string) (v : R) : get {[name := v]} name = v.
Proof. unfold get. by rewrite lookup_singleton_eq. Qed.

Lemma sumNames_singleton (name : string) (f : string → R) : sumNames [name] f = f name.
Proof. unfold sumNames. simpl. lra. Qed.

Create Rewrite HintDb js_eval.
#[global] Hint Rewrite keys_singleton forNames_singleton get_singleton sumNames_singleton
  : js_eval.

Lemma elem_of_keys (o : gmap string R) (name : string) :
  name ∈ keys o ↔ is_Some (o !! name).
Proof.
  unfold keys. rewrite list_elem_of_fmap. split.
  - intros [[k v] [-> Hin]]. apply elem_of_map_to_list in Hin. eauto.
  - intros [v Hv]. exists (name, v). split; [done|]. by apply elem_of_map_to_list.
Qed.

Lemma lookup_fold_insert (names : list string) (f : string → R) (o : gmap string R)
    (name : string) :
  fold_left (λ o name, <[name := f name]> o) names o !! name
  = if decide (name ∈ names) then Some (f name) else o !! name.
Proof.
  revert o. induction names as [|n names IH]; intros o; cbn [fold_left].
  - case_decide as H; [by apply elem_of_nil in H | done].
  - rewrite IH. destruct (decide (name ∈ names)) as [Hin|Hnin].
    + rewrite decide_True; [done | by right].
    + destruct (decide (n = name)) as [->|Hne].
      * rewrite lookup_insert_eq. rewrite decide_True; [done | by left].
      * rewrite lookup_insert_ne by done.
        rewrite decide_False; [done|]. rewrite elem_of_cons. intros [Heq|Hin]; [by subst | done].
Qed.

Lemma lookup_forNames (names : list string) (f : string → R) (name : string) :
  forNames names f !! name = if decide (name ∈ names) then Some (f name) else None.
Proof. unfold forNames. by rewrite lookup_fold_insert, lookup_empty. Qed.

Lemma get_forNames (names : list string) (f : string → R) (name : string) :
  name ∈ names → get (forNames names f) name = f name.
Proof. intros H. unfold get. rewrite lookup_forNames. by rewrite decide_True. Qed.

Lemma dom_forNames (names : list string) (f : string → R) :
  dom (forNames names f) = list_to_set names.
Proof.
  apply set_eq. intros name. rewrite elem_of_dom, lookup_forNames, elem_of_list_to_set.
  case_decide; split; intros Hx; try done; by destruct Hx.
Qed.

Lemma keys_dom (o : gmap string R) (name : string) : name ∈ keys o ↔ name ∈ dom o.
Proof. by rewrite elem_of_keys, elem_of_dom. Qed.

Lemma dom_forNames_keys (o : gmap string R) (f : string → R) :
  dom (forNames (keys o) f) = dom o.
Proof.
  rewrite dom_forNames. apply set_eq. intros name.
  by rewrite elem_of_list_to_set, keys_dom.
Qed.

(** Copying an object name by name gives the object back. *)
Lemma forNames_keys_get (o : gmap string R) : forNames (keys o) (get o) = o.
Proof.
  apply map_eq. intros name. rewrite lookup_forNames. unfold get.
  case_decide as H.
  - apply elem_of_keys in H. destruct H as [v ->]. done.
  - destruct (o !! name) eqn:E; [|done]. exfalso. apply H, elem_of_keys. eauto.
Qed.

(** Two objects built over the same names agree when their values agree on
    those names. *)
Lemma forNames_ext (names : list string) (f g : string → R) :
  (∀ name, name ∈ names → f name = g name) → forNames names f = forNames names g.
Proof.
  intros H. apply map_eq. intros name. rewrite !lookup_forNames.
  case_decide; [by rewrite H | done].
Qed.

Lemma forNames_same_dom (names1 names2 : list string) (f : string → R) :
  (∀ name, name ∈ names1 ↔ name ∈ names2) → forNames names1 f = forNames names2 f.
Proof.
  intros H. apply map_eq. intros name. rewrite !lookup_forNames.
  destruct (decide (name ∈ names1)) as [H1|H1].
  - rewrite decide_True; [done | by apply H].
  - rewrite decide_False; [done | by rewrite <- H].
Qed.

(** A loop that accumulates with [+=] computes the sum of the terms. *)
Lemma fold_left_Rplus (names : list string) (f : string → R) (acc : R) :
  fold_left (λ acc name, acc + f name) names acc = acc + foldr Rplus 0 (f <$> names).
Proof.
  revert acc. induction names as [|n names IH]; intros acc; csimpl; [lra|].
  rewrite IH. lra.
Qed.

Lemma sumNames_foldr (names : list string) (f : string → R) :
  sumNames names f = foldr Rplus 0 (f <$> names).
Proof. unfold sumNames. rewrite fold_left_Rplus. lra. Qed.

Lemma sum_Permutation (l1 l2 : list R) :
  l1 ≡ₚ l2 → foldr Rplus 0 l1 = foldr Rplus 0 l2.
Proof. induction 1; simpl; lra. Qed.

Lemma NoDup_keys (o : gmap string R) : NoDup (keys o).
Proof. apply NoDup_fst_map_to_list. Qed.

(** Objects with the same names have the same keys, up to their order. *)
Lemma keys_Permutation (a b : gmap string R) : dom a = dom b → keys a ≡ₚ keys b.
Proof.
  intros Hdom. apply NoDup_Permutation; [apply NoDup_keys | apply NoDup_keys |].
  intros name. by rewrite !keys_dom, Hdom.
Qed.

Lemma sumNames_ext (names : list string) (f g : string → R) :
  (∀ name, name ∈ names → f name = g name) → sumNames names f = sumNames names g.
Proof.
  intros H. rewrite !sumNames_foldr. f_equal.
  induction names as [|n names IH]; csimpl; [done|].
  rewrite H by left. rewrite IH; [done|]. intros name Hin. apply H. by right.
Qed.

Lemma sumNames_Permutation (names1 names2 : list string) (f : string → R) :
  names1 ≡ₚ names2 → sumNames names1 f = sumNames names2 f.
Proof.
  intros H. rewrite !sumNames_foldr. apply sum_Permutation. by apply fmap_Permutation.
Qed.

(** ** The U-turn test *)

Lemma spec_dot_sumNames (a b : gmap string R) :
  spec_dot a b = sumNames (keys a) (λ name, get a name * get b name).
Proof.
  rewrite sumNames_foldr. unfold spec_dot, keys.
  assert (H : ∀ kv, kv ∈ map_to_list a → a !! kv.1 = Some kv.2).
  { intros [k v] Hin. by apply elem_of_map_to_list in Hin. }
  induction (map_to_list a) as [|[k v] l IH]; csimpl; [done|].
  rewrite IH by (intros kv Hin; apply H; by right).
  assert (Hk : get a k = v).
  { unfold get. pose proof (H (k, v) ltac:(left)) as Hkv. simpl in Hkv. by rewrite Hkv. }
  by rewrite Hk.
Qed.

Lemma get_spec_deltaTheta (positionMinus positionPlus : gmap string R) (name : string) :
  dom positionPlus = dom positionMinus →
  name ∈ dom positionMinus →
  get (spec_deltaTheta positionMinus positionPlus) name
  = get positionPlus name - get positionMinus name.
Proof.
  intros Hdom Hin. unfold get, spec_deltaTheta. rewrite map_lookup_zip_with.
  assert (Hp : name ∈ dom positionPlus) by by rewrite Hdom.
  apply elem_of_dom in Hin as [m ->]. apply elem_of_dom in Hp as [p ->]. done.
Qed.

Lemma dom_spec_deltaTheta (positionMinus positionPlus : gmap string R) :
  dom positionPlus = dom positionMinus →
  dom (spec_deltaTheta positionMinus positionPlus) = dom positionMinus.
Proof.
  intros Hdom. unfold spec_deltaTheta. rewrite dom_map_zip_with_L, Hdom.
  apply set_eq. intros name. rewrite elem_of_intersection. tauto.
Qed.

(** The accumulation loops of [isUTurn] compute the dot products of the
    specification. *)
Lemma isUTurn_dot (positionMinus positionPlus mom : gmap string R) :
  dom positionPlus = dom positionMinus →
  sumNames (keys positionMinus)
    (λ name, (get positionPlus name - get positionMinus name) * get mom name)
  = spec_dot (spec_deltaTheta positionMinus positionPlus) mom.
Proof.
  intros Hdom. rewrite spec_dot_sumNames.
  rewrite (sumNames_Permutation (keys (spec_deltaTheta positionMinus positionPlus))
             (keys positionMinus))
    by (apply keys_Permutation; by apply dom_spec_deltaTheta).
  apply sumNames_ext. intros name Hin. apply keys_dom in Hin.
  by rewrite get_spec_deltaTheta.
Qed.

(** C9. For outer edges over the same variable names, [isUTurn] returns true
    exactly when, with [Δθ = pos⁺ − pos⁻] and the dot product summed over all
    variable components, [Δθ·mom⁺ < 0] or [Δθ·mom⁻ < 0]; and
    [isUTurn(0, 1, 1, 1)] is false while [isUTurn(0, 1, 1, -1)] is true. *)
Theorem isUTurn_spec :
  (∀ positionMinus positionPlus momentumMinus momentumPlus : gmap string R,
     dom positionPlus = dom positionMinus →
     dom momentumMinus = dom positionMinus →
     dom momentumPlus = dom positionMinus →
     isUTurn positionMinus positionPlus momentumMinus momentumPlus = true
     ↔ spec_isUTurn positionMinus positionPlus momentumMinus momentumPlus)
  ∧ isUTurn {["x"%string := 0]} {["x"%string := 1]}
            {["x"%string := 1]} {["x"%string := 1]} = false
  ∧ isUTurn {["x"%string := 0]} {["x"%string := 1]}
            {["x"%string := 1]} {["x"%string := -1]} = true.
Proof.
  split; [|split].
  - intros pm pp mm mp Hpp _ _. unfold isUTurn, spec_isUTurn. cbv zeta.
    rewrite !isUTurn_dot by done.
    rewrite orb_true_iff, !bool_decide_eq_true. done.
  - unfold isUTurn. autorewrite with js_eval.
    rewrite !bool_decide_eq_false_2 by lra. done.
  - unfold isUTurn. autorewrite with js_eval.
    rewrite bool_decide_eq_true_2 by lra. done.
Qed.

Lemma isUTurn_spec_witness :
  spec_isUTurn {["x"%string := 0]} {["x"%string := 1]}
               {["x"%string := 1]} {["x"%string := -1]}.
Proof.
  apply (proj1 isUTurn_spec); [by rewrite !dom_singleton_L ..|].
  apply (proj2 (proj2 isUTurn_spec)).
Defined.

(** ** The example models, evaluated *)

Lemma leapfrog_standardNormal (x p h : R) :
  leapfrog {["x"%string := x]} {["x"%string := p]} h standardNormal
  = {| Leapfrog.position := {["x"%string := x + h * (p + h / 2 * - x)]};
       Leapfrog.momentum :=
         {["x"%string := p + h / 2 * - x + h / 2 * - (x + h * (p + h / 2 * - x))]} |}.
Proof.
  unfold leapfrog, standardNormal. cbn [logProbAndGradient gradients].
  autorewrite with js_eval. reflexivity.
Qed.

Lemma hamiltonian_standardNormal (x p : R) :
  hamiltonian {["x"%string := x]} {["x"%string := p]} standardNormal
  = x * x / 2 + 0.5 * p * p.
Proof.
  unfold hamiltonian, standardNormal. cbn [logProb].
  autorewrite with js_eval. lra.
Qed.

Lemma leapfrog_flat (x p h : R) :
  leapfrog {["x"%string := x]} {["x"%string := p]} h flat
  = {| Leapfrog.position := {["x"%string := x + h * (p + h / 2 * 0)]};
       Leapfrog.momentum := {["x"%string := p + h / 2 * 0 + h / 2 * 0]} |}.
Proof.
  unfold leapfrog, flat. cbn [logProbAndGradient gradients].
  autorewrite with js_eval. reflexivity.
Qed.

Lemma hamiltonian_flat (x p : R) :
  hamiltonian {["x"%string := x]} {["x"%string := p]} flat = 0.5 * p * p.
Proof.
  unfold hamiltonian, flat. cbn [logProb].
  autorewrite with js_eval. lra.
Qed.

(** ** The base case of the tree builder *)

Lemma buildTree_leaf (uniformDraw : nat → R) (position momentum : gmap string R)
    (slice : R) (direction : Z) (stepSize : R) (model : Model) (H0 : R) (w : World) :
  buildTree uniformDraw position momentum slice direction 0 stepSize model H0 w
  = let new := leapfrog position momentum (IZR direction * stepSize) model in
    let H := leafEnergy position momentum direction stepSize model in
    let valid := bool_decide (slice <= exp (H0 - H)) in
    ({| positionMinus := Leapfrog.position new;
        positionPlus := Leapfrog.position new;
        momentumMinus := Leapfrog.momentum new;
        momentumPlus := Leapfrog.momentum new;
        positionPrime := Leapfrog.position new;
        nValid := if valid then 1%Z else 0%Z;
        stop := negb valid || bool_decide (H0 - H > 1000);
        alpha := Rmin 1 (exp (H0 - H));
        nAlpha := 1%Z |},
     {| randomDraws := randomDraws w;
        normalDraws := normalDraws w;
        leapfrogSteps := S (leapfrogSteps w);
        modelEvaluations := S (S (S (modelEvaluations w))) |}).
Proof. reflexivity. Qed.

Lemma ex_H0_value : ex_H0 = 0.5.
Proof. unfold ex_H0, ex_position, ex_momentum, x_is. rewrite hamiltonian_standardNormal. lra. Qed.

Lemma ex_leafEnergy : leafEnergy ex_position ex_momentum 1 2 standardNormal = 2.5.
Proof.
  unfold leafEnergy, ex_position, ex_momentum, x_is. rewrite leapfrog_standardNormal.
  cbn [Leapfrog.position Leapfrog.momentum]. rewrite hamiltonian_standardNormal. lra.
Qed.

Lemma exp_lower (x : R) : 0 < x → exp (- x) < / (1 + x).
Proof.
  intros Hx. rewrite exp_Ropp. apply Rinv_lt_contravar.
  - apply Rmult_lt_0_compat; [lra | apply exp_pos].
  - apply exp_ineq1. lra.
Qed.

Lemma ex_slice_outside : ex_slice > exp (ex_H0 - 2.5).
Proof.
  unfold ex_slice. rewrite ex_H0_value.
  replace (0.5 - 2.5) with (Ropp 0.5 + Ropp 1.5) by lra. rewrite exp_plus.
  pose proof (exp_pos (Ropp 0.5)) as Hpos.
  pose proof (exp_lower 1.5 ltac:(lra)) as Hlow.
  assert (/ (1 + 1.5) = 0.4) as Heq by lra. rewrite Heq in Hlow.
  nra.
Qed.

(** C10. In the base case the stop flag is [!valid || (H0 - H) > deltaMax]
    with [deltaMax = 1000]; so a leaf outside the slice
    ([slice > exp(H0 - H)]) stops the trajectory, divergent or not. *)
Theorem buildTree_leaf_stop (uniformDraw : nat → R) (position momentum : gmap string R)
    (slice : R) (direction : Z) (stepSize : R) (model : Model) (H0 : R) (w : World) :
  let H := leafEnergy position momentum direction stepSize model in
  let leaf := (buildTree uniformDraw position momentum slice direction 0 stepSize model H0 w).1 in
  stop leaf = negb (bool_decide (slice <= exp (H0 - H))) || bool_decide (H0 - H > 1000)
  ∧ (slice > exp (H0 - H) → stop leaf = true).
Proof.
  intros H leaf. subst leaf. rewrite buildTree_leaf. cbn [fst stop]. fold H.
  split; [done|]. intros Hout.
  rewrite bool_decide_eq_false_2 by lra. done.
Qed.

Lemma buildTree_leaf_stop_witness :
  ex_slice > exp (ex_H0 - leafEnergy ex_position ex_momentum 1 2 standardNormal)
  ∧ ex_H0 - leafEnergy ex_position ex_momentum 1 2 standardNormal <= 1000
  ∧ stop (buildTree (always 0.9) ex_position ex_momentum ex_slice 1 0 2
            standardNormal ex_H0 startWorld).1 = true.
Proof.
  assert (Hout : ex_slice
                 > exp (ex_H0 - leafEnergy ex_position ex_momentum 1 2 standardNormal)).
  { rewrite ex_leafEnergy. apply ex_slice_outside. }
  split; [exact Hout|]. split.
  - rewrite ex_leafEnergy, ex_H0_value. lra.
  - apply (buildTree_leaf_stop (always 0.9) ex_position ex_momentum ex_slice 1 2
             standardNormal ex_H0 startWorld). exact Hout.
Defined.

(** C6, as stated, fails: the leaf of the example (standard normal, one step
    of size 2 from [x = 0] with momentum 1, [Math.random() = 0.9] for the
    slice) is not divergent ([H0 - H = -2 <= 1000]), yet it lies outside the
    slice and is counted with [nValid = 0]. *)
Lemma nonDivergent_leaf_nValid_counterexample :
  ex_H0 - leafEnergy ex_position ex_momentum 1 2 standardNormal <= 1000
  ∧ ¬ (nValid (buildTree (always 0.9) ex_position ex_momentum ex_slice 1 0 2
                 standardNormal ex_H0 startWorld).1 >= 1)%Z.
Proof.
  split.
  - rewrite ex_leafEnergy, ex_H0_value. lra.
  - rewrite buildTree_leaf. cbn [fst nValid]. rewrite ex_leafEnergy.
    rewrite bool_decide_eq_false_2; [lia|].
    pose proof ex_slice_outside. lra.
Qed.

(** C6, amended. A base-case leaf has [nValid = 1] when it is valid
    ([slice <= exp(H0 - H)]) and [nValid = 0] otherwise, divergent or not; in
    particular every leaf that does not signal stop has [nValid >= 1]. *)
Theorem buildTree_leaf_nValid (uniformDraw : nat → R) (position momentum : gmap string R)
    (slice : R) (direction : Z) (stepSize : R) (model : Model) (H0 : R) (w : World) :
  let H := leafEnergy position momentum direction stepSize model in
  let leaf := (buildTree uniformDraw position momentum slice direction 0 stepSize model H0 w).1 in
  nValid leaf = (if bool_decide (slice <= exp (H0 - H))%R then 1 else 0)%Z
  ∧ (stop leaf = false → (nValid leaf >= 1)%Z).
Proof.
  intros H leaf. subst leaf. rewrite buildTree_leaf. cbn [fst stop nValid]. fold H.
  split; [done|]. intros Hstop.
  apply orb_false_iff in Hstop as [Hvalid _]. apply negb_false_iff in Hvalid.
  rewrite Hvalid. lia.
Qed.

Lemma leafEnergy_flat_rest :
  leafEnergy (x_is 0) (x_is 0) 1 0.1 flat = 0.
Proof.
  unfold leafEnergy, x_is. rewrite leapfrog_flat.
  cbn [Leapfrog.position Leapfrog.momentum]. rewrite hamiltonian_flat. lra.
Qed.

Lemma buildTree_leaf_nValid_witness :
  stop (buildTree (always 0.5) (x_is 0) (x_is 0) 0.5 1 0 0.1
          flat 0 startWorld).1 = false
  ∧ (nValid (buildTree (always 0.5) (x_is 0) (x_is 0) 0.5 1 0 0.1
               flat 0 startWorld).1 >= 1)%Z.
Proof.
  assert (Hstop : stop (buildTree (always 0.5) (x_is 0) (x_is 0)
                          0.5 1 0 0.1 flat 0 startWorld).1 = false).
  { rewrite buildTree_leaf. cbn [fst stop]. rewrite leafEnergy_flat_rest.
    replace (0 - 0) with 0 by lra. rewrite exp_0.
    rewrite bool_decide_eq_true_2 by lra. rewrite bool_decide_eq_false_2 by lra. done. }
  split; [exact Hstop|].
  apply (buildTree_leaf_nValid (always 0.5) (x_is 0) (x_is 0)
           0.5 1 0.1 flat 0 startWorld). exact Hstop.
Defined.

(** ** Construction of the samplers *)

(** C8, as stated, fails: no constructor validates its arguments.  A NUTS
    sampler with step size -1, maximal tree depth 0 and target acceptance 2,
    and an HMC sampler with step size -1 and 0 steps, are constructed without
    an error. *)
Lemma constructor_invalid_counterexample :
  NUTS_constructor (Some (-1)) (Some 0%Z) (Some 2) ≠ Throw ConfigurationError
  ∧ HamiltonianMC_constructor (Some (-1)) (Some 0%Z) ≠ Throw ConfigurationError.
Proof. split; discriminate. Qed.

(** C8, amended. Construction never fails: for every step size, tree depth
    (number of steps for HMC) and target acceptance, valid or not, the
    constructor returns a sampler that stores the arguments as given, with
    the dual-averaging constants [mu = log(10 * stepSize)], [gamma = 0.05],
    [t0 = 10], [kappa = 0.75]; arguments left out take the defaults 0.01, 10
    and 0.8. *)
Theorem constructor_total (eps : R) (d : Z) (delta : R) (n : Z) :
  (∃ sampler, NUTS_constructor (Some eps) (Some d) (Some delta) = Normal sampler
     ∧ stepSize sampler = eps ∧ maxTreeDepth sampler = d
     ∧ targetAcceptance sampler = delta
     ∧ mu sampler = ln (10 * eps) ∧ gamma sampler = 0.05
     ∧ t0 sampler = 10 ∧ kappa sampler = 0.75)
  ∧ (∃ sampler, HamiltonianMC_constructor (Some eps) (Some n) = Normal sampler
       ∧ hmc_stepSize sampler = eps ∧ nSteps sampler = n)
  ∧ (∃ sampler, NUTS_constructor None None None = Normal sampler
       ∧ stepSize sampler = 0.01 ∧ maxTreeDepth sampler = 10%Z
       ∧ targetAcceptance sampler = 0.8)
  ∧ (∃ sampler, HamiltonianMC_constructor None None = Normal sampler
       ∧ hmc_stepSize sampler = 0.01 ∧ nSteps sampler = 10%Z).
Proof. repeat split; eexists; repeat split; reflexivity. Qed.

(** ** The recursive case of the tree builder *)

Lemma buildTree_step (uniformDraw : nat → R) (position momentum : gmap string R)
    (slice : R) (direction : Z) (depth : nat) (stepSize : R) (model : Model) (H0 : R)
    (w : World) :
  buildTree uniformDraw position momentum slice direction (S depth) stepSize model H0 w
  = let first := buildTree uniformDraw position momentum slice direction depth
                   stepSize model H0 w in
    let tree1 := first.1 in
    if stop tree1 then first else
    let second := buildTree uniformDraw (position2 direction tree1)
                    (momentum2 direction tree1) slice direction depth
                    stepSize model H0 first.2 in
    let tree2 := second.1 in
    let positionMinus' := if (direction =? 1)%Z then positionMinus tree1 else positionMinus tree2 in
    let positionPlus' := if (direction =? 1)%Z then positionPlus tree2 else positionPlus tree1 in
    let momentumMinus' := if (direction =? 1)%Z then momentumMinus tree1 else momentumMinus tree2 in
    let momentumPlus' := if (direction =? 1)%Z then momentumPlus tree2 else momentumPlus tree1 in
    let acceptProb := IZR (nValid tree2) / Rmax (IZR (nValid tree1 + nValid tree2)) 1 in
    let u := uniformDraw (randomDraws second.2) in
    ({| positionMinus := positionMinus';
        positionPlus := positionPlus';
        momentumMinus := momentumMinus';
        momentumPlus := momentumPlus';
        positionPrime := if bool_decide (u < acceptProb) then positionPrime tree2
                         else positionPrime tree1;
        nValid := nValid tree1 + nValid tree2;
        stop := stop tree1 || stop tree2
                || isUTurn positionMinus' positionPlus' momentumMinus' momentumPlus';
        alpha := alpha tree1 + alpha tree2;
        nAlpha := nAlpha tree1 + nAlpha tree2 |},
     {| randomDraws := S (randomDraws second.2);
        normalDraws := normalDraws second.2;
        leapfrogSteps := leapfrogSteps second.2;
        modelEvaluations := modelEvaluations second.2 |}).
Proof.
  cbn [buildTree]. unfold bind at 1. cbv zeta.
  destruct (buildTree uniformDraw position momentum slice direction depth
              stepSize model H0 w) as [tree1 w1] eqn:E1.
  cbn [fst snd]. destruct (stop tree1); [reflexivity|].
  reflexivity.
Qed.

(** C2. When the first half-subtree of a call at depth [depth + 1] comes back
    with [stop = true], the call returns that result in the world the first
    half left: the second half is not built, and no leapfrog step, model
    evaluation or random draw happens after the first half. *)
Theorem buildTree_short_circuit (uniformDraw : nat → R) (position momentum : gmap string R)
    (slice : R) (direction : Z) (depth : nat) (stepSize : R) (model : Model) (H0 : R)
    (w : World) :
  let first := buildTree uniformDraw position momentum slice direction depth
                 stepSize model H0 w in
  let whole := buildTree uniformDraw position momentum slice direction (S depth)
                 stepSize model H0 w in
  stop first.1 = true →
  whole = first
  ∧ leapfrogSteps whole.2 = leapfrogSteps first.2
  ∧ modelEvaluations whole.2 = modelEvaluations first.2.
Proof.
  intros first whole Hstop. subst whole. rewrite buildTree_step. cbv zeta.
  fold first. rewrite Hstop. done.
Qed.

Lemma ex_leaf_stops :
  stop (buildTree (always 0.9) ex_position ex_momentum ex_slice 1 0 2
          standardNormal ex_H0 startWorld).1 = true.
Proof.
  rewrite buildTree_leaf. cbn [fst stop]. rewrite ex_leafEnergy.
  rewrite bool_decide_eq_false_2; [done|]. pose proof ex_slice_outside. lra.
Qed.

Lemma buildTree_short_circuit_witness :
  buildTree (always 0.9) ex_position ex_momentum ex_slice 1 1 2
    standardNormal ex_H0 startWorld
  = buildTree (always 0.9) ex_position ex_momentum ex_slice 1 0 2
      standardNormal ex_H0 startWorld.
Proof.
  apply (buildTree_short_circuit (always 0.9) ex_position ex_momentum ex_slice 1 0 2
           standardNormal ex_H0 startWorld).
  apply ex_leaf_stops.
Defined.

(** ** Counting leapfrog steps *)

Lemma buildTree_leapfrogSteps (uniformDraw : nat → R) (depth : nat) :
  ∀ (position momentum : gmap string R) (slice : R) (direction : Z) (stepSize : R)
    (model : Model) (H0 : R) (w : World),
    (leapfrogSteps
       (buildTree uniformDraw position momentum slice direction depth stepSize model H0 w).2
     ≤ leapfrogSteps w + 2 ^ depth)%nat.
Proof.
  induction depth as [|depth IH]; intros position momentum slice direction stepSize model H0 w.
  - rewrite buildTree_leaf. cbn. lia.
  - rewrite buildTree_step. cbv zeta.
    pose proof (IH position momentum slice direction stepSize model H0 w) as H1.
    destruct (buildTree uniformDraw position momentum slice direction depth
                stepSize model H0 w) as [tree1 w1] eqn:E1.
    cbn [fst snd] in *. rewrite Nat.pow_succ_r'.
    destruct (stop tree1); cbn [snd]; [lia|].
    pose proof (IH (position2 direction tree1) (momentum2 direction tree1) slice
                  direction stepSize model H0 w1) as H2.
    cbn [leapfrogSteps]. lia.
Qed.

Lemma drawMomentum_leapfrogSteps (normalDraw : nat → R) (variableNames : list string) :
  ∀ (momentum : gmap string R) (w : World),
    leapfrogSteps (drawMomentum normalDraw variableNames momentum w).2 = leapfrogSteps w.
Proof.
  induction variableNames as [|name rest IH]; intros momentum w; [done|].
  cbn [drawMomentum]. unfold bind. cbv zeta. rewrite IH. done.
Qed.

Lemma doublingStep_eq (uniformDraw : nat → R) (this : NUTS) (model : Model)
    (slice H0 : R) (l : Loop.vars) (w : World) :
  doublingStep uniformDraw this model slice H0 l w
  = let built := newSubtree uniformDraw this model slice H0 l w in
    let direction := built.1.1 in
    let tree := built.1.2 in
    let positionPlus' := if (direction =? 1)%Z then positionPlus tree else Loop.positionPlus l in
    let momentumPlus' := if (direction =? 1)%Z then momentumPlus tree else Loop.momentumPlus l in
    let positionMinus' := if (direction =? 1)%Z then Loop.positionMinus l else positionMinus tree in
    let momentumMinus' := if (direction =? 1)%Z then Loop.momentumMinus l else momentumMinus tree in
    let u := uniformDraw (randomDraws built.2) in
    let acceptProb := IZR (nValid tree) / IZR (Loop.nValid l) in
    ({| Loop.positionMinus := positionMinus';
        Loop.positionPlus := positionPlus';
        Loop.momentumMinus := momentumMinus';
        Loop.momentumPlus := momentumPlus';
        Loop.proposedParams :=
          if stop tree then Loop.proposedParams l
          else if bool_decide (u < acceptProb) then positionPrime tree
               else Loop.proposedParams l;
        Loop.depth := S (Loop.depth l);
        Loop.stop := stop tree
                     || isUTurn positionMinus' positionPlus' momentumMinus' momentumPlus';
        Loop.nValid := Loop.nValid l + nValid tree;
        Loop.alpha := Loop.alpha l + alpha tree;
        Loop.nAlpha := Loop.nAlpha l + nAlpha tree |},
     if stop tree then built.2
     else {| randomDraws := S (randomDraws built.2);
             normalDraws := normalDraws built.2;
             leapfrogSteps := leapfrogSteps built.2;
             modelEvaluations := modelEvaluations built.2 |}).
Proof.
  unfold doublingStep, newSubtree, drawDirection, bind, ret, Math_random. cbv zeta.
  cbn [fst snd].
  destruct (bool_decide (uniformDraw (randomDraws w) < 0.5)); cbn [Z.eqb Pos.eqb fst snd];
    match goal with |- context [stop ?t] => destruct (stop t) end; reflexivity.
Qed.

Lemma newSubtree_leapfrogSteps (uniformDraw : nat → R) (this : NUTS) (model : Model)
    (slice H0 : R) (l : Loop.vars) (w : World) :
  (leapfrogSteps (newSubtree uniformDraw this model slice H0 l w).2
   ≤ leapfrogSteps w + 2 ^ Loop.depth l)%nat.
Proof.
  unfold newSubtree, drawDirection, bind, ret, Math_random. cbv zeta. cbn [fst snd].
  destruct (bool_decide (uniformDraw (randomDraws w) < 0.5)); cbn [Z.eqb Pos.eqb];
    match goal with
    | |- context [buildTree ?u ?p ?m ?s ?d ?n ?e ?mo ?h ?w'] =>
      pose proof (buildTree_leapfrogSteps u n p m s d e mo h w') as Hb
    end; cbn [leapfrogSteps] in Hb; exact Hb.
Qed.

Lemma doublingStep_leapfrogSteps (uniformDraw : nat → R) (this : NUTS) (model : Model)
    (slice H0 : R) (l : Loop.vars) (w : World) :
  (leapfrogSteps (doublingStep uniformDraw this model slice H0 l w).2
   ≤ leapfrogSteps w + 2 ^ Loop.depth l)%nat
  ∧ Loop.depth (doublingStep uniformDraw this model slice H0 l w).1 = S (Loop.depth l).
Proof.
  rewrite doublingStep_eq. cbv zeta. cbn [fst snd Loop.depth]. split; [|done].
  pose proof (newSubtree_leapfrogSteps uniformDraw this model slice H0 l w) as Hb.
  destruct (stop _); cbn [leapfrogSteps]; exact Hb.
Qed.

(** The doubling loop from depth [k] with [fuel] rounds left performs at most
    [2^k + ... + 2^(k+fuel-1) = 2^(k+fuel) - 2^k] leapfrog steps. *)
Lemma doublingLoop_leapfrogSteps (uniformDraw : nat → R) (this : NUTS) (model : Model)
    (slice H0 : R) (fuel : nat) :
  ∀ (l : Loop.vars) (w : World),
    (leapfrogSteps (doublingLoop uniformDraw fuel this model slice H0 l w).2
     + 2 ^ Loop.depth l
     ≤ leapfrogSteps w + 2 ^ (Loop.depth l + fuel))%nat.
Proof.
  induction fuel as [|fuel IH]; intros l w.
  - rewrite Nat.add_0_r. cbn [doublingLoop]. destruct (_ && _); cbn; lia.
  - assert (Hmono : (2 ^ Loop.depth l ≤ 2 ^ (Loop.depth l + S fuel))%nat).
    { apply Nat.pow_le_mono_r; lia. }
    cbn [doublingLoop]. destruct (_ && _); [|cbn; lia].
    unfold bind. cbv zeta.
    destruct (doublingStep_leapfrogSteps uniformDraw this model slice H0 l w) as [Hs Hd].
    specialize (IH (doublingStep uniformDraw this model slice H0 l w).1
                   (doublingStep uniformDraw this model slice H0 l w).2).
    rewrite Hd in IH. rewrite Nat.pow_succ_r' in IH.
    replace (S (Loop.depth l) + fuel)%nat with (Loop.depth l + S fuel)%nat in IH by lia.
    lia.
Qed.

(** The loop ends because its condition fails, never because the fuel ran
    out, as soon as the fuel covers the depths left. *)
Lemma doublingLoop_exit (uniformDraw : nat → R) (this : NUTS) (model : Model)
    (slice H0 : R) (fuel : nat) :
  ∀ (l : Loop.vars) (w : World),
    (maxTreeDepth this <= Z.of_nat (Loop.depth l + fuel))%Z →
    let l' := (doublingLoop uniformDraw fuel this model slice H0 l w).1 in
    negb (Loop.stop l') && (Z.of_nat (Loop.depth l') <? maxTreeDepth this)%Z = false.
Proof.
  induction fuel as [|fuel IH]; intros l w Hfuel; cbv zeta.
  - cbn [doublingLoop].
    destruct (negb (Loop.stop l) && (Z.of_nat (Loop.depth l) <? maxTreeDepth this)%Z) eqn:E;
      cbn [ret fst]; [|exact E].
    apply andb_true_iff in E as [_ E]. apply Z.ltb_lt in E. lia.
  - cbn [doublingLoop].
    destruct (negb (Loop.stop l) && (Z.of_nat (Loop.depth l) <? maxTreeDepth this)%Z) eqn:E;
      cbn [ret fst]; [|exact E].
    unfold bind. cbv zeta. apply IH.
    destruct (doublingStep_leapfrogSteps uniformDraw this model slice H0 l w) as [_ Hd].
    rewrite Hd. lia.
Qed.

Lemma trajectory_leapfrogSteps (uniformDraw normalDraw : nat → R) (this : NUTS)
    (model : Model) (variableNames : list string) (currentParams : gmap string R)
    (w : World) :
  (leapfrogSteps (trajectory uniformDraw normalDraw this model variableNames currentParams w).2
   + 1
   ≤ leapfrogSteps w + 2 ^ Z.to_nat (maxTreeDepth this))%nat.
Proof.
  unfold trajectory. unfold bind at 1 2 3. cbv zeta.
  match goal with
  | |- context [doublingLoop ?u ?f ?t ?mo ?s ?h ?l ?w'] =>
    pose proof (doublingLoop_leapfrogSteps u t mo s h f l w') as Hl
  end.
  eapply Nat.le_trans; [exact Hl|].
  cbn [Math_random call_hamiltonian snd leapfrogSteps Loop.depth Nat.add].
  rewrite drawMomentum_leapfrogSteps. done.
Qed.

(** The doubling loop of an outer iteration always runs to the end: when
    [trajectory] returns, the loop condition is false. *)
Lemma trajectory_exit (uniformDraw normalDraw : nat → R) (this : NUTS) (model : Model)
    (variableNames : list string) (currentParams : gmap string R) (w : World) :
  let l := (trajectory uniformDraw normalDraw this model variableNames currentParams w).1 in
  negb (Loop.stop l) && (Z.of_nat (Loop.depth l) <? maxTreeDepth this)%Z = false.
Proof.
  cbv zeta. unfold trajectory. unfold bind at 1 2 3. cbv zeta.
  apply doublingLoop_exit. cbn [loopStart Loop.depth]. lia.
Qed.

Lemma iteration_world (uniformDraw normalDraw : nat → R) (model : Model)
    (variableNames : list string) (nWarmup thin i : nat) (c : Chain.vars) (w : World) :
  (iteration uniformDraw normalDraw model variableNames nWarmup thin i c w).2
  = (trajectory uniformDraw normalDraw (Chain.this c) model variableNames
       (Chain.currentParams c) w).2.
Proof.
  unfold iteration, bind, ret. cbv zeta.
  destruct (i <? nWarmup)%nat; [reflexivity|]. destruct (i =? nWarmup)%nat; reflexivity.
Qed.

(** C7. With [maxTreeDepth = d >= 1], one outer iteration of [sample]
    performs at most [2^0 + ... + 2^(d-1) = 2^d - 1] leapfrog steps, hence at
    most [2^d]. *)
Theorem iteration_leapfrog_bound (uniformDraw normalDraw : nat → R) (model : Model)
    (variableNames : list string) (nWarmup thin i : nat) (c : Chain.vars) (w : World)
    (d : nat) :
  maxTreeDepth (Chain.this c) = Z.of_nat d →
  (1 ≤ d)%nat →
  let w' := (iteration uniformDraw normalDraw model variableNames nWarmup thin i c w).2 in
  (leapfrogSteps w' ≤ leapfrogSteps w + (2 ^ d - 1))%nat
  ∧ (leapfrogSteps w' ≤ leapfrogSteps w + 2 ^ d)%nat.
Proof.
  intros Hd Hpos w'. subst w'. rewrite iteration_world.
  pose proof (trajectory_leapfrogSteps uniformDraw normalDraw (Chain.this c) model
                variableNames (Chain.currentParams c) w) as Hb.
  rewrite Hd, Nat2Z.id in Hb.
  assert (1 ≤ 2 ^ d)%nat by (apply Nat.pow_lower_bound; lia).
  lia.
Qed.

Lemma iteration_leapfrog_bound_witness :
  (leapfrogSteps
     (iteration (always 0.5) (always 0) standardNormal ["x"%string] 1 1 0
        (initChain (NUTS_fields 0.1 3 0.8) ["x"%string] (x_is 0)) startWorld).2
   ≤ 8)%nat.
Proof.
  apply (proj2 (iteration_leapfrog_bound (always 0.5) (always 0) standardNormal
                  ["x"%string] 1 1 0
                  (initChain (NUTS_fields 0.1 3 0.8) ["x"%string] (x_is 0))
                  startWorld 3 eq_refl ltac:(lia))).
Defined.

(** ** The leapfrog integrator *)

Lemma get_negate (p : gmap string R) (name : string) : get (negate p) name = - get p name.
Proof.
  unfold get, negate. rewrite lookup_fmap. destruct (p !! name); simpl; lra.
Qed.

Lemma forNames_keys_same_dom (a b : gmap string R) :
  dom a = dom b → forNames (keys b) (get a) = a.
Proof.
  intros Hdom. rewrite <- (forNames_keys_get a) at 2.
  apply forNames_same_dom. intros name. by rewrite !keys_dom, Hdom.
Qed.

Lemma forNames_get_forNames (names : list string) (f : string → R) :
  forNames names (get (forNames names f)) = forNames names f.
Proof. apply forNames_ext. intros name Hin. by apply get_forNames. Qed.

(** The three updates of one leapfrog step, for a momentum over the names of
    the position. *)
Lemma leapfrog_eq (x p : gmap string R) (h : R) (model : Model) :
  dom p = dom x →
  leapfrog x p h model
  = let g1 := gradients (logProbAndGradient model x) in
    let pHalf := forNames (keys x) (λ name, get p name + h / 2 * get g1 name) in
    let qNew := forNames (keys x) (λ name, get x name + h * get pHalf name) in
    let g2 := gradients (logProbAndGradient model qNew) in
    {| Leapfrog.position := qNew;
       Leapfrog.momentum :=
         forNames (keys x) (λ name, get pHalf name + h / 2 * get g2 name) |}.
Proof.
  intros Hdom. unfold leapfrog. cbv zeta.
  rewrite forNames_keys_get, (forNames_keys_same_dom p x) by done.
  by rewrite !forNames_get_forNames.
Qed.

Lemma leapfrog_dom (x p : gmap string R) (h : R) (model : Model) :
  dom (Leapfrog.position (leapfrog x p h model)) = dom x
  ∧ dom (Leapfrog.momentum (leapfrog x p h model)) = dom x.
Proof. unfold leapfrog. cbn [Leapfrog.position Leapfrog.momentum]. by rewrite !dom_forNames_keys. Qed.

(** Stepping back with the opposite step size undoes a leapfrog step. *)
Lemma leapfrog_undo (x p : gmap string R) (h : R) (model : Model) :
  dom p = dom x →
  leapfrog (Leapfrog.position (leapfrog x p h model))
           (Leapfrog.momentum (leapfrog x p h model)) (- h) model
  = {| Leapfrog.position := x; Leapfrog.momentum := p |}.
Proof.
  intros Hdom.
  destruct (leapfrog_dom x p h model) as [Hdq Hdp].
  rewrite (leapfrog_eq (Leapfrog.position _)) by by rewrite Hdq, Hdp.
  assert (Hkeys : ∀ f, forNames (keys (Leapfrog.position (leapfrog x p h model))) f
                       = forNames (keys x) f).
  { intros f. apply forNames_same_dom. intros name. by rewrite !keys_dom, Hdq. }
  cbv zeta. rewrite !Hkeys. rewrite leapfrog_eq by done.
  cbv zeta. cbn [Leapfrog.position Leapfrog.momentum].
  set (g1 := gradients (logProbAndGradient model x)).
  set (pHalf := forNames (keys x) (λ name, get p name + h / 2 * get g1 name)).
  set (qNew := forNames (keys x) (λ name, get x name + h * get pHalf name)).
  set (g2 := gradients (logProbAndGradient model qNew)).
  set (pNew := forNames (keys x) (λ name, get pHalf name + h / 2 * get g2 name)).
  assert (HpHalf : forNames (keys x) (λ name, get pNew name + - h / 2 * get g2 name) = pHalf).
  { transitivity (forNames (keys x) (get pHalf)); [|apply forNames_get_forNames].
    apply forNames_ext. intros name Hin.
    unfold pNew. rewrite get_forNames by done. lra. }
  rewrite HpHalf.
  assert (Hq : forNames (keys x) (λ name, get qNew name + - h * get pHalf name) = x).
  { transitivity (forNames (keys x) (get x)); [|apply forNames_keys_get].
    apply forNames_ext. intros name Hin.
    unfold qNew. rewrite get_forNames by done. lra. }
  rewrite Hq. fold g1. f_equal.
  transitivity (forNames (keys x) (get p)); [|by apply forNames_keys_same_dom].
  apply forNames_ext. intros name Hin.
  unfold pHalf. rewrite get_forNames by done. lra.
Qed.

Lemma dom_negate (p : gmap string R) : dom (negate p) = dom p.
Proof. unfold negate. apply dom_fmap_L. Qed.

Lemma negate_forNames (names : list string) (f : string → R) :
  negate (forNames names f) = forNames names (λ name, - f name).
Proof.
  apply map_eq. intros name. unfold negate.
  rewrite lookup_fmap, !lookup_forNames. by case_decide.
Qed.

Lemma negate_negate (p : gmap string R) : negate (negate p) = p.
Proof.
  apply map_eq. intros name. unfold negate. rewrite !lookup_fmap.
  destruct (p !! name); simpl; [f_equal; lra | done].
Qed.

(** Changing the sign of both the momentum and the step size gives the same
    new position, with the new momentum's sign changed. *)
Lemma leapfrog_flip (x p : gmap string R) (h : R) (model : Model) :
  dom p = dom x →
  leapfrog x (negate p) (- h) model
  = {| Leapfrog.position := Leapfrog.position (leapfrog x p h model);
       Leapfrog.momentum := negate (Leapfrog.momentum (leapfrog x p h model)) |}.
Proof.
  intros Hdom. rewrite !leapfrog_eq by by rewrite ?dom_negate.
  cbv zeta. cbn [Leapfrog.position Leapfrog.momentum].
  set (g1 := gradients (logProbAndGradient model x)).
  set (pHalf := forNames (keys x) (λ name, get p name + h / 2 * get g1 name)).
  assert (HpHalf : forNames (keys x) (λ name, get (negate p) name + - h / 2 * get g1 name)
                   = negate pHalf).
  { unfold pHalf. rewrite negate_forNames. apply forNames_ext. intros name Hin.
    rewrite get_negate. lra. }
  rewrite HpHalf.
  assert (Hq : forNames (keys x) (λ name, get x name + - h * get (negate pHalf) name)
               = forNames (keys x) (λ name, get x name + h * get pHalf name)).
  { apply forNames_ext. intros name Hin. rewrite get_negate. lra. }
  rewrite Hq. f_equal. rewrite negate_forNames. apply forNames_ext. intros name Hin.
  rewrite get_negate. lra.
Qed.

(** C3, as stated, fails: on the standard normal, one step of size 1 from
    [x = 0] with momentum 1 leads to [(1, 0.5)]; the step of size -1 from
    [(1, -0.5)] stays at position 1 and does not return to 0. *)
Lemma leapfrog_negated_step_counterexample :
  Leapfrog.position
    (leapfrog (Leapfrog.position (leapfrog (x_is 0) (x_is 1) 1 standardNormal))
       (negate (Leapfrog.momentum (leapfrog (x_is 0) (x_is 1) 1 standardNormal)))
       (- (1)) standardNormal)
  ≠ x_is 0.
Proof.
  unfold x_is, negate. rewrite leapfrog_standardNormal.
  cbn [Leapfrog.position Leapfrog.momentum]. rewrite map_fmap_singleton.
  rewrite leapfrog_standardNormal. cbn [Leapfrog.position].
  intros Heq. apply (f_equal (λ o, get o "x")) in Heq.
  rewrite !get_singleton in Heq. lra.
Qed.

(** C3, amended. In exact arithmetic, for a momentum over the variables of
    the position, a leapfrog step of size [h] from [(x, p)] to [(x', p')]
    followed by a step of size [-h] from [(x', p')] returns [(x, p)];
    equivalently, a step of the same size [h] from [(x', negate(p'))] returns
    [(x, negate(p))]. *)
Theorem leapfrog_reversible (x p : gmap string R) (h : R) (model : Model) :
  dom p = dom x →
  (∀ q, dom (gradients (logProbAndGradient model q)) = dom q) →
  let new := leapfrog x p h model in
  leapfrog (Leapfrog.position new) (Leapfrog.momentum new) (- h) model
  = {| Leapfrog.position := x; Leapfrog.momentum := p |}
  ∧ leapfrog (Leapfrog.position new) (negate (Leapfrog.momentum new)) h model
    = {| Leapfrog.position := x; Leapfrog.momentum := negate p |}.
Proof.
  intros Hdom _ new. subst new. split; [by apply leapfrog_undo|].
  destruct (leapfrog_dom x p h model) as [Hdq Hdp].
  replace h with (- - h) at 3 by lra.
  rewrite leapfrog_flip by by rewrite Hdq, Hdp.
  by rewrite leapfrog_undo.
Qed.

Lemma leapfrog_reversible_witness :
  leapfrog (Leapfrog.position (leapfrog (x_is 0) (x_is 1) 1 standardNormal))
    (Leapfrog.momentum (leapfrog (x_is 0) (x_is 1) 1 standardNormal))
    (- (1)) standardNormal
  = {| Leapfrog.position := x_is 0; Leapfrog.momentum := x_is 1 |}.
Proof.
  apply (leapfrog_reversible (x_is 0) (x_is 1) 1 standardNormal).
  - unfold x_is. by rewrite !dom_singleton_L.
  - intros q. cbn [standardNormal logProbAndGradient gradients]. apply dom_forNames_keys.
Defined.

(** ** Selection of the candidate sample *)

Lemma buildTree_nValid_nonneg (uniformDraw : nat → R) (depth : nat) :
  ∀ (position momentum : gmap string R) (slice : R) (direction : Z) (stepSize : R)
    (model : Model) (H0 : R) (w : World),
    (0 <= nValid
            (buildTree uniformDraw position momentum slice direction depth stepSize
               model H0 w).1)%Z.
Proof.
  induction depth as [|depth IH]; intros position momentum slice direction stepSize model H0 w.
  - rewrite buildTree_leaf. cbn [fst nValid]. destruct (bool_decide _); lia.
  - rewrite buildTree_step. cbv zeta.
    pose proof (IH position momentum slice direction stepSize model H0 w) as H1.
    set (first := buildTree uniformDraw position momentum slice direction depth
                    stepSize model H0 w) in *.
    destruct (stop first.1); [exact H1|]. cbn [fst nValid].
    pose proof (IH (position2 direction first.1) (momentum2 direction first.1) slice
                  direction stepSize model H0 first.2) as H2.
    lia.
Qed.

(** A subtree that does not signal stop has all of its [2^depth] leaves valid. *)
Lemma buildTree_nonstop_full (uniformDraw : nat → R) (depth : nat) :
  ∀ (position momentum : gmap string R) (slice : R) (direction : Z) (stepSize : R)
    (model : Model) (H0 : R) (w : World),
    stop (buildTree uniformDraw position momentum slice direction depth stepSize
            model H0 w).1 = false →
    nValid (buildTree uniformDraw position momentum slice direction depth stepSize
              model H0 w).1 = (2 ^ Z.of_nat depth)%Z.
Proof.
  induction depth as [|depth IH]; intros position momentum slice direction stepSize model H0 w.
  - rewrite buildTree_leaf. cbn [fst nValid stop]. intros Hstop.
    apply orb_false_iff in Hstop as [Hvalid _]. apply negb_false_iff in Hvalid.
    by rewrite Hvalid.
  - rewrite buildTree_step. cbv zeta.
    pose proof (IH position momentum slice direction stepSize model H0 w) as H1.
    set (first := buildTree uniformDraw position momentum slice direction depth
                    stepSize model H0 w) in *.
    destruct (stop first.1) eqn:E1; [by rewrite E1|]. cbn [fst nValid stop].
    intros Hstop. apply orb_false_iff in Hstop as [Hstop _]. simpl in Hstop.
    rewrite H1 by done.
    rewrite (IH (position2 direction first.1) (momentum2 direction first.1) slice
               direction stepSize model H0 first.2) by exact Hstop.
    rewrite Nat2Z.inj_succ, Z.pow_succ_r by lia. lia.
Qed.

(** The ratio that decides the candidate of a combined tree is a probability. *)
Lemma acceptProb_bounds (n1 n2 : Z) :
  (0 <= n1)%Z → (0 <= n2)%Z → 0 <= IZR n2 / Rmax (IZR (n1 + n2)) 1 <= 1.
Proof.
  intros H1 H2.
  assert (Hmax : 1 <= Rmax (IZR (n1 + n2)) 1) by apply Rmax_r.
  assert (Hle : IZR n2 <= Rmax (IZR (n1 + n2)) 1).
  { eapply Rle_trans; [|apply Rmax_l]. apply IZR_le. lia. }
  assert (H0 : 0 <= IZR n2) by (apply IZR_le; lia).
  split.
  - apply Rmult_le_pos; [done|]. left. apply Rinv_0_lt_compat. lra.
  - apply Rmult_le_reg_r with (Rmax (IZR (n1 + n2)) 1); [lra|].
    unfold Rdiv. rewrite Rmult_assoc, Rinv_l by lra. lra.
Qed.

(** Every subtree that the doubling loop goes on from is full, and so is the
    trajectory accumulated so far: the ratio of the two counts, with which
    the new candidate is taken, is 1. *)
Lemma newSubtree_nonstop_full (uniformDraw : nat → R) (this : NUTS) (model : Model)
    (slice H0 : R) (l : Loop.vars) (w : World) :
  stop (newSubtree uniformDraw this model slice H0 l w).1.2 = false →
  nValid (newSubtree uniformDraw this model slice H0 l w).1.2
  = (2 ^ Z.of_nat (Loop.depth l))%Z.
Proof.
  unfold newSubtree, drawDirection, bind, ret, Math_random. cbv zeta. cbn [fst snd].
  destruct (bool_decide (uniformDraw (randomDraws w) < 0.5)); cbn [Z.eqb Pos.eqb];
    apply buildTree_nonstop_full.
Qed.

Lemma doublingStep_full (uniformDraw : nat → R) (this : NUTS) (model : Model)
    (slice H0 : R) (l : Loop.vars) (w : World) :
  Loop.nValid l = (2 ^ Z.of_nat (Loop.depth l))%Z →
  let l' := (doublingStep uniformDraw this model slice H0 l w).1 in
  Loop.stop l' = false →
  Loop.nValid l' = (2 ^ Z.of_nat (Loop.depth l'))%Z.
Proof.
  intros Hfull. cbv zeta. rewrite doublingStep_eq. cbv zeta.
  cbn [fst Loop.stop Loop.nValid Loop.depth]. intros Hstop.
  apply orb_false_iff in Hstop as [Hstop _].
  rewrite Hfull, newSubtree_nonstop_full by exact Hstop.
  rewrite Nat2Z.inj_succ, Z.pow_succ_r by lia. lia.
Qed.

Lemma doublingStep_ratio_one (uniformDraw : nat → R) (this : NUTS) (model : Model)
    (slice H0 : R) (l : Loop.vars) (w : World) :
  Loop.nValid l = (2 ^ Z.of_nat (Loop.depth l))%Z →
  let tree := (newSubtree uniformDraw this model slice H0 l w).1.2 in
  stop tree = false →
  IZR (nValid tree) / IZR (Loop.nValid l) = 1.
Proof.
  intros Hfull tree Hstop. subst tree.
  rewrite Hfull, newSubtree_nonstop_full by exact Hstop.
  apply Rdiv_diag. apply not_0_IZR.
  apply Z.pow_nonzero; lia.
Qed.

Lemma loopStart_full (currentParams momentum : gmap string R) :
  Loop.nValid (loopStart currentParams momentum)
  = (2 ^ Z.of_nat (Loop.depth (loopStart currentParams momentum)))%Z.
Proof. reflexivity. Qed.

(** C1. With a uniform draw [u] of [Math.random()], (1) a combined tree whose
    first half did not stop takes the candidate of its second half exactly
    when [u < nValid(second) / max(nValid(first) + nValid(second), 1)], a
    ratio between 0 and 1, and keeps the candidate of the first half
    otherwise; (2) a round of the doubling loop whose new subtree does not
    signal stop replaces the running candidate by the subtree's candidate
    exactly when [u < nValid(new subtree) / nValid(accumulated so far)], a
    ratio between 0 and 1 at every round the loop reaches (where the
    accumulated count is [2^depth]). *)
Theorem candidate_selection (uniformDraw : nat → R) :
  (∀ (position momentum : gmap string R) (slice : R) (direction : Z) (depth : nat)
     (stepSize : R) (model : Model) (H0 : R) (w : World),
     let first := buildTree uniformDraw position momentum slice direction depth
                    stepSize model H0 w in
     let second := buildTree uniformDraw (position2 direction first.1)
                     (momentum2 direction first.1) slice direction depth
                     stepSize model H0 first.2 in
     let whole := buildTree uniformDraw position momentum slice direction (S depth)
                    stepSize model H0 w in
     let u := uniformDraw (randomDraws second.2) in
     let acceptProb :=
       IZR (nValid second.1) / Rmax (IZR (nValid first.1 + nValid second.1)) 1 in
     stop first.1 = false →
     positionPrime whole.1
     = (if bool_decide (u < acceptProb) then positionPrime second.1
        else positionPrime first.1)
     ∧ 0 <= acceptProb <= 1)
  ∧ (∀ (this : NUTS) (model : Model) (slice H0 : R) (l : Loop.vars) (w : World),
       let built := newSubtree uniformDraw this model slice H0 l w in
       let tree := built.1.2 in
       let u := uniformDraw (randomDraws built.2) in
       let acceptProb := IZR (nValid tree) / IZR (Loop.nValid l) in
       stop tree = false →
       Loop.proposedParams (doublingStep uniformDraw this model slice H0 l w).1
       = (if bool_decide (u < acceptProb) then positionPrime tree
          else Loop.proposedParams l)
       ∧ (Loop.nValid l = (2 ^ Z.of_nat (Loop.depth l))%Z → 0 <= acceptProb <= 1)).
Proof.
  split.
  - intros position momentum slice direction depth stepSize model H0 w
           first second whole u acceptProb Hstop.
    split.
    + subst whole. rewrite buildTree_step. cbv zeta. fold first. rewrite Hstop.
      reflexivity.
    + apply acceptProb_bounds; apply buildTree_nValid_nonneg.
  - intros this model slice H0 l w built tree u acceptProb Hstop. split.
    + rewrite doublingStep_eq. cbv zeta. cbn [fst Loop.proposedParams].
      fold built. fold tree. rewrite Hstop. reflexivity.
    + intros Hfull. subst acceptProb tree built.
      rewrite doublingStep_ratio_one by done. lra.
Qed.

Lemma ex_first_continues (w : World) : stop (ex_first w).1 = false.
Proof.
  unfold ex_first. rewrite buildTree_leaf. cbn [fst stop]. rewrite leafEnergy_flat_rest.
  replace (0 - 0) with 0 by lra. rewrite exp_0.
  rewrite bool_decide_eq_true_2 by lra. rewrite bool_decide_eq_false_2 by lra. done.
Qed.

Lemma ex_built_continues : stop ex_built.1.2 = false.
Proof.
  unfold ex_built, newSubtree, drawDirection, bind, ret, Math_random. cbv zeta.
  cbn [fst snd]. rewrite bool_decide_eq_false_2 by (unfold always; lra).
  cbn [Z.eqb Pos.eqb ex_loop Loop.positionPlus Loop.momentumPlus Loop.depth
       NUTS_fields stepSize].
  apply ex_first_continues.
Qed.

Lemma candidate_selection_witness :
  0 <= IZR (nValid (buildTree (always 0.5) (position2 1 (ex_first startWorld).1)
                      (momentum2 1 (ex_first startWorld).1) 0.5 1 0 0.1 flat 0
                      (ex_first startWorld).2).1)
       / Rmax (IZR (nValid (ex_first startWorld).1
                    + nValid (buildTree (always 0.5) (position2 1 (ex_first startWorld).1)
                                (momentum2 1 (ex_first startWorld).1) 0.5 1 0 0.1 flat 0
                                (ex_first startWorld).2).1)) 1
    <= 1
  ∧ Loop.proposedParams
      (doublingStep (always 0.5) (NUTS_fields 0.1 3 0.8) flat 0.5 0 ex_loop startWorld).1
    = (if bool_decide (always 0.5 (randomDraws ex_built.2)
                       < IZR (nValid ex_built.1.2) / IZR (Loop.nValid ex_loop))
      then positionPrime ex_built.1.2
      else Loop.proposedParams ex_loop)
  ∧ 0 <= IZR (nValid ex_built.1.2) / IZR (Loop.nValid ex_loop) <= 1.
Proof.
  split; [|split].
  - apply (proj1 (candidate_selection (always 0.5)) (x_is 0) (x_is 0) 0.5 1%Z 0%nat 0.1
             flat 0 startWorld (ex_first_continues startWorld)).
  - apply (proj2 (candidate_selection (always 0.5)) (NUTS_fields 0.1 3 0.8) flat 0.5 0
             ex_loop startWorld ex_built_continues).
  - apply (proj2 (candidate_selection (always 0.5)) (NUTS_fields 0.1 3 0.8) flat 0.5 0
             ex_loop startWorld ex_built_continues). reflexivity.
Defined.

(** ** The chain of outer iterations *)

Lemma forLoop_snoc (uniformDraw normalDraw : nat → R) (model : Model)
    (variableNames : list string) (nWarmup thin : nat) (n : nat) :
  ∀ (i : nat) (c : Chain.vars) (w : World),
    forLoop uniformDraw normalDraw (S n) model variableNames nWarmup thin i c w
    = let before := forLoop uniformDraw normalDraw n model variableNames nWarmup thin i c w in
      iteration uniformDraw normalDraw model variableNames nWarmup thin (i + n)
        before.1 before.2.
Proof.
  induction n as [|n IH]; intros i c w.
  - cbn [forLoop]. unfold bind, ret. cbv zeta. cbn [fst snd]. rewrite Nat.add_0_r.
    by destruct (iteration _ _ _ _ _ _ _ _ _).
  - change (forLoop uniformDraw normalDraw (S (S n)) model variableNames nWarmup thin i c w)
      with (forLoop uniformDraw normalDraw (S n) model variableNames nWarmup thin (S i)
              (iteration uniformDraw normalDraw model variableNames nWarmup thin i c w).1
              (iteration uniformDraw normalDraw model variableNames nWarmup thin i c w).2).
    rewrite IH. cbv zeta. replace (S i + n)%nat with (i + S n)%nat by lia. reflexivity.
Qed.

Lemma chainAfter_S (uniformDraw normalDraw : nat → R) (this : NUTS) (model : Model)
    (initialValues : gmap string R) (nWarmup thin : nat) (k : nat) (w : World) :
  chainAfter uniformDraw normalDraw this model initialValues nWarmup thin (S k) w
  = let before := chainAfter uniformDraw normalDraw this model initialValues nWarmup thin k w in
    iteration uniformDraw normalDraw model (getFreeVariableNames model) nWarmup thin k
      before.1 before.2.
Proof. unfold chainAfter. by rewrite forLoop_snoc. Qed.

(** A warmup iteration. *)
Lemma iteration_warmup (uniformDraw normalDraw : nat → R) (model : Model)
    (variableNames : list string) (nWarmup thin i : nat) (c : Chain.vars) (w : World) :
  (i < nWarmup)%nat →
  let l := (trajectory uniformDraw normalDraw (Chain.this c) model variableNames
              (Chain.currentParams c) w).1 in
  let c' := (iteration uniformDraw normalDraw model variableNames nWarmup thin i c w).1 in
  let eta := 1 / (INR (i + 1) + t0 (Chain.this c)) in
  let logEta := Rpower (INR (i + 1)) (- kappa (Chain.this c)) in
  Chain.hBar c' = (1 - eta) * Chain.hBar c
                  + eta * (targetAcceptance (Chain.this c) - iterAcceptRate l)
  ∧ Chain.logStepSize c'
    = mu (Chain.this c) - sqrt (INR (i + 1)) / gamma (Chain.this c) * Chain.hBar c'
  ∧ Chain.logStepSizeBar c'
    = logEta * Chain.logStepSize c' + (1 - logEta) * Chain.logStepSizeBar c
  ∧ Chain.this c' = set_stepSize (Chain.this c) (exp (Chain.logStepSize c'))
  ∧ Chain.currentParams c' = Loop.proposedParams l.
Proof.
  intros Hi. apply Nat.ltb_lt in Hi. unfold iteration, bind, ret, iterAcceptRate.
  cbv zeta. rewrite Hi. cbn [fst Chain.hBar Chain.logStepSize Chain.logStepSizeBar
                              Chain.this Chain.currentParams].
  repeat split; reflexivity.
Qed.

(** The iteration with index [nWarmup]. *)
Lemma iteration_boundary (uniformDraw normalDraw : nat → R) (model : Model)
    (variableNames : list string) (nWarmup thin : nat) (c : Chain.vars) (w : World) :
  let l := (trajectory uniformDraw normalDraw (Chain.this c) model variableNames
              (Chain.currentParams c) w).1 in
  let c' := (iteration uniformDraw normalDraw model variableNames nWarmup thin nWarmup c w).1 in
  Chain.hBar c' = Chain.hBar c
  ∧ Chain.logStepSize c' = Chain.logStepSize c
  ∧ Chain.logStepSizeBar c' = Chain.logStepSizeBar c
  ∧ Chain.this c' = set_stepSize (Chain.this c) (exp (Chain.logStepSizeBar c))
  ∧ Chain.currentParams c' = Loop.proposedParams l.
Proof.
  unfold iteration, bind, ret. cbv zeta. rewrite Nat.ltb_irrefl, Nat.eqb_refl.
  repeat split; reflexivity.
Qed.

(** The iterations after it. *)
Lemma iteration_sampling (uniformDraw normalDraw : nat → R) (model : Model)
    (variableNames : list string) (nWarmup thin i : nat) (c : Chain.vars) (w : World) :
  (nWarmup < i)%nat →
  let l := (trajectory uniformDraw normalDraw (Chain.this c) model variableNames
              (Chain.currentParams c) w).1 in
  let c' := (iteration uniformDraw normalDraw model variableNames nWarmup thin i c w).1 in
  Chain.hBar c' = Chain.hBar c
  ∧ Chain.logStepSize c' = Chain.logStepSize c
  ∧ Chain.logStepSizeBar c' = Chain.logStepSizeBar c
  ∧ Chain.this c' = Chain.this c
  ∧ Chain.currentParams c' = Loop.proposedParams l.
Proof.
  intros Hi. unfold iteration, bind, ret. cbv zeta.
  assert (H1 : (i <? nWarmup)%nat = false) by (apply Nat.ltb_ge; lia).
  assert (H2 : (i =? nWarmup)%nat = false) by (apply Nat.eqb_neq; lia).
  rewrite H1, H2. repeat split; reflexivity.
Qed.

Lemma iteration_constants (uniformDraw normalDraw : nat → R) (model : Model)
    (variableNames : list string) (nWarmup thin i : nat) (c : Chain.vars) (w : World) :
  sameConstants
    (Chain.this (iteration uniformDraw normalDraw model variableNames nWarmup thin i c w).1)
    (Chain.this c).
Proof.
  unfold iteration, bind, ret, sameConstants. cbv zeta.
  destruct (i <? nWarmup)%nat; [|destruct (i =? nWarmup)%nat]; repeat split; reflexivity.
Qed.

Lemma chainAfter_constants (uniformDraw normalDraw : nat → R) (this : NUTS) (model : Model)
    (initialValues : gmap string R) (nWarmup thin : nat) (k : nat) (w : World) :
  sameConstants
    (Chain.this (chainAfter uniformDraw normalDraw this model initialValues nWarmup thin k w).1)
    this.
Proof.
  induction k as [|k IH]; [by repeat split|].
  rewrite chainAfter_S. cbv zeta.
  pose proof (iteration_constants uniformDraw normalDraw model (getFreeVariableNames model)
                nWarmup thin k
                (chainAfter uniformDraw normalDraw this model initialValues nWarmup thin k w).1
                (chainAfter uniformDraw normalDraw this model initialValues nWarmup thin k w).2)
    as Hk.
  unfold sameConstants in *. intuition congruence.
Qed.

(** [sample] runs the chain for [nWarmup + nSamples * thin] iterations and
    returns its trace, its step size and the sampler as the chain left it. *)
Lemma sample_chainAfter (uniformDraw normalDraw : nat → R) (this : NUTS) (model : Model)
    (initialValues : gmap string R) (nSamples nWarmup thin : nat) (w : World) :
  let run := sample uniformDraw normalDraw this model initialValues
               (Some nSamples) (Some nWarmup) (Some thin) w in
  let final := chainAfter uniformDraw normalDraw this model initialValues nWarmup thin
                 (nWarmup + nSamples * thin) w in
  run.1.2 = Chain.this final.1
  ∧ Result.stepSize run.1.1 = stepSize (Chain.this final.1)
  ∧ Result.trace run.1.1 = Chain.trace final.1
  ∧ run.2 = final.2.
Proof. repeat split; reflexivity. Qed.

(** ** Step-size adaptation *)

(** The dual-averaging update performed by warmup iteration [i]. *)
Lemma chainAfter_warmup (uniformDraw normalDraw : nat → R) (this : NUTS) (model : Model)
    (initialValues : gmap string R) (nWarmup thin : nat) (i : nat) (w : World) :
  (i < nWarmup)%nat →
  let before := (chainAfter uniformDraw normalDraw this model initialValues nWarmup thin i w).1 in
  let after :=
    (chainAfter uniformDraw normalDraw this model initialValues nWarmup thin (S i) w).1 in
  let l := (trajectoryOf uniformDraw normalDraw this model initialValues nWarmup thin i w).1 in
  let eta := 1 / (INR i + 1 + t0 this) in
  let weight := Rpower (INR i + 1) (- kappa this) in
  Chain.hBar after
  = (1 - eta) * Chain.hBar before + eta * (targetAcceptance this - iterAcceptRate l)
  ∧ Chain.logStepSize after = mu this - sqrt (INR i + 1) / gamma this * Chain.hBar after
  ∧ Chain.logStepSizeBar after
    = weight * Chain.logStepSize after + (1 - weight) * Chain.logStepSizeBar before
  ∧ stepSize (Chain.this after) = exp (Chain.logStepSize after).
Proof.
  intros Hi before after l eta weight.
  subst after. rewrite chainAfter_S. cbv zeta. fold before.
  destruct (iteration_warmup uniformDraw normalDraw model (getFreeVariableNames model)
              nWarmup thin i before
              (chainAfter uniformDraw normalDraw this model initialValues nWarmup thin i w).2
              Hi)
    as (HhBar & Hlog & Hbar & Hthis & _).
  destruct (chainAfter_constants uniformDraw normalDraw this model initialValues
              nWarmup thin i w) as (_ & Hdelta & Hmu & Hgamma & Ht0 & Hkappa).
  fold before in Hdelta, Hmu, Hgamma, Ht0, Hkappa.
  rewrite Hdelta, Hmu, Hgamma, Ht0, Hkappa in *.
  assert (HS : INR (i + 1) = INR i + 1) by (rewrite plus_INR; simpl; lra).
  rewrite HS in *.
  repeat split; [exact HhBar | exact Hlog | exact Hbar |].
  rewrite Hthis. reflexivity.
Qed.

(** C4. In warmup iteration [i < nWarmup] of [sample], with
    [iterAcceptRate = alpha / max(nAlpha, 1)] taken from the doubling loop of
    that iteration and [eta = 1 / (i + 1 + t0)]:
    [hBar <- (1 - eta) hBar + eta (targetAcceptance - iterAcceptRate)],
    [logStepSize <- mu - (sqrt(i + 1) / gamma) hBar],
    [logStepSizeBar <- (i + 1)^(-kappa) logStepSize
                       + (1 - (i + 1)^(-kappa)) logStepSizeBar],
    and the step size becomes [exp(logStepSize)]; a sampler constructed with
    step size [eps0] and the default target has [mu = log(10 eps0)],
    [gamma = 0.05], [t0 = 10], [kappa = 0.75], [targetAcceptance = 0.8]. *)
Theorem warmup_adaptation (uniformDraw normalDraw : nat → R) (this : NUTS) (model : Model)
    (initialValues : gmap string R) (nWarmup thin : nat) (i : nat) (w : World) :
  (i < nWarmup)%nat →
  let before := (chainAfter uniformDraw normalDraw this model initialValues nWarmup thin i w).1 in
  let after :=
    (chainAfter uniformDraw normalDraw this model initialValues nWarmup thin (S i) w).1 in
  let l := (trajectoryOf uniformDraw normalDraw this model initialValues nWarmup thin i w).1 in
  let rate := Loop.alpha l / Rmax (IZR (Loop.nAlpha l)) 1 in
  let eta := 1 / (INR i + 1 + t0 this) in
  let weight := Rpower (INR i + 1) (- kappa this) in
  (Chain.hBar after = (1 - eta) * Chain.hBar before + eta * (targetAcceptance this - rate)
   ∧ Chain.logStepSize after = mu this - sqrt (INR i + 1) / gamma this * Chain.hBar after
   ∧ Chain.logStepSizeBar after
     = weight * Chain.logStepSize after + (1 - weight) * Chain.logStepSizeBar before
   ∧ stepSize (Chain.this after) = exp (Chain.logStepSize after))
  ∧ (∀ eps0 : R, ∃ sampler,
       NUTS_constructor (Some eps0) None None = Normal sampler
       ∧ mu sampler = ln (10 * eps0) ∧ gamma sampler = 0.05 ∧ t0 sampler = 10
       ∧ kappa sampler = 0.75 ∧ targetAcceptance sampler = 0.8).
Proof.
  intros Hi before after l rate eta weight. split.
  - by apply chainAfter_warmup.
  - intros eps0. eexists. split; [reflexivity|]. repeat split; reflexivity.
Qed.

Lemma warmup_adaptation_witness :
  stepSize
    (Chain.this (chainAfter (always 0.5) (always 0) (NUTS_fields 0.1 3 0.8) flat (x_is 0)
                   1 1 1 startWorld).1)
  = exp (Chain.logStepSize
           (chainAfter (always 0.5) (always 0) (NUTS_fields 0.1 3 0.8) flat (x_is 0)
              1 1 1 startWorld).1).
Proof.
  apply (proj1 (warmup_adaptation (always 0.5) (always 0) (NUTS_fields 0.1 3 0.8) flat
                  (x_is 0) 1 1 0 startWorld ltac:(lia))).
Defined.

(** ** The end of warmup *)

(** After iteration [nWarmup] the adapter state no longer changes. *)
Lemma chainAfter_frozen (uniformDraw normalDraw : nat → R) (this : NUTS) (model : Model)
    (initialValues : gmap string R) (nWarmup thin : nat) (w : World) (k : nat) :
  let frozen :=
    (chainAfter uniformDraw normalDraw this model initialValues nWarmup thin (S nWarmup) w).1 in
  let later :=
    (chainAfter uniformDraw normalDraw this model initialValues nWarmup thin
       (S nWarmup + k) w).1 in
  Chain.this later = Chain.this frozen
  ∧ Chain.hBar later = Chain.hBar frozen
  ∧ Chain.logStepSize later = Chain.logStepSize frozen
  ∧ Chain.logStepSizeBar later = Chain.logStepSizeBar frozen.
Proof.
  cbv zeta. induction k as [|k IH].
  - rewrite Nat.add_0_r. done.
  - replace (S nWarmup + S k)%nat with (S (S nWarmup + k)) by lia.
    rewrite chainAfter_S. cbv zeta.
    destruct (iteration_sampling uniformDraw normalDraw model (getFreeVariableNames model)
                nWarmup thin (S nWarmup + k)
                (chainAfter uniformDraw normalDraw this model initialValues nWarmup thin
                   (S nWarmup + k) w).1
                (chainAfter uniformDraw normalDraw this model initialValues nWarmup thin
                   (S nWarmup + k) w).2 ltac:(lia))
      as (H1 & H2 & H3 & H4 & _).
    rewrite H1, H2, H3, H4. exact IH.
Qed.

(** The step size with which iteration [nWarmup] builds its trajectory is the
    one the last warmup iteration left, [exp(logStepSize)]; the average
    [exp(logStepSizeBar)] is installed only when that iteration ends. *)
Lemma chainAfter_boundary (uniformDraw normalDraw : nat → R) (this : NUTS) (model : Model)
    (initialValues : gmap string R) (nWarmup thin : nat) (w : World) :
  let before :=
    (chainAfter uniformDraw normalDraw this model initialValues (S nWarmup) thin
       (S nWarmup) w).1 in
  let after :=
    (chainAfter uniformDraw normalDraw this model initialValues (S nWarmup) thin
       (S (S nWarmup)) w).1 in
  stepSize (Chain.this before) = exp (Chain.logStepSize before)
  ∧ stepSize (Chain.this after) = exp (Chain.logStepSizeBar before).
Proof.
  cbv zeta. split.
  - rewrite chainAfter_S. cbv zeta.
    destruct (iteration_warmup uniformDraw normalDraw model (getFreeVariableNames model)
                (S nWarmup) thin nWarmup
                (chainAfter uniformDraw normalDraw this model initialValues (S nWarmup) thin
                   nWarmup w).1
                (chainAfter uniformDraw normalDraw this model initialValues (S nWarmup) thin
                   nWarmup w).2 ltac:(lia))
      as (_ & _ & _ & Hthis & _).
    rewrite Hthis. reflexivity.
  - rewrite (chainAfter_S _ _ _ _ _ _ _ (S nWarmup)). cbv zeta.
    destruct (iteration_boundary uniformDraw normalDraw model (getFreeVariableNames model)
                (S nWarmup) thin
                (chainAfter uniformDraw normalDraw this model initialValues (S nWarmup) thin
                   (S nWarmup) w).1
                (chainAfter uniformDraw normalDraw this model initialValues (S nWarmup) thin
                   (S nWarmup) w).2)
      as (_ & _ & _ & Hthis & _).
    rewrite Hthis. reflexivity.
Qed.

(** Without warmup, iteration 0 runs with the configured step size and then
    replaces it by [exp(0) = 1]. *)
Lemma chainAfter_no_warmup (uniformDraw normalDraw : nat → R) (this : NUTS) (model : Model)
    (initialValues : gmap string R) (thin : nat) (w : World) :
  stepSize (Chain.this
              (chainAfter uniformDraw normalDraw this model initialValues 0 thin 0 w).1)
  = stepSize this
  ∧ stepSize (Chain.this
                (chainAfter uniformDraw normalDraw this model initialValues 0 thin 1 w).1)
    = 1.
Proof.
  split; [reflexivity|].
  rewrite chainAfter_S. cbv zeta.
  destruct (iteration_boundary uniformDraw normalDraw model (getFreeVariableNames model)
              0 thin
              (chainAfter uniformDraw normalDraw this model initialValues 0 thin 0 w).1
              (chainAfter uniformDraw normalDraw this model initialValues 0 thin 0 w).2)
    as (_ & _ & _ & Hthis & _).
  rewrite Hthis. cbn. apply exp_0.
Qed.

(** ** A run on the flat potential *)

Lemma leafEnergy_flat (v z : R) (direction : Z) (eps : R) :
  leafEnergy (x_is v) (x_is z) direction eps flat = hamiltonian (x_is v) (x_is z) flat.
Proof.
  unfold leafEnergy, x_is. rewrite leapfrog_flat.
  cbn [Leapfrog.position Leapfrog.momentum]. rewrite !hamiltonian_flat.
  replace (z + IZR direction * eps / 2 * 0 + IZR direction * eps / 2 * 0) with z by lra.
  done.
Qed.

Lemma flat_leaf (uniformDraw : nat → R) (v z slice : R) (direction : Z) (eps : R)
    (w : World) :
  let leaf := (buildTree uniformDraw (x_is v) (x_is z) slice direction 0 eps flat
                 (hamiltonian (x_is v) (x_is z) flat) w).1 in
  alpha leaf = 1 ∧ nAlpha leaf = 1%Z ∧ ∃ v', positionPrime leaf = x_is v'.
Proof.
  cbv zeta. rewrite buildTree_leaf. cbv zeta. cbn [fst alpha nAlpha positionPrime].
  rewrite leafEnergy_flat. split; [|split; [done|]].
  - replace (hamiltonian (x_is v) (x_is z) flat - hamiltonian (x_is v) (x_is z) flat)
      with 0 by lra.
    rewrite exp_0. apply Rmin_left. lra.
  - unfold x_is. rewrite leapfrog_flat. cbn [Leapfrog.position]. eauto.
Qed.

Lemma trajectory_eq (uniformDraw normalDraw : nat → R) (this : NUTS) (model : Model)
    (variableNames : list string) (currentParams : gmap string R) (w : World) :
  trajectory uniformDraw normalDraw this model variableNames currentParams w
  = let drawn := drawMomentum normalDraw variableNames ∅ w in
    let H0 := hamiltonian currentParams drawn.1 model in
    let r := uniformDraw (randomDraws drawn.2) in
    doublingLoop uniformDraw (Z.to_nat (maxTreeDepth this)) this model (r * exp (- H0)) H0
      (loopStart currentParams drawn.1)
      {| randomDraws := S (randomDraws drawn.2);
         normalDraws := normalDraws drawn.2;
         leapfrogSteps := leapfrogSteps drawn.2;
         modelEvaluations := S (modelEvaluations drawn.2) |}.
Proof. reflexivity. Qed.

Lemma drawMomentum_x (normalDraw : nat → R) (w : World) :
  (drawMomentum normalDraw ["x"%string] ∅ w).1 = x_is (normalDraw (normalDraws w)).
Proof. reflexivity. Qed.

Lemma flat_doublingLoop (uniformDraw : nat → R) (this : NUTS) (v z slice : R) (w : World) :
  maxTreeDepth this = 1%Z →
  let l := (doublingLoop uniformDraw 1 this flat slice (hamiltonian (x_is v) (x_is z) flat)
              (loopStart (x_is v) (x_is z)) w).1 in
  iterAcceptRate l = 1 ∧ ∃ v', Loop.proposedParams l = x_is v'.
Proof.
  intros Hd. cbv zeta. cbn [doublingLoop loopStart Loop.stop Loop.depth negb andb].
  rewrite Hd. change (Z.of_nat 0 <? 1)%Z with true. cbv iota.
  unfold bind. cbv zeta.
  assert (Hlast : ∀ l' w', (if negb (Loop.stop l') && (Z.of_nat (Loop.depth l') <? 1)%Z
                            then ret l' else ret l') w' = (l', w')).
  { intros l' w'. by destruct (_ && _). }
  rewrite Hlast. cbn [fst]. rewrite doublingStep_eq. cbv zeta.
  cbn [fst iterAcceptRate Loop.alpha Loop.nAlpha Loop.proposedParams].
  unfold iterAcceptRate. cbn [Loop.alpha Loop.nAlpha Loop.proposedParams].
  unfold newSubtree, drawDirection, bind, ret, Math_random. cbv zeta. cbn [fst snd].
  unfold spread.
  destruct (bool_decide (uniformDraw (randomDraws w) < 0.5)); cbn [Z.eqb Pos.eqb].
  all: unfold loopStart, spread;
    cbn [Loop.positionMinus Loop.positionPlus Loop.momentumMinus Loop.momentumPlus
         Loop.depth Loop.alpha Loop.nAlpha Loop.proposedParams].
  all: match goal with
  | |- context [buildTree ?u ?p ?m ?s ?d 0 ?e flat ?h ?w'] =>
    destruct (flat_leaf u v z s d e w') as (Ha & Hn & v' & Hp)
  end.
  all: rewrite Ha, Hn, Hp; split;
    [ change (IZR (0 + 1)) with 1; rewrite Rmax_left by lra; lra
    | destruct (stop _); [by exists v|];
      destruct (bool_decide _); [by exists v' | by exists v] ].
Qed.

Lemma iteration_currentParams (uniformDraw normalDraw : nat → R) (model : Model)
    (variableNames : list string) (nWarmup thin i : nat) (c : Chain.vars) (w : World) :
  Chain.currentParams (iteration uniformDraw normalDraw model variableNames nWarmup thin i c w).1
  = Loop.proposedParams (trajectory uniformDraw normalDraw (Chain.this c) model variableNames
                           (Chain.currentParams c) w).1.
Proof.
  unfold iteration, bind, ret. cbv zeta.
  destruct (i <? nWarmup)%nat; [|destruct (i =? nWarmup)%nat]; reflexivity.
Qed.

(** The sample of iteration [nWarmup] is kept in the trace. *)
Lemma iteration_boundary_trace (uniformDraw normalDraw : nat → R) (model : Model)
    (variableNames : list string) (nWarmup thin : nat) (c : Chain.vars) (w : World) :
  (1 ≤ thin)%nat →
  let c' := (iteration uniformDraw normalDraw model variableNames nWarmup thin nWarmup c w).1 in
  Chain.trace c' = pushTrace variableNames (Chain.trace c) (Chain.currentParams c').
Proof.
  intros Hthin. unfold iteration, bind, ret. cbv zeta.
  rewrite Nat.ltb_irrefl, Nat.eqb_refl, Nat.leb_refl, Nat.sub_diag.
  assert (H1 : (0 <? thin)%nat = true) by (apply Nat.ltb_lt; lia).
  assert (H2 : (0 mod thin =? 0)%nat = true).
  { apply Nat.eqb_eq. apply Nat.Div0.mod_0_l. }
  rewrite H1, H2. reflexivity.
Qed.

Lemma trajectory_flat (uniformDraw normalDraw : nat → R) (this : NUTS) (v : R) (w : World) :
  maxTreeDepth this = 1%Z →
  let l := (trajectory uniformDraw normalDraw this flat ["x"%string] (x_is v) w).1 in
  iterAcceptRate l = 1 ∧ ∃ v', Loop.proposedParams l = x_is v'.
Proof.
  intros Hd. cbv zeta. rewrite trajectory_eq. cbv zeta. rewrite Hd.
  change (Z.to_nat 1) with 1%nat. rewrite drawMomentum_x.
  by apply flat_doublingLoop.
Qed.

(** On the flat potential over [x] the chain stays an object [{ x: v }]. *)
Lemma chainAfter_flat_params (uniformDraw normalDraw : nat → R) (this : NUTS) (v0 : R)
    (nWarmup thin : nat) (w : World) (k : nat) :
  maxTreeDepth this = 1%Z →
  ∃ v, Chain.currentParams
         (chainAfter uniformDraw normalDraw this flat (x_is v0) nWarmup thin k w).1
       = x_is v.
Proof.
  intros Hd. induction k as [|k [v Hv]]; [by exists v0|].
  rewrite chainAfter_S. cbv zeta. rewrite iteration_currentParams.
  change (getFreeVariableNames flat) with ["x"%string]. rewrite Hv.
  apply trajectory_flat.
  destruct (chainAfter_constants uniformDraw normalDraw this flat (x_is v0) nWarmup thin k w)
    as [Hmax _].
  by rewrite Hmax.
Qed.

Lemma trajectoryOf_flat (uniformDraw normalDraw : nat → R) (this : NUTS) (v0 : R)
    (nWarmup thin : nat) (w : World) (k : nat) :
  maxTreeDepth this = 1%Z →
  iterAcceptRate
    (trajectoryOf uniformDraw normalDraw this flat (x_is v0) nWarmup thin k w).1 = 1.
Proof.
  intros Hd. unfold trajectoryOf. cbv zeta.
  destruct (chainAfter_flat_params uniformDraw normalDraw this v0 nWarmup thin w k Hd)
    as [v Hv].
  rewrite Hv. change (getFreeVariableNames flat) with ["x"%string].
  apply trajectory_flat.
  destruct (chainAfter_constants uniformDraw normalDraw this flat (x_is v0) nWarmup thin k w)
    as [Hmax _].
  by rewrite Hmax.
Qed.

(** ** The iteration with index [nWarmup] *)

Lemma Rpower_one (y : R) : Rpower 1 y = 1.
Proof. unfold Rpower. by rewrite ln_1, Rmult_0_r, exp_0. Qed.

Lemma Rpower_two_neg : Rpower (1 + 1) (Ropp 0.75) < 1.
Proof.
  apply Rlt_le_trans with (Rpower (1 + 1) 0); [apply Rpower_lt; lra|].
  rewrite Rpower_O; lra.
Qed.

Lemma sqrt_two_gt_one : 1 < sqrt (1 + 1).
Proof. rewrite <- sqrt_1 at 1. apply sqrt_lt_1_alt. lra. Qed.

(** Two warmup iterations on the flat potential with [maxTreeDepth = 1]: the
    last adapted log step size and its running average differ. *)
Lemma flat_warmup_two (uniformDraw normalDraw : nat → R) (w : World) :
  let c := (chainAfter uniformDraw normalDraw (NUTS_fields 0.1 1 0.8) flat (x_is 0)
              2 1 2 w).1 in
  Chain.logStepSize c ≠ Chain.logStepSizeBar c.
Proof.
  cbv zeta.
  destruct (chainAfter_warmup uniformDraw normalDraw (NUTS_fields 0.1 1 0.8) flat (x_is 0)
              2 1 0 w ltac:(lia)) as (Hh1 & Hl1 & Hb1 & _).
  destruct (chainAfter_warmup uniformDraw normalDraw (NUTS_fields 0.1 1 0.8) flat (x_is 0)
              2 1 1 w ltac:(lia)) as (Hh2 & Hl2 & Hb2 & _).
  rewrite trajectoryOf_flat in Hh1, Hh2 by done.
  cbn [NUTS_fields t0 targetAcceptance mu gamma kappa] in *.
  change (Chain.hBar (chainAfter uniformDraw normalDraw (NUTS_fields 0.1 1 0.8) flat
                        (x_is 0) 2 1 0 w).1) with 0 in Hh1.
  change (Chain.logStepSizeBar (chainAfter uniformDraw normalDraw (NUTS_fields 0.1 1 0.8)
                                  flat (x_is 0) 2 1 0 w).1) with 0 in Hb1.
  change (INR 0) with 0 in *. change (INR 1) with 1 in *.
  replace (0 + 1) with 1 in * by lra.
  rewrite sqrt_1 in Hl1. rewrite Rpower_one in Hb1.
  pose proof Rpower_two_neg as HL. pose proof sqrt_two_gt_one as Hs.
  set (L := Rpower (1 + 1) (Ropp 0.75)) in *. set (s := sqrt (1 + 1)) in *.
  set (c1 := (chainAfter uniformDraw normalDraw (NUTS_fields 0.1 1 0.8) flat (x_is 0)
                2 1 1 w).1) in *.
  set (c2 := (chainAfter uniformDraw normalDraw (NUTS_fields 0.1 1 0.8) flat (x_is 0)
                2 1 2 w).1) in *.
  assert (Hd : Chain.logStepSize c2 - Chain.logStepSize c1 > 0).
  { rewrite Hl2, Hl1, Hh2, Hh1. lra. }
  assert (Hp : 0 < (1 - L) * (Chain.logStepSize c2 - Chain.logStepSize c1)).
  { apply Rmult_lt_0_compat; lra. }
  intros Heq. rewrite Hb2, Hb1 in Heq. lra.
Qed.

(** C5 does not hold of the code.  The step size [exp(logStepSizeBar)] is
    installed by the branch [else if (i === nWarmup)], at the end of the
    iteration with index [nWarmup]; that iteration, whose sample is kept, has
    built its trajectory before, with another step size.  For all random
    draws: (1) without warmup and with the default configuration, iteration 0
    runs with step size 0.01, its sample is pushed on the trace, and the step
    size then becomes [exp(0) = 1]; (2) after two warmup iterations on the
    flat potential with [maxTreeDepth = 1], iteration 2 runs with
    [exp(logStepSize)], which differs from the frozen [exp(logStepSizeBar)]. *)
Theorem boundary_iteration_not_frozen (uniformDraw normalDraw : nat → R) (model : Model)
    (initialValues : gmap string R) (w : World) :
  (let before := (chainAfter uniformDraw normalDraw (NUTS_fields 0.01 10 0.8) model
                    initialValues 0 1 0 w).1 in
   let after := (chainAfter uniformDraw normalDraw (NUTS_fields 0.01 10 0.8) model
                   initialValues 0 1 1 w).1 in
   stepSize (Chain.this before) = 0.01
   ∧ stepSize (Chain.this after) = exp (Chain.logStepSizeBar before)
   ∧ stepSize (Chain.this after) = 1
   ∧ Chain.trace after
     = pushTrace (getFreeVariableNames model) (Chain.trace before)
         (Loop.proposedParams
            (trajectory uniformDraw normalDraw (Chain.this before) model
               (getFreeVariableNames model) (Chain.currentParams before)
               (chainAfter uniformDraw normalDraw (NUTS_fields 0.01 10 0.8) model
                  initialValues 0 1 0 w).2).1))
  ∧ (let before := (chainAfter uniformDraw normalDraw (NUTS_fields 0.1 1 0.8) flat
                      (x_is 0) 2 1 2 w).1 in
     let after := (chainAfter uniformDraw normalDraw (NUTS_fields 0.1 1 0.8) flat
                     (x_is 0) 2 1 3 w).1 in
     stepSize (Chain.this before) = exp (Chain.logStepSize before)
     ∧ stepSize (Chain.this after) = exp (Chain.logStepSizeBar before)
     ∧ stepSize (Chain.this before) ≠ stepSize (Chain.this after)).
Proof.
  split; cbv zeta.
  - destruct (chainAfter_no_warmup uniformDraw normalDraw (NUTS_fields 0.01 10 0.8) model
                initialValues 1 w) as [H0 H1].
    split; [exact H0|]. split; [|split; [exact H1|]].
    + rewrite H1. symmetry. apply exp_0.
    + rewrite chainAfter_S. cbv zeta.
      rewrite iteration_boundary_trace by lia. by rewrite iteration_currentParams.
  - destruct (chainAfter_boundary uniformDraw normalDraw (NUTS_fields 0.1 1 0.8) flat
                (x_is 0) 1 1 w) as [Hb Ha].
    split; [exact Hb|]. split; [exact Ha|].
    rewrite Hb, Ha. intros Heq. apply exp_inv in Heq.
    by apply (flat_warmup_two uniformDraw normalDraw w).
Qed.

(** * Further properties of the samplers

    ** What a tree records *)

Lemma leaf_alpha_bounds (x : R) : 0 < Rmin 1 (exp x) <= 1.
Proof.
  pose proof (exp_pos x). split; [apply Rmin_glb_lt; lra | apply Rmin_l].
Qed.

Lemma buildTree_counts (uniformDraw : nat → R) (depth : nat) :
  ∀ (position momentum : gmap string R) (slice : R) (direction : Z) (stepSize : R)
    (model : Model) (H0 : R) (w : World),
    let built := buildTree uniformDraw position momentum slice direction depth stepSize
                   model H0 w in
    Z.of_nat (leapfrogSteps built.2) = (Z.of_nat (leapfrogSteps w) + nAlpha built.1)%Z
    ∧ Z.of_nat (modelEvaluations built.2)
      = (Z.of_nat (modelEvaluations w) + 3 * nAlpha built.1)%Z
    ∧ (1 <= nAlpha built.1 <= 2 ^ Z.of_nat depth)%Z
    ∧ (0 <= nValid built.1 <= nAlpha built.1)%Z
    ∧ 0 < alpha built.1 <= IZR (nAlpha built.1).
Proof.
  induction depth as [|depth IH];
    intros position momentum slice direction stepSize model H0 w; cbv zeta.
  - rewrite buildTree_leaf. cbv zeta.
    cbn [fst snd leapfrogSteps modelEvaluations nAlpha nValid alpha].
    repeat split; try lia; try apply leaf_alpha_bounds.
    + destruct (bool_decide _); lia.
    + destruct (bool_decide _); lia.
  - rewrite buildTree_step. cbv zeta.
    pose proof (IH position momentum slice direction stepSize model H0 w) as H1.
    cbv zeta in H1.
    set (first := buildTree uniformDraw position momentum slice direction depth
                    stepSize model H0 w) in *.
    assert (Hpow : (2 ^ Z.of_nat (S depth) = 2 * 2 ^ Z.of_nat depth)%Z).
    { rewrite Nat2Z.inj_succ, Z.pow_succ_r by lia. done. }
    assert (Hpos : (0 < 2 ^ Z.of_nat depth)%Z) by (apply Z.pow_pos_nonneg; lia).
    destruct (stop first.1).
    + destruct H1 as (? & ? & [? ?] & [? ?] & [? ?]). repeat split; try lia; lra.
    + pose proof (IH (position2 direction first.1) (momentum2 direction first.1) slice
                    direction stepSize model H0 first.2) as H2.
      cbv zeta in H2.
      set (second := buildTree uniformDraw (position2 direction first.1)
                       (momentum2 direction first.1) slice direction depth
                       stepSize model H0 first.2) in *.
      cbn [fst snd leapfrogSteps modelEvaluations nAlpha nValid alpha].
      destruct H1 as (L1 & M1 & N1 & V1 & A1). destruct H2 as (L2 & M2 & N2 & V2 & A2).
      rewrite plus_IZR.
      repeat split; try lia; lra.
Qed.


(** X2. A tree that does not signal stop is complete: the call performed
    exactly [2^depth] leapfrog steps, every leaf is valid
    ([nValid = nAlpha = 2^depth]), and [2^depth - 1] draws of [Math.random()]
    were used to select its candidate. *)
Theorem buildTree_complete (uniformDraw : nat → R) (depth : nat) :
  ∀ (position momentum : gmap string R) (slice : R) (direction : Z) (stepSize : R)
    (model : Model) (H0 : R) (w : World),
    let built := buildTree uniformDraw position momentum slice direction depth stepSize
                   model H0 w in
    stop built.1 = false →
    nAlpha built.1 = (2 ^ Z.of_nat depth)%Z
    ∧ nValid built.1 = (2 ^ Z.of_nat depth)%Z
    ∧ Z.of_nat (leapfrogSteps built.2)
      = (Z.of_nat (leapfrogSteps w) + 2 ^ Z.of_nat depth)%Z
    ∧ (Z.of_nat (randomDraws built.2) + 1
       = Z.of_nat (randomDraws w) + 2 ^ Z.of_nat depth)%Z.
Proof.
  induction depth as [|depth IH];
    intros position momentum slice direction stepSize model H0 w; cbv zeta.
  - rewrite buildTree_leaf. cbv zeta.
    cbn [fst snd leapfrogSteps randomDraws nAlpha nValid stop].
    intros Hstop. apply orb_false_iff in Hstop as [Hvalid _].
    apply negb_false_iff in Hvalid. rewrite Hvalid. repeat split; lia.
  - rewrite buildTree_step. cbv zeta.
    pose proof (IH position momentum slice direction stepSize model H0 w) as H1.
    cbv zeta in H1.
    set (first := buildTree uniformDraw position momentum slice direction depth
                    stepSize model H0 w) in *.
    destruct (stop first.1) eqn:E1; [by rewrite E1|].
    pose proof (IH (position2 direction first.1) (momentum2 direction first.1) slice
                  direction stepSize model H0 first.2) as H2.
    cbv zeta in H2.
    set (second := buildTree uniformDraw (position2 direction first.1)
                     (momentum2 direction first.1) slice direction depth
                     stepSize model H0 first.2) in *.
    cbn [fst snd leapfrogSteps randomDraws nAlpha nValid stop].
    intros Hstop. apply orb_false_iff in Hstop as [Hstop _]. simpl in Hstop.
    destruct (H1 eq_refl) as (N1 & V1 & L1 & R1).
    destruct (H2 Hstop) as (N2 & V2 & L2 & R2).
    rewrite Nat2Z.inj_succ, Z.pow_succ_r by lia. repeat split; lia.
Qed.

Lemma buildTree_complete_witness :
  nAlpha (ex_first startWorld).1 = 1%Z.
Proof.
  apply (buildTree_complete (always 0.5) 0 (x_is 0) (x_is 0) 0.5 1 0.1 flat 0 startWorld
           (ex_first_continues startWorld)).
Defined.

(** ** The variable names never change *)

Lemma buildTree_dom (uniformDraw : nat → R) (depth : nat) :
  ∀ (position momentum : gmap string R) (slice : R) (direction : Z) (stepSize : R)
    (model : Model) (H0 : R) (w : World),
    let tree := (buildTree uniformDraw position momentum slice direction depth stepSize
                   model H0 w).1 in
    dom (positionMinus tree) = dom position
    ∧ dom (positionPlus tree) = dom position
    ∧ dom (momentumMinus tree) = dom position
    ∧ dom (momentumPlus tree) = dom position
    ∧ dom (positionPrime tree) = dom position.
Proof.
  induction depth as [|depth IH];
    intros position momentum slice direction stepSize model H0 w; cbv zeta.
  - rewrite buildTree_leaf. cbv zeta.
    cbn [fst positionMinus positionPlus momentumMinus momentumPlus positionPrime].
    destruct (leapfrog_dom position momentum (IZR direction * stepSize) model) as [Hq Hp].
    by rewrite Hq, Hp.
  - rewrite buildTree_step. cbv zeta.
    pose proof (IH position momentum slice direction stepSize model H0 w) as H1.
    cbv zeta in H1.
    set (first := buildTree uniformDraw position momentum slice direction depth
                    stepSize model H0 w) in *.
    destruct (stop first.1); [exact H1|].
    pose proof (IH (position2 direction first.1) (momentum2 direction first.1) slice
                  direction stepSize model H0 first.2) as H2.
    cbv zeta in H2.
    set (second := buildTree uniformDraw (position2 direction first.1)
                     (momentum2 direction first.1) slice direction depth
                     stepSize model H0 first.2) in *.
    destruct H1 as (A1 & B1 & C1 & D1 & E1). destruct H2 as (A2 & B2 & C2 & D2 & E2).
    assert (Hstart : dom (position2 direction first.1) = dom position).
    { unfold position2. by destruct (direction =? 1)%Z. }
    rewrite Hstart in *.
    cbn [fst positionMinus positionPlus momentumMinus momentumPlus positionPrime].
    destruct (direction =? 1)%Z; destruct (bool_decide _); done.
Qed.

(** X3. Every object of a tree - both outer positions, both outer momenta and
    the candidate - carries exactly the variable names of the position the
    tree was built from. *)
Theorem buildTree_names (uniformDraw : nat → R) (depth : nat) :
  ∀ (position momentum : gmap string R) (slice : R) (direction : Z) (stepSize : R)
    (model : Model) (H0 : R) (w : World),
    let tree := (buildTree uniformDraw position momentum slice direction depth stepSize
                   model H0 w).1 in
    dom (positionMinus tree) = dom position
    ∧ dom (positionPlus tree) = dom position
    ∧ dom (momentumMinus tree) = dom position
    ∧ dom (momentumPlus tree) = dom position
    ∧ dom (positionPrime tree) = dom position.
Proof. apply buildTree_dom. Qed.

Lemma newSubtree_names (uniformDraw : nat → R) (this : NUTS) (model : Model)
    (slice H0 : R) (l : Loop.vars) (w : World) (D : gset string) :
  dom (Loop.positionMinus l) = D →
  dom (Loop.positionPlus l) = D →
  let tree := (newSubtree uniformDraw this model slice H0 l w).1.2 in
  dom (positionMinus tree) = D ∧ dom (positionPlus tree) = D
  ∧ dom (positionPrime tree) = D.
Proof.
  intros Hm Hp. cbv zeta.
  unfold newSubtree, drawDirection, bind, ret, Math_random. cbv zeta. cbn [fst snd].
  destruct (bool_decide (uniformDraw (randomDraws w) < 0.5)); cbn [Z.eqb Pos.eqb].
  all: match goal with
       | |- context [buildTree ?u ?p ?m ?s ?d ?n ?e ?mo ?h ?w'] =>
         destruct (buildTree_dom u n p m s d e mo h w') as (A & B & _ & _ & E)
       end.
  all: rewrite A, B, E; by rewrite ?Hm, ?Hp.
Qed.

Lemma doublingStep_names (uniformDraw : nat → R) (this : NUTS) (model : Model)
    (slice H0 : R) (l : Loop.vars) (w : World) (D : gset string) :
  dom (Loop.positionMinus l) = D →
  dom (Loop.positionPlus l) = D →
  dom (Loop.proposedParams l) = D →
  let l' := (doublingStep uniformDraw this model slice H0 l w).1 in
  dom (Loop.positionMinus l') = D ∧ dom (Loop.positionPlus l') = D
  ∧ dom (Loop.proposedParams l') = D.
Proof.
  intros Hm Hp Hc. cbv zeta. rewrite doublingStep_eq. cbv zeta.
  cbn [fst Loop.positionMinus Loop.positionPlus Loop.proposedParams].
  destruct (newSubtree_names uniformDraw this model slice H0 l w D Hm Hp) as (A & B & E).
  destruct (_ =? 1)%Z; destruct (stop _); try destruct (bool_decide _); done.
Qed.

Lemma doublingLoop_names (uniformDraw : nat → R) (this : NUTS) (model : Model)
    (slice H0 : R) (D : gset string) (fuel : nat) :
  ∀ (l : Loop.vars) (w : World),
    dom (Loop.positionMinus l) = D →
    dom (Loop.positionPlus l) = D →
    dom (Loop.proposedParams l) = D →
    dom (Loop.proposedParams (doublingLoop uniformDraw fuel this model slice H0 l w).1) = D.
Proof.
  induction fuel as [|fuel IH]; intros l w Hm Hp Hc; cbn [doublingLoop].
  - by destruct (_ && _).
  - destruct (_ && _); [|done]. unfold bind. cbv zeta.
    destruct (doublingStep_names uniformDraw this model slice H0 l w D Hm Hp Hc)
      as (A & B & E).
    by apply IH.
Qed.

Lemma trajectory_names (uniformDraw normalDraw : nat → R) (this : NUTS) (model : Model)
    (variableNames : list string) (currentParams : gmap string R) (w : World) :
  dom (Loop.proposedParams
         (trajectory uniformDraw normalDraw this model variableNames currentParams w).1)
  = dom currentParams.
Proof. rewrite trajectory_eq. cbv zeta. by apply doublingLoop_names. Qed.

(** X4. Throughout a run of [NUTS.sample] the current position carries exactly
    the variable names of [initialValues]. *)
Theorem chainAfter_names (uniformDraw normalDraw : nat → R) (this : NUTS) (model : Model)
    (initialValues : gmap string R) (nWarmup thin : nat) (k : nat) (w : World) :
  dom (Chain.currentParams
         (chainAfter uniformDraw normalDraw this model initialValues nWarmup thin k w).1)
  = dom initialValues.
Proof.
  induction k as [|k IH]; [done|].
  rewrite chainAfter_S. cbv zeta. rewrite iteration_currentParams.
  by rewrite trajectory_names.
Qed.

(** ** Acceptance statistics *)

Lemma newSubtree_counts (uniformDraw : nat → R) (this : NUTS) (model : Model)
    (slice H0 : R) (l : Loop.vars) (w : World) :
  let built := newSubtree uniformDraw this model slice H0 l w in
  Z.of_nat (leapfrogSteps built.2) = (Z.of_nat (leapfrogSteps w) + nAlpha built.1.2)%Z
  ∧ (1 <= nAlpha built.1.2)%Z
  ∧ 0 < alpha built.1.2 <= IZR (nAlpha built.1.2).
Proof.
  cbv zeta. unfold newSubtree, drawDirection, bind, ret, Math_random. cbv zeta.
  cbn [fst snd].
  destruct (bool_decide (uniformDraw (randomDraws w) < 0.5)); cbn [Z.eqb Pos.eqb].
  all: match goal with
       | |- context [buildTree ?u ?p ?m ?s ?d ?n ?e ?mo ?h ?w'] =>
         destruct (buildTree_counts u n p m s d e mo h w') as (L & _ & [N _] & _ & A)
       end.
  all: cbn [leapfrogSteps] in L; done.
Qed.

Lemma doublingStep_counts (uniformDraw : nat → R) (this : NUTS) (model : Model)
    (slice H0 : R) (l : Loop.vars) (w : World) :
  let stepped := doublingStep uniformDraw this model slice H0 l w in
  (Z.of_nat (leapfrogSteps stepped.2) - Loop.nAlpha stepped.1
   = Z.of_nat (leapfrogSteps w) - Loop.nAlpha l)%Z
  ∧ (Loop.nAlpha l < Loop.nAlpha stepped.1)%Z
  ∧ Loop.alpha l < Loop.alpha stepped.1
  ∧ IZR (Loop.nAlpha stepped.1) - Loop.alpha stepped.1
    >= IZR (Loop.nAlpha l) - Loop.alpha l.
Proof.
  cbv zeta. rewrite doublingStep_eq. cbv zeta.
  cbn [fst snd Loop.nAlpha Loop.alpha].
  destruct (newSubtree_counts uniformDraw this model slice H0 l w) as (L & N & A).
  cbv zeta in L, N, A. rewrite plus_IZR.
  split; [|split; [lia | split; lra]].
  destruct (stop _); cbn [leapfrogSteps]; lia.
Qed.

Lemma doublingLoop_counts (uniformDraw : nat → R) (this : NUTS) (model : Model)
    (slice H0 : R) (fuel : nat) :
  ∀ (l : Loop.vars) (w : World),
    let looped := doublingLoop uniformDraw fuel this model slice H0 l w in
    (Z.of_nat (leapfrogSteps looped.2) - Loop.nAlpha looped.1
     = Z.of_nat (leapfrogSteps w) - Loop.nAlpha l)%Z
    ∧ (Loop.nAlpha l <= Loop.nAlpha looped.1)%Z
    ∧ Loop.alpha l <= Loop.alpha looped.1
    ∧ IZR (Loop.nAlpha looped.1) - Loop.alpha looped.1
      >= IZR (Loop.nAlpha l) - Loop.alpha l.
Proof.
  induction fuel as [|fuel IH]; intros l w; cbv zeta; cbn [doublingLoop].
  - destruct (_ && _); cbn [ret fst snd]; repeat split; try lia; lra.
  - destruct (_ && _); [|cbn [ret fst snd]; repeat split; try lia; lra].
    unfold bind. cbv zeta.
    destruct (doublingStep_counts uniformDraw this model slice H0 l w) as (L & N & A & B).
    cbv zeta in L, N, A, B.
    destruct (IH (doublingStep uniformDraw this model slice H0 l w).1
                 (doublingStep uniformDraw this model slice H0 l w).2) as (L' & N' & A' & B').
    cbv zeta in L', N', A', B'.
    repeat split; try lia; lra.
Qed.

(** The statistics of one outer iteration. *)
Lemma trajectory_counts (uniformDraw normalDraw : nat → R) (this : NUTS) (model : Model)
    (variableNames : list string) (currentParams : gmap string R) (w : World) :
  let run := trajectory uniformDraw normalDraw this model variableNames currentParams w in
  Z.of_nat (leapfrogSteps run.2) = (Z.of_nat (leapfrogSteps w) + Loop.nAlpha run.1)%Z
  ∧ (0 <= Loop.nAlpha run.1)%Z
  ∧ 0 <= Loop.alpha run.1 <= IZR (Loop.nAlpha run.1).
Proof.
  cbv zeta. rewrite trajectory_eq. cbv zeta.
  match goal with
  | |- context [doublingLoop ?u ?f ?t ?mo ?s ?h ?l ?w'] =>
    destruct (doublingLoop_counts u t mo s h f l w') as (L & N & A & B);
    cbv zeta in L, N, A, B;
    set (looped := doublingLoop u f t mo s h l w') in *
  end.
  cbn [loopStart Loop.nAlpha Loop.alpha leapfrogSteps] in L, N, A, B.
  rewrite drawMomentum_leapfrogSteps in L.
  repeat split; try lia; lra.
Qed.

Lemma iterAcceptRate_bounds (l : Loop.vars) :
  (0 <= Loop.nAlpha l)%Z → 0 <= Loop.alpha l <= IZR (Loop.nAlpha l) →
  0 <= iterAcceptRate l <= 1.
Proof.
  intros Hn [Ha Hb]. unfold iterAcceptRate.
  assert (Hmax : 1 <= Rmax (IZR (Loop.nAlpha l)) 1) by apply Rmax_r.
  assert (Hle : Loop.alpha l <= Rmax (IZR (Loop.nAlpha l)) 1).
  { eapply Rle_trans; [exact Hb | apply Rmax_l]. }
  split.
  - apply Rmult_le_pos; [done|]. left. apply Rinv_0_lt_compat. lra.
  - apply Rmult_le_reg_r with (Rmax (IZR (Loop.nAlpha l)) 1); [lra|].
    unfold Rdiv. rewrite Rmult_assoc, Rinv_l by lra. lra.
Qed.

(** X5. In every outer iteration of [NUTS.sample] the accumulated [nAlpha] is
    the number of leapfrog steps of the iteration, [alpha] lies between 0
    and [nAlpha], and the acceptance statistic
    [alpha / Math.max(nAlpha, 1)] that drives the adaptation lies between 0
    and 1. *)
Theorem trajectory_statistics (uniformDraw normalDraw : nat → R) (this : NUTS)
    (model : Model) (variableNames : list string) (currentParams : gmap string R)
    (w : World) :
  let run := trajectory uniformDraw normalDraw this model variableNames currentParams w in
  Z.of_nat (leapfrogSteps run.2) = (Z.of_nat (leapfrogSteps w) + Loop.nAlpha run.1)%Z
  ∧ 0 <= Loop.alpha run.1 <= IZR (Loop.nAlpha run.1)
  ∧ 0 <= iterAcceptRate run.1 <= 1.
Proof.
  cbv zeta.
  destruct (trajectory_counts uniformDraw normalDraw this model variableNames
              currentParams w) as (L & N & A).
  split; [exact L|]. split; [exact A|]. by apply iterAcceptRate_bounds.
Qed.

(** ** The trace *)

Lemma keptBefore_S (burnIn thin k : nat) :
  (1 ≤ thin)%nat →
  keptBefore burnIn thin (S k)
  = (keptBefore burnIn thin k + if keptIteration burnIn thin k then 1 else 0)%nat.
Proof.
  intros Hthin. unfold keptBefore, keptIteration.
  destruct (Nat.leb_spec burnIn k) as [Hle|Hlt]; cbn [andb].
  - assert (Hpos : (0 <? thin)%nat = true) by (apply Nat.ltb_lt; lia).
    rewrite Hpos. cbn [andb].
    replace (S k - burnIn)%nat with (S (k - burnIn)) by lia.
    set (j := (k - burnIn)%nat).
    pose proof (Nat.div_mod_eq j thin) as Hj.
    pose proof (Nat.mod_upper_bound j thin ltac:(lia)) as Hr.
    set (q := (j / thin)%nat) in *. set (r := (j mod thin)%nat) in *.
    destruct (Nat.eqb_spec r 0) as [Hr0|Hr0].
    + assert (H1 : ((S j + (thin - 1)) / thin = q + 1)%nat).
      { symmetry. apply (Nat.div_unique _ _ _ 0); lia. }
      assert (H2 : ((j + (thin - 1)) / thin = q)%nat).
      { symmetry. apply (Nat.div_unique _ _ _ (thin - 1)); lia. }
      lia.
    + assert (H1 : ((S j + (thin - 1)) / thin = q + 1)%nat).
      { symmetry. apply (Nat.div_unique _ _ _ r); lia. }
      assert (H2 : ((j + (thin - 1)) / thin = q + 1)%nat).
      { symmetry. apply (Nat.div_unique _ _ _ (r - 1)); lia. }
      lia.
  - replace (S k - burnIn)%nat with 0%nat by lia.
    replace (k - burnIn)%nat with 0%nat by lia. lia.
Qed.

Lemma keptBefore_all (burnIn thin nSamples : nat) :
  (1 ≤ thin)%nat → keptBefore burnIn thin (burnIn + nSamples * thin) = nSamples.
Proof.
  intros Hthin. unfold keptBefore.
  replace (burnIn + nSamples * thin - burnIn)%nat with (nSamples * thin)%nat by lia.
  symmetry. apply (Nat.div_unique _ _ _ (thin - 1)); lia.
Qed.

Lemma keptBefore_burnIn (burnIn thin k : nat) :
  (1 ≤ thin)%nat → (k ≤ burnIn)%nat → keptBefore burnIn thin k = 0%nat.
Proof.
  intros Hthin Hk. unfold keptBefore. replace (k - burnIn)%nat with 0%nat by lia.
  apply Nat.div_small. lia.
Qed.

Lemma lookup_initTrace (variableNames : list string) (name : string) :
  initTrace variableNames !! name
  = if decide (name ∈ variableNames) then Some [] else None.
Proof.
  unfold initTrace.
  assert (H : ∀ tr : gmap string (list R),
             fold_left (λ trace name, <[name := []]> trace) variableNames tr !! name
             = if decide (name ∈ variableNames) then Some [] else tr !! name).
  { induction variableNames as [|n names IH]; intros tr; cbn [fold_left].
    - case_decide as Hin; [by apply elem_of_nil in Hin | done].
    - rewrite IH. destruct (decide (name ∈ names)) as [Hin|Hnin].
      + rewrite decide_True; [done | by right].
      + destruct (decide (n = name)) as [->|Hne].
        * rewrite lookup_insert_eq. rewrite decide_True; [done | by left].
        * rewrite lookup_insert_ne by done.
          rewrite decide_False; [done|]. rewrite elem_of_cons.
          intros [Heq|Hin]; [by subst | done]. }
  by rewrite H, lookup_empty.
Qed.

Lemma lookup_pushTrace (variableNames : list string) (currentParams : gmap string R)
    (name : string) :
  NoDup variableNames →
  ∀ trace : gmap string (list R),
    pushTrace variableNames trace currentParams !! name
    = if decide (name ∈ variableNames)
      then Some ((trace !!! name) ++ [get currentParams name])
      else trace !! name.
Proof.
  unfold pushTrace. induction 1 as [|n names Hn Hnames IH]; intros trace; cbn [fold_left].
  - case_decide as Hin; [by apply elem_of_nil in Hin | done].
  - rewrite IH. destruct (decide (n = name)) as [->|Hne].
    + rewrite decide_False by done. rewrite lookup_insert_eq.
      rewrite decide_True; [done | by left].
    + destruct (decide (name ∈ names)) as [Hin|Hnin].
      * rewrite decide_True by (by right). by rewrite lookup_total_insert_ne.
      * rewrite lookup_insert_ne by done.
        rewrite decide_False; [done|]. rewrite elem_of_cons.
        intros [Heq|Hin]; [by subst | done].
Qed.

Lemma initTrace_shape (variableNames : list string) :
  traceShape variableNames 0%nat (initTrace variableNames).
Proof.
  intros name. rewrite lookup_initTrace. split; intros Hin.
  - rewrite decide_True by done. by exists [].
  - by rewrite decide_False.
Qed.

Lemma pushTrace_shape (variableNames : list string) (size : nat)
    (trace : gmap string (list R)) (currentParams : gmap string R) :
  NoDup variableNames →
  traceShape variableNames size trace →
  traceShape variableNames (S size) (pushTrace variableNames trace currentParams).
Proof.
  intros Hnd Hshape name. rewrite lookup_pushTrace by done.
  destruct (Hshape name) as [Hin Hout]. split; intros Hname.
  - rewrite decide_True by done. destruct (Hin Hname) as (samples & Hlook & Hlen).
    eexists. split; [done|].
    rewrite (lookup_total_correct _ _ _ Hlook), length_app. simpl. lia.
  - rewrite decide_False by done. by apply Hout.
Qed.

(** One iteration of any of the samplers keeps the shape of the trace. *)
Lemma storeTrace_shape (variableNames : list string) (burnIn thin k : nat)
    (trace : gmap string (list R)) (currentParams : gmap string R) :
  NoDup variableNames →
  traceShape variableNames (keptBefore burnIn thin k) trace →
  traceShape variableNames (keptBefore burnIn thin (S k))
    (if keptIteration burnIn thin k
     then pushTrace variableNames trace currentParams else trace).
Proof.
  intros Hnd Hshape.
  destruct (Nat.eq_dec thin 0%nat) as [->|Hthin].
  - assert (Hk : keptIteration burnIn 0%nat k = false).
    { unfold keptIteration. by rewrite andb_false_r. }
    rewrite Hk. unfold keptBefore in *. by rewrite Nat.div_0_r in *.
  - rewrite keptBefore_S by lia. destruct (keptIteration burnIn thin k).
    + rewrite Nat.add_1_r. by apply pushTrace_shape.
    + by rewrite Nat.add_0_r.
Qed.

Lemma keptBefore_total (burnIn thin nSamples : nat) :
  keptBefore burnIn thin (burnIn + nSamples * thin)
  = if (thin =? 0)%nat then 0%nat else nSamples.
Proof.
  destruct (Nat.eqb_spec thin 0%nat) as [->|Hthin].
  - unfold keptBefore. by rewrite Nat.div_0_r.
  - apply keptBefore_all. lia.
Qed.

Lemma iteration_trace (uniformDraw normalDraw : nat → R) (model : Model)
    (variableNames : list string) (nWarmup thin i : nat) (c : Chain.vars) (w : World) :
  let c' := (iteration uniformDraw normalDraw model variableNames nWarmup thin i c w).1 in
  Chain.trace c'
  = if keptIteration nWarmup thin i
    then pushTrace variableNames (Chain.trace c) (Chain.currentParams c')
    else Chain.trace c.
Proof.
  unfold iteration, keptIteration, bind, ret. cbv zeta.
  destruct (i <? nWarmup)%nat; [|destruct (i =? nWarmup)%nat]; reflexivity.
Qed.

Lemma chainAfter_trace (uniformDraw normalDraw : nat → R) (this : NUTS) (model : Model)
    (initialValues : gmap string R) (nWarmup thin : nat) (w : World) (k : nat) :
  NoDup (getFreeVariableNames model) →
  traceShape (getFreeVariableNames model) (keptBefore nWarmup thin k)
    (Chain.trace
       (chainAfter uniformDraw normalDraw this model initialValues nWarmup thin k w).1).
Proof.
  intros Hnd. induction k as [|k IH].
  - assert (H0 : keptBefore nWarmup thin 0%nat = 0%nat).
    { unfold keptBefore. cbn [Nat.sub Nat.add].
      destruct thin as [|t]; [done|]. apply Nat.div_small. lia. }
    rewrite H0. apply initTrace_shape.
  - rewrite chainAfter_S. cbv zeta. rewrite iteration_trace. by apply storeTrace_shape.
Qed.

(** X6. [NUTS.sample] returns a trace with one sequence per free variable of
    the model and nothing else, each of exactly [nSamples] values (no value
    at all when [thin = 0]); the samples of the warmup iterations are not
    kept. *)
Theorem sample_trace_shape (uniformDraw normalDraw : nat → R) (this : NUTS) (model : Model)
    (initialValues : gmap string R) (nSamples nWarmup thin : nat) (w : World) :
  NoDup (getFreeVariableNames model) →
  traceShape (getFreeVariableNames model) (if (thin =? 0)%nat then 0%nat else nSamples)
    (Result.trace
       (sample uniformDraw normalDraw this model initialValues
          (Some nSamples) (Some nWarmup) (Some thin) w).1.1)
  ∧ ∀ k, (k ≤ nWarmup)%nat →
         traceShape (getFreeVariableNames model) 0%nat
           (Chain.trace
              (chainAfter uniformDraw normalDraw this model initialValues nWarmup thin
                 k w).1).
Proof.
  intros Hnd. split.
  - rewrite <- (keptBefore_total nWarmup thin nSamples).
    by apply (chainAfter_trace uniformDraw normalDraw this model initialValues nWarmup
                thin w (nWarmup + nSamples * thin)).
  - intros k Hk.
    pose proof (chainAfter_trace uniformDraw normalDraw this model initialValues nWarmup
                  thin w k Hnd) as Hshape.
    assert (H0 : keptBefore nWarmup thin k = 0%nat).
    { unfold keptBefore. replace (k - nWarmup)%nat with 0%nat by lia.
      destruct thin as [|t]; [done|]. apply Nat.div_small. lia. }
    by rewrite H0 in Hshape.
Qed.

Lemma sample_trace_shape_witness :
  traceShape ["x"%string] 10%nat
    (Result.trace
       (sample (always 0.5) (always 0) (NUTS_fields 0.1 5 0.8) standardNormal (x_is 0)
          (Some 10%nat) (Some 5%nat) (Some 1%nat) startWorld).1.1).
Proof.
  apply (sample_trace_shape (always 0.5) (always 0) (NUTS_fields 0.1 5 0.8) standardNormal
           (x_is 0) 10%nat 5%nat 1%nat startWorld).
  apply NoDup_singleton.
Defined.

(** ** The diagnostics returned by [NUTS.sample] *)

Lemma iteration_accepted (uniformDraw normalDraw : nat → R) (model : Model)
    (variableNames : list string) (nWarmup thin i : nat) (c : Chain.vars) (w : World) :
  let c' := (iteration uniformDraw normalDraw model variableNames nWarmup thin i c w).1 in
  Chain.accepted_total c' = S (Chain.accepted_total c)
  ∧ Chain.accepted_count c'
    = (if bool_decide
            (iterAcceptRate
               (trajectory uniformDraw normalDraw (Chain.this c) model variableNames
                  (Chain.currentParams c) w).1 > 0.5)
       then S (Chain.accepted_count c) else Chain.accepted_count c).
Proof.
  unfold iteration, iterAcceptRate, bind, ret. cbv zeta.
  destruct (i <? nWarmup)%nat; [|destruct (i =? nWarmup)%nat]; split; reflexivity.
Qed.

Lemma chainAfter_accepted (uniformDraw normalDraw : nat → R) (this : NUTS) (model : Model)
    (initialValues : gmap string R) (nWarmup thin : nat) (w : World) (k : nat) :
  let c := (chainAfter uniformDraw normalDraw this model initialValues nWarmup thin k w).1 in
  Chain.accepted_total c = k ∧ (Chain.accepted_count c ≤ k)%nat.
Proof.
  cbv zeta. induction k as [|k [IHt IHc]]; [done|].
  rewrite chainAfter_S. cbv zeta.
  destruct (iteration_accepted uniformDraw normalDraw model (getFreeVariableNames model)
              nWarmup thin k
              (chainAfter uniformDraw normalDraw this model initialValues nWarmup thin k w).1
              (chainAfter uniformDraw normalDraw this model initialValues nWarmup thin k w).2)
    as [Ht Hc].
  cbv zeta in Ht, Hc. rewrite Ht, Hc, IHt. split; [done|].
  destruct (bool_decide _); lia.
Qed.

Lemma rate_bounds (count total : nat) :
  (count ≤ total)%nat → (1 ≤ total)%nat → 0 <= INR count / INR total <= 1.
Proof.
  intros Hle Hpos.
  assert (Ht : 0 < INR total) by (apply lt_0_INR; lia).
  assert (Hc : 0 <= INR count) by apply pos_INR.
  assert (Hct : INR count <= INR total) by (by apply le_INR).
  split.
  - apply Rmult_le_pos; [done|]. left. by apply Rinv_0_lt_compat.
  - apply Rmult_le_reg_r with (INR total); [done|].
    unfold Rdiv. rewrite Rmult_assoc, Rinv_l by lra. lra.
Qed.

(** X7. When [NUTS.sample] runs at least one iteration, the acceptance rate
    it returns lies between 0 and 1: it is the share of the
    [nWarmup + nSamples * thin] iterations whose acceptance statistic
    exceeded 0.5. *)
Theorem sample_acceptanceRate (uniformDraw normalDraw : nat → R) (this : NUTS)
    (model : Model) (initialValues : gmap string R) (nSamples nWarmup thin : nat)
    (w : World) :
  (1 ≤ nWarmup + nSamples * thin)%nat →
  let run := sample uniformDraw normalDraw this model initialValues
               (Some nSamples) (Some nWarmup) (Some thin) w in
  let final := chainAfter uniformDraw normalDraw this model initialValues nWarmup thin
                 (nWarmup + nSamples * thin) w in
  Result.acceptanceRate run.1.1
  = INR (Chain.accepted_count final.1) / INR (nWarmup + nSamples * thin)
  ∧ 0 <= Result.acceptanceRate run.1.1 <= 1.
Proof.
  intros Hpos run final.
  destruct (chainAfter_accepted uniformDraw normalDraw this model initialValues nWarmup
              thin w (nWarmup + nSamples * thin)) as [Ht Hc].
  cbv zeta in Ht, Hc. fold final in Ht, Hc.
  assert (Heq : Result.acceptanceRate run.1.1
                = INR (Chain.accepted_count final.1) / INR (Chain.accepted_total final.1))
    by reflexivity.
  rewrite Heq, Ht. split; [done|]. by apply rate_bounds.
Qed.

Lemma sample_acceptanceRate_witness :
  0 <= Result.acceptanceRate
         (sample (always 0.5) (always 0) (NUTS_fields 0.1 5 0.8) standardNormal (x_is 0)
            (Some 10%nat) (Some 5%nat) (Some 1%nat) startWorld).1.1 <= 1.
Proof.
  apply (sample_acceptanceRate (always 0.5) (always 0) (NUTS_fields 0.1 5 0.8)
           standardNormal (x_is 0) 10%nat 5%nat 1%nat startWorld).
  simpl. lia.
Defined.

Lemma iteration_stepSize_positive (uniformDraw normalDraw : nat → R) (model : Model)
    (variableNames : list string) (nWarmup thin i : nat) (c : Chain.vars) (w : World) :
  (i ≤ nWarmup)%nat ∨ 0 < stepSize (Chain.this c) →
  0 < stepSize
        (Chain.this (iteration uniformDraw normalDraw model variableNames nWarmup thin i
                       c w).1).
Proof.
  intros Hcase.
  destruct (Nat.lt_trichotomy i nWarmup) as [Hlt|[->|Hgt]].
  - destruct (iteration_warmup uniformDraw normalDraw model variableNames nWarmup thin i
                c w Hlt) as (_ & _ & _ & Hthis & _).
    rewrite Hthis. apply exp_pos.
  - destruct (iteration_boundary uniformDraw normalDraw model variableNames nWarmup thin
                c w) as (_ & _ & _ & Hthis & _).
    rewrite Hthis. apply exp_pos.
  - destruct (iteration_sampling uniformDraw normalDraw model variableNames nWarmup thin i
                c w Hgt) as (_ & _ & _ & Hthis & _).
    rewrite Hthis. destruct Hcase as [Hle|Hpos]; [lia | done].
Qed.

Lemma chainAfter_stepSize_positive (uniformDraw normalDraw : nat → R) (this : NUTS)
    (model : Model) (initialValues : gmap string R) (nWarmup thin : nat) (w : World)
    (k : nat) :
  0 < stepSize
        (Chain.this
           (chainAfter uniformDraw normalDraw this model initialValues nWarmup thin (S k)
              w).1).
Proof.
  induction k as [|k IH].
  - rewrite chainAfter_S. cbv zeta. apply iteration_stepSize_positive. left. lia.
  - rewrite chainAfter_S. cbv zeta. apply iteration_stepSize_positive. by right.
Qed.

Lemma chainAfter_averaged (uniformDraw normalDraw : nat → R) (this : NUTS)
    (model : Model) (initialValues : gmap string R) (nWarmup thin : nat) (w : World)
    (k : nat) :
  let c := (chainAfter uniformDraw normalDraw this model initialValues nWarmup thin
              (S nWarmup + k) w).1 in
  stepSize (Chain.this c) = exp (Chain.logStepSizeBar c).
Proof.
  cbv zeta.
  destruct (chainAfter_frozen uniformDraw normalDraw this model initialValues nWarmup thin
              w k) as (Hthis & _ & _ & Hbar).
  cbv zeta in Hthis, Hbar. rewrite Hthis, Hbar.
  rewrite chainAfter_S. cbv zeta.
  destruct (iteration_boundary uniformDraw normalDraw model (getFreeVariableNames model)
              nWarmup thin
              (chainAfter uniformDraw normalDraw this model initialValues nWarmup thin
                 nWarmup w).1
              (chainAfter uniformDraw normalDraw this model initialValues nWarmup thin
                 nWarmup w).2) as (_ & _ & Hb & Ht & _).
  rewrite Ht, Hb. reflexivity.
Qed.

(** X8. For a sampler constructed with a positive step size, the step size
    that [NUTS.sample] returns, which is also the one left in the sampler
    object, is positive; when at least one sample is drawn after warmup
    ([nSamples * thin >= 1]) it is [exp] of the running average
    [logStepSizeBar] of the warmup. *)
Theorem sample_stepSize (uniformDraw normalDraw : nat → R) (eps : R) (d : Z) (delta : R)
    (model : Model) (initialValues : gmap string R) (nSamples nWarmup thin : nat)
    (w : World) :
  0 < eps →
  let run := sample uniformDraw normalDraw (NUTS_fields eps d delta) model initialValues
               (Some nSamples) (Some nWarmup) (Some thin) w in
  let final := chainAfter uniformDraw normalDraw (NUTS_fields eps d delta) model
                 initialValues nWarmup thin (nWarmup + nSamples * thin) w in
  0 < Result.stepSize run.1.1
  ∧ stepSize run.1.2 = Result.stepSize run.1.1
  ∧ ((1 ≤ nSamples * thin)%nat →
     Result.stepSize run.1.1 = exp (Chain.logStepSizeBar final.1)).
Proof.
  intros Hpos run final.
  assert (Heq : Result.stepSize run.1.1 = stepSize (Chain.this final.1)) by reflexivity.
  assert (Hthis : run.1.2 = Chain.this final.1) by reflexivity.
  rewrite Heq, Hthis. split; [|split; [done|]].
  - subst final. destruct (nWarmup + nSamples * thin)%nat as [|k] eqn:E; [exact Hpos|].
    apply chainAfter_stepSize_positive.
  - intros Hs. subst final.
    replace (nWarmup + nSamples * thin)%nat
      with (S nWarmup + (nSamples * thin - 1))%nat by lia.
    apply chainAfter_averaged.
Qed.

Lemma sample_stepSize_witness :
  0 < Result.stepSize
        (sample (always 0.5) (always 0) (NUTS_fields 0.1 5 0.8) standardNormal (x_is 0)
           (Some 10%nat) (Some 5%nat) (Some 1%nat) startWorld).1.1.
Proof.
  apply (sample_stepSize (always 0.5) (always 0) 0.1 5 0.8
           standardNormal (x_is 0) 10%nat 5%nat 1%nat startWorld).
  lra.
Defined.

(** ** The doubling loop at its bounds *)

Lemma doublingLoop_no_depth (uniformDraw : nat → R) (this : NUTS) (model : Model)
    (slice H0 : R) (fuel : nat) (l : Loop.vars) (w : World) :
  (maxTreeDepth this <= Z.of_nat (Loop.depth l))%Z →
  doublingLoop uniformDraw fuel this model slice H0 l w = (l, w).
Proof.
  intros Hd.
  assert (Hguard : negb (Loop.stop l) && (Z.of_nat (Loop.depth l) <? maxTreeDepth this)%Z
                   = false).
  { apply andb_false_iff. right. apply Z.ltb_ge. lia. }
  destruct fuel; cbn [doublingLoop]; by rewrite Hguard.
Qed.

Lemma trajectory_no_depth (uniformDraw normalDraw : nat → R) (this : NUTS) (model : Model)
    (variableNames : list string) (currentParams : gmap string R) (w : World) :
  (maxTreeDepth this <= 0)%Z →
  let run := trajectory uniformDraw normalDraw this model variableNames currentParams w in
  Loop.proposedParams run.1 = currentParams
  ∧ iterAcceptRate run.1 = 0
  ∧ leapfrogSteps run.2 = leapfrogSteps w.
Proof.
  intros Hd. cbv zeta. rewrite trajectory_eq. cbv zeta.
  rewrite doublingLoop_no_depth by (cbn [loopStart Loop.depth]; lia).
  cbn [fst snd loopStart Loop.proposedParams iterAcceptRate leapfrogSteps].
  unfold iterAcceptRate. cbn [loopStart Loop.alpha Loop.nAlpha].
  rewrite drawMomentum_leapfrogSteps. repeat split.
  unfold Rdiv. apply Rmult_0_l.
Qed.

(** X9. With [maxTreeDepth <= 0] the sampler never moves: no iteration of
    [NUTS.sample] performs a leapfrog step, the current position stays
    [initialValues], and no iteration is counted as accepted. *)
Theorem chainAfter_no_depth (uniformDraw normalDraw : nat → R) (this : NUTS)
    (model : Model) (initialValues : gmap string R) (nWarmup thin : nat) (w : World)
    (k : nat) :
  (maxTreeDepth this <= 0)%Z →
  let run := chainAfter uniformDraw normalDraw this model initialValues nWarmup thin k w in
  Chain.currentParams run.1 = initialValues
  ∧ Chain.accepted_count run.1 = 0%nat
  ∧ leapfrogSteps run.2 = leapfrogSteps w.
Proof.
  intros Hd. cbv zeta. induction k as [|k (IHp & IHc & IHl)]; [done|].
  rewrite chainAfter_S. cbv zeta.
  set (before := chainAfter uniformDraw normalDraw this model initialValues nWarmup thin
                   k w) in *.
  assert (Hd' : (maxTreeDepth (Chain.this before.1) <= 0)%Z).
  { destruct (chainAfter_constants uniformDraw normalDraw this model initialValues
                nWarmup thin k w) as [Hmax _]. fold before in Hmax. by rewrite Hmax. }
  destruct (trajectory_no_depth uniformDraw normalDraw (Chain.this before.1) model
              (getFreeVariableNames model) (Chain.currentParams before.1) before.2 Hd')
    as (Hp & Hr & Hl).
  cbv zeta in Hp, Hr, Hl.
  rewrite iteration_currentParams, iteration_world.
  destruct (iteration_accepted uniformDraw normalDraw model (getFreeVariableNames model)
              nWarmup thin k before.1 before.2) as [_ Hc].
  cbv zeta in Hc. rewrite Hc, Hr, Hp, Hl.
  rewrite bool_decide_eq_false_2 by lra. done.
Qed.

Lemma chainAfter_no_depth_witness :
  Chain.currentParams
    (chainAfter (always 0.5) (always 0) (NUTS_fields 0.1 0 0.8) standardNormal (x_is 0)
       5 1 15 startWorld).1
  = x_is 0.
Proof.
  apply (chainAfter_no_depth (always 0.5) (always 0) (NUTS_fields 0.1 0 0.8)
           standardNormal (x_is 0) 5 1 startWorld 15).
  simpl. lia.
Defined.



(** ** Symmetries of the U-turn test, the energy and the integrator *)

Lemma sumNames_zero (names : list string) (f : string → R) :
  (∀ name, name ∈ names → f name = 0) → sumNames names f = 0.
Proof.
  intros H. rewrite sumNames_foldr.
  induction names as [|n names IH]; csimpl; [done|].
  rewrite H by left. rewrite IH; [lra|]. intros name Hin. apply H. by right.
Qed.

Lemma sumNames_nonneg (names : list string) (f : string → R) :
  (∀ name, 0 <= f name) → 0 <= sumNames names f.
Proof.
  intros H. rewrite sumNames_foldr.
  induction names as [|n names IH]; csimpl; [lra|]. specialize (H n). lra.
Qed.

(** X11. The U-turn test depends on the edges only through their
    displacement: two edges at the same position never make a U-turn; and the
    test is unchanged when the trajectory is read backwards, that is when
    the edges are exchanged and both momenta change sign. *)
Theorem isUTurn_symmetry (positionMinus positionPlus momentumMinus momentumPlus
    : gmap string R) :
  isUTurn positionMinus positionMinus momentumMinus momentumPlus = false
  ∧ (dom positionPlus = dom positionMinus →
     isUTurn positionPlus positionMinus (negate momentumPlus) (negate momentumMinus)
     = isUTurn positionMinus positionPlus momentumMinus momentumPlus).
Proof.
  split.
  - unfold isUTurn. cbv zeta.
    rewrite !sumNames_zero by (intros; lra).
    by rewrite bool_decide_eq_false_2 by lra.
  - intros Hdom. unfold isUTurn. cbv zeta.
    rewrite (sumNames_Permutation (keys positionPlus) (keys positionMinus))
      by by apply keys_Permutation.
    rewrite (sumNames_Permutation (keys positionPlus) (keys positionMinus))
      by by apply keys_Permutation.
    rewrite (sumNames_ext _ _
               (λ name, (get positionPlus name - get positionMinus name)
                        * get momentumMinus name))
      by (intros; rewrite get_negate; lra).
    rewrite (sumNames_ext _
               (λ name, (get positionMinus name - get positionPlus name)
                        * get (negate momentumPlus) name)
               (λ name, (get positionPlus name - get positionMinus name)
                        * get momentumPlus name))
      by (intros; rewrite get_negate; lra).
    apply orb_comm.
Qed.

Lemma isUTurn_symmetry_witness :
  isUTurn (x_is 1) (x_is 0) (negate (x_is 1)) (negate (x_is 2))
  = isUTurn (x_is 0) (x_is 1) (x_is 2) (x_is 1).
Proof.
  apply (isUTurn_symmetry (x_is 0) (x_is 1) (x_is 2) (x_is 1)).
  unfold x_is. by rewrite !dom_singleton_L.
Defined.

(** X12. The Hamiltonian is the potential energy [-logProb(position)] plus a
    kinetic energy that is never negative, so it is bounded below by the
    potential energy; and it does not change when the momentum changes
    sign. *)
Theorem hamiltonian_momentum (position momentum : gmap string R) (model : Model) :
  - logProb model position <= hamiltonian position momentum model
  ∧ hamiltonian position (negate momentum) model = hamiltonian position momentum model.
Proof.
  unfold hamiltonian. cbv zeta. split.
  - assert (H : 0 <= sumNames (keys momentum)
                       (λ name, 0.5 * get momentum name * get momentum name)).
    { apply sumNames_nonneg. intros name. nra. }
    lra.
  - f_equal.
    rewrite (sumNames_Permutation (keys (negate momentum)) (keys momentum))
      by (apply keys_Permutation, dom_negate).
    apply sumNames_ext. intros name _. rewrite get_negate. lra.
Qed.

Lemma leapfrog_zero (x p : gmap string R) (model : Model) :
  dom p = dom x →
  leapfrog x p 0 model = {| Leapfrog.position := x; Leapfrog.momentum := p |}.
Proof.
  intros Hdom. rewrite leapfrog_eq by done. cbv zeta.
  set (g1 := gradients (logProbAndGradient model x)).
  assert (H1 : forNames (keys x) (λ name, get p name + 0 / 2 * get g1 name) = p).
  { transitivity (forNames (keys x) (get p)); [|by apply forNames_keys_same_dom].
    apply forNames_ext. intros. lra. }
  rewrite H1.
  assert (H2 : forNames (keys x) (λ name, get x name + 0 * get p name) = x).
  { transitivity (forNames (keys x) (get x)); [|apply forNames_keys_get].
    apply forNames_ext. intros. lra. }
  rewrite H2. f_equal.
  transitivity (forNames (keys x) (get p)); [|by apply forNames_keys_same_dom].
  apply forNames_ext. intros. lra.
Qed.

(** X13. A leapfrog step returns a position and a momentum over exactly the
    variable names of the position it starts from; for a momentum over those
    names, a step of size 0 returns the state unchanged, and changing the
    sign of both the momentum and the step size gives the same new position
    with the new momentum's sign changed. *)
Theorem leapfrog_symmetry (x p : gmap string R) (h : R) (model : Model) :
  (dom (Leapfrog.position (leapfrog x p h model)) = dom x
   ∧ dom (Leapfrog.momentum (leapfrog x p h model)) = dom x)
  ∧ (dom p = dom x →
     leapfrog x p 0 model = {| Leapfrog.position := x; Leapfrog.momentum := p |}
     ∧ leapfrog x (negate p) (- h) model
       = {| Leapfrog.position := Leapfrog.position (leapfrog x p h model);
            Leapfrog.momentum := negate (Leapfrog.momentum (leapfrog x p h model)) |}).
Proof.
  split; [apply leapfrog_dom|]. intros Hdom. split.
  - by apply leapfrog_zero.
  - by apply leapfrog_flip.
Qed.

Lemma leapfrog_symmetry_witness :
  leapfrog (x_is 0) (x_is 1) 0 standardNormal
  = {| Leapfrog.position := x_is 0; Leapfrog.momentum := x_is 1 |}.
Proof.
  apply (leapfrog_symmetry (x_is 0) (x_is 1) 1 standardNormal).
  unfold x_is. by rewrite !dom_singleton_L.
Defined.

(** ** The integrator of [HamiltonianMC] *)

Lemma lookup_assignNames (names : list string) (f : gmap string R → string → R)
    (name : string) :
  NoDup names →
  (∀ o o' n, get o n = get o' n → f o n = f o' n) →
  ∀ o : gmap string R,
    assignNames names f o !! name
    = if decide (name ∈ names) then Some (f o name) else o !! name.
Proof.
  intros Hnd Hlocal. unfold assignNames.
  induction Hnd as [|n names Hn Hnames IH]; intros o; cbn [fold_left].
  - case_decide as Hin; [by apply elem_of_nil in Hin | done].
  - rewrite IH. destruct (decide (n = name)) as [->|Hne].
    + rewrite decide_False by done. rewrite lookup_insert_eq.
      rewrite decide_True; [done | by left].
    + destruct (decide (name ∈ names)) as [Hin|Hnin].
      * rewrite decide_True by (by right). f_equal. apply Hlocal.
        unfold get. by rewrite lookup_insert_ne.
      * rewrite lookup_insert_ne by done.
        rewrite decide_False; [done|]. rewrite elem_of_cons.
        intros [Heq|Hin]; [by subst | done].
Qed.

(** Assigning every name of an object is building the object anew. *)
Lemma assignNames_forNames (names : list string) (f : gmap string R → string → R)
    (o : gmap string R) :
  NoDup names →
  (∀ o o' n, get o n = get o' n → f o n = f o' n) →
  dom o = list_to_set names →
  assignNames names f o = forNames names (f o).
Proof.
  intros Hnd Hlocal Hdom. apply map_eq. intros name.
  rewrite lookup_assignNames, lookup_forNames by done.
  case_decide as Hin; [done|].
  apply not_elem_of_dom. rewrite Hdom. by rewrite elem_of_list_to_set.
Qed.

Lemma forNames_get_same (names : list string) (o : gmap string R) :
  dom o = list_to_set names → forNames names (get o) = o.
Proof.
  intros Hdom. rewrite <- (forNames_keys_get o) at 2.
  apply forNames_same_dom. intros name.
  by rewrite keys_dom, Hdom, elem_of_list_to_set.
Qed.

(** One step of [NUTS.leapfrog], for objects over the names [names]. *)
Lemma leapfrog_over (names : list string) (q p : gmap string R) (h : R) (model : Model) :
  dom q = list_to_set names →
  dom p = list_to_set names →
  leapfrog q p h model
  = let g1 := gradients (logProbAndGradient model q) in
    let pHalf := forNames names (λ name, get p name + h / 2 * get g1 name) in
    let qNew := forNames names (λ name, get q name + h * get pHalf name) in
    let g2 := gradients (logProbAndGradient model qNew) in
    {| Leapfrog.position := qNew;
       Leapfrog.momentum := forNames names (λ name, get pHalf name + h / 2 * get g2 name) |}.
Proof.
  intros Hq Hp. rewrite leapfrog_eq by by rewrite Hq, Hp. cbv zeta.
  assert (Hkeys : ∀ f, forNames (keys q) f = forNames names f).
  { intros f. apply forNames_same_dom. intros name.
    by rewrite keys_dom, Hq, elem_of_list_to_set. }
  by rewrite !Hkeys.
Qed.

(** One round of the loop of [HamiltonianMC.leapfrog]. *)
Lemma hmc_steps_round (this : HamiltonianMC) (model : Model) (names : list string)
    (n : nat) (i : Z) (q pH : gmap string R) :
  NoDup names →
  dom q = list_to_set names →
  dom pH = list_to_set names →
  hmc_steps this model names (S n) i q pH
  = let q' := forNames names (λ name, get q name + hmc_stepSize this * get pH name) in
    let pH' :=
      if (i <? nSteps this - 1)%Z
      then forNames names
             (λ name, get pH name
                      + hmc_stepSize this * get (gradients (logProbAndGradient model q')) name)
      else pH in
    hmc_steps this model names n (i + 1) q' pH'.
Proof.
  intros Hnd Hq Hp. cbn [hmc_steps]. cbv zeta.
  rewrite (assignNames_forNames names _ q) by (done || (intros ? ? ? ->; done)).
  destruct (i <? nSteps this - 1)%Z; [|done].
  by rewrite (assignNames_forNames names _ pH) by (done || (intros ? ? ? ->; done)).
Qed.

(** The loop and the closing half step are leapfrog steps of [NUTS.leapfrog]:
    the two half steps of the momentum between consecutive position steps add
    up to the full step of the loop. *)
Lemma hmc_steps_leapfrogs (this : HamiltonianMC) (model : Model) (names : list string)
    (m : nat) :
  NoDup names →
  ∀ (i : Z) (q pH : gmap string R),
    dom q = list_to_set names →
    dom pH = list_to_set names →
    (i + Z.of_nat (S m) = nSteps this)%Z →
    let stepped := hmc_steps this model names (S m) i q pH in
    let gradFinal := logProbAndGradient model stepped.1 in
    {| Leapfrog.position := forNames names (get stepped.1);
       Leapfrog.momentum :=
         forNames names
           (λ name, get stepped.2 name
                    + hmc_stepSize this / 2 * get (gradients gradFinal) name) |}
    = leapfrogs (S m) q
        (forNames names
           (λ name, get pH name
                    - hmc_stepSize this / 2
                      * get (gradients (logProbAndGradient model q)) name))
        (hmc_stepSize this) model.
Proof.
  intros Hnd. induction m as [|m IH]; intros i q pH Hq Hp Hi; cbv zeta.
  - rewrite hmc_steps_round by done. cbv zeta.
    assert (Hlast : (i <? nSteps this - 1)%Z = false) by (apply Z.ltb_ge; lia).
    rewrite Hlast. cbn [hmc_steps fst snd leapfrogs].
    rewrite (leapfrog_over names) by (done || apply dom_forNames). cbv zeta.
    cbn [Leapfrog.position Leapfrog.momentum].
    assert (HpH : forNames names
                    (λ name,
                       get (forNames names
                              (λ name0, get pH name0
                                        - hmc_stepSize this / 2
                                          * get (gradients (logProbAndGradient model q))
                                              name0)) name
                       + hmc_stepSize this / 2
                         * get (gradients (logProbAndGradient model q)) name)
                  = pH).
    { transitivity (forNames names (get pH)); [|by apply forNames_get_same].
      apply forNames_ext. intros name Hin. rewrite get_forNames by done. lra. }
    rewrite HpH. by rewrite forNames_get_forNames.
  - rewrite hmc_steps_round by done. cbv zeta.
    assert (Hnext : (i <? nSteps this - 1)%Z = true) by (apply Z.ltb_lt; lia).
    rewrite Hnext.
    rewrite IH by (apply dom_forNames || lia).
    change (leapfrogs (S (S m)) ?x ?p ?h ?mo)
      with (leapfrogs (S m) (Leapfrog.position (leapfrog x p h mo))
              (Leapfrog.momentum (leapfrog x p h mo)) h mo).
    rewrite (leapfrog_over names q) by (done || apply dom_forNames). cbv zeta.
    cbn [Leapfrog.position Leapfrog.momentum].
    assert (HpH : forNames names
                    (λ name,
                       get (forNames names
                              (λ name0, get pH name0
                                        - hmc_stepSize this / 2
                                          * get (gradients (logProbAndGradient model q))
                                              name0)) name
                       + hmc_stepSize this / 2
                         * get (gradients (logProbAndGradient model q)) name)
                  = pH).
    { transitivity (forNames names (get pH)); [|by apply forNames_get_same].
      apply forNames_ext. intros name Hin. rewrite get_forNames by done. lra. }
    rewrite HpH. f_equal.
    apply forNames_ext. intros name Hin. rewrite get_forNames by done. lra.
Qed.

Lemma hmc_steps_dom (this : HamiltonianMC) (model : Model) (names : list string)
    (n : nat) :
  NoDup names →
  ∀ (i : Z) (q pH : gmap string R),
    dom q = list_to_set names →
    dom pH = list_to_set names →
    dom (hmc_steps this model names n i q pH).1 = list_to_set names
    ∧ dom (hmc_steps this model names n i q pH).2 = list_to_set names.
Proof.
  intros Hnd. induction n as [|n IH]; intros i q pH Hq Hp; [done|].
  rewrite hmc_steps_round by done. cbv zeta.
  apply IH; [apply dom_forNames|].
  destruct (i <? nSteps this - 1)%Z; [apply dom_forNames | done].
Qed.

Lemma dom_keys_set (o : gmap string R) : dom o = list_to_set (keys o).
Proof. apply set_eq. intros name. by rewrite elem_of_list_to_set, keys_dom. Qed.

Lemma HamiltonianMC_leapfrog_leapfrogs (this : HamiltonianMC)
    (position momentum : gmap string R) (model : Model) :
  dom momentum = dom position →
  (1 ≤ nSteps this)%Z →
  HamiltonianMC_leapfrog this position momentum model
  = leapfrogs (Z.to_nat (nSteps this)) position momentum (hmc_stepSize this) model.
Proof.
  intros Hdom Hn. unfold HamiltonianMC_leapfrog. cbv zeta. unfold spread.
  pose proof (dom_keys_set position) as Hset.
  rewrite forNames_keys_get.
  rewrite (forNames_get_same (keys position) momentum) by by rewrite Hdom.
  destruct (Z.to_nat (nSteps this)) as [|m] eqn:Hm; [lia|].
  set (pHalf := forNames (keys position)
                  (λ name, get momentum name
                           + hmc_stepSize this / 2
                             * get (gradients (logProbAndGradient model position)) name)).
  assert (HpHalf : dom pHalf = list_to_set (keys position)) by apply dom_forNames.
  destruct (hmc_steps_dom this model (keys position) (S m) (NoDup_keys position) 0
              position pHalf Hset HpHalf) as [_ Hdom2].
  pose proof (hmc_steps_leapfrogs this model (keys position) m (NoDup_keys position) 0
                position pHalf Hset HpHalf) as Hsteps.
  cbv zeta in Hsteps.
  set (stepped := hmc_steps _ _ _ _ _ _ _) in *.
  rewrite (assignNames_forNames (keys position))
    by (apply NoDup_keys || done || (intros ? ? ? ->; done)).
  rewrite forNames_get_forNames.
  rewrite Hsteps by lia.
  f_equal. transitivity (forNames (keys position) (get momentum)).
  - apply forNames_ext. intros name Hin. unfold pHalf. rewrite get_forNames by done. lra.
  - apply forNames_get_same. by rewrite Hdom.
Qed.

Lemma leapfrogs_dom (n : nat) (h : R) (model : Model) :
  ∀ position momentum : gmap string R,
    dom momentum = dom position →
    dom (Leapfrog.position (leapfrogs n position momentum h model)) = dom position
    ∧ dom (Leapfrog.momentum (leapfrogs n position momentum h model)) = dom position.
Proof.
  induction n as [|n IH]; intros position momentum Hdom; [done|].
  cbn [leapfrogs]. cbv zeta.
  destruct (leapfrog_dom position momentum h model) as [Hq Hp].
  destruct (IH _ _ (eq_trans Hp (eq_sym Hq))) as [Hq' Hp'].
  by rewrite Hq', Hp', Hq.
Qed.

Lemma leapfrogs_snoc (n : nat) (h : R) (model : Model) :
  ∀ position momentum : gmap string R,
    leapfrogs (S n) position momentum h model
    = leapfrog (Leapfrog.position (leapfrogs n position momentum h model))
        (Leapfrog.momentum (leapfrogs n position momentum h model)) h model.
Proof.
  induction n as [|n IH]; intros position momentum.
  - cbn [leapfrogs Leapfrog.position Leapfrog.momentum]. cbv zeta.
    by destruct (leapfrog position momentum h model).
  - change (leapfrogs (S (S n)) position momentum h model)
      with (leapfrogs (S n)
              (Leapfrog.position (leapfrog position momentum h model))
              (Leapfrog.momentum (leapfrog position momentum h model)) h model).
    by rewrite IH.
Qed.

Lemma leapfrogs_undo (n : nat) (h : R) (model : Model) :
  ∀ position momentum : gmap string R,
    dom momentum = dom position →
    let new := leapfrogs n position momentum h model in
    leapfrogs n (Leapfrog.position new) (Leapfrog.momentum new) (- h) model
    = {| Leapfrog.position := position; Leapfrog.momentum := momentum |}.
Proof.
  induction n as [|n IH]; intros position momentum Hdom; cbv zeta; [done|].
  rewrite (leapfrogs_snoc n h model position momentum).
  set (mid := leapfrogs n position momentum h model) in *.
  destruct (leapfrogs_dom n h model position momentum Hdom) as [Hq Hp].
  fold mid in Hq, Hp.
  cbn [leapfrogs]. cbv zeta.
  pose proof (leapfrog_undo (Leapfrog.position mid) (Leapfrog.momentum mid) h model) as Hundo.
  cbv zeta in Hundo. rewrite Hundo by by rewrite Hq, Hp.
  cbn [Leapfrog.position Leapfrog.momentum]. by apply IH.
Qed.

Lemma x_is_dom (v v' : R) : dom (x_is v) = dom (x_is v').
Proof. unfold x_is. by rewrite !dom_singleton_L. Qed.

(** X14. For [nSteps >= 1], [HamiltonianMC.leapfrog] is [nSteps] steps of
    [NUTS.leapfrog] with the sampler's step size, one after the other: the
    full momentum steps inside its loop are the two half steps of
    consecutive leapfrog steps merged. *)
Theorem HamiltonianMC_leapfrog_steps (this : HamiltonianMC)
    (position momentum : gmap string R) (model : Model) :
  dom momentum = dom position →
  (1 ≤ nSteps this)%Z →
  HamiltonianMC_leapfrog this position momentum model
  = leapfrogs (Z.to_nat (nSteps this)) position momentum (hmc_stepSize this) model.
Proof. apply HamiltonianMC_leapfrog_leapfrogs. Qed.

Lemma HamiltonianMC_leapfrog_steps_witness :
  HamiltonianMC_leapfrog ex_hmc (x_is 0) (x_is 1) standardNormal
  = leapfrogs 3 (x_is 0) (x_is 1) (hmc_stepSize ex_hmc) standardNormal.
Proof.
  apply (HamiltonianMC_leapfrog_steps ex_hmc (x_is 0) (x_is 1) standardNormal).
  - apply x_is_dom.
  - simpl. lia.
Defined.

(** X15. [HamiltonianMC.leapfrog] is reversible: for [nSteps >= 1] and a
    momentum over the names of the position, integrating from the new state
    with the opposite step size gives back the position and the momentum the
    integration started from. *)
Theorem HamiltonianMC_leapfrog_reversible (this : HamiltonianMC)
    (position momentum : gmap string R) (model : Model) :
  dom momentum = dom position →
  (1 ≤ nSteps this)%Z →
  let new := HamiltonianMC_leapfrog this position momentum model in
  HamiltonianMC_leapfrog (reversed this) (Leapfrog.position new) (Leapfrog.momentum new)
    model
  = {| Leapfrog.position := position; Leapfrog.momentum := momentum |}.
Proof.
  intros Hdom Hn. cbv zeta.
  rewrite (HamiltonianMC_leapfrog_leapfrogs this) by done.
  destruct (leapfrogs_dom (Z.to_nat (nSteps this)) (hmc_stepSize this) model position
              momentum Hdom) as [Hq Hp].
  rewrite HamiltonianMC_leapfrog_leapfrogs by (by rewrite ?Hq, ?Hp).
  cbn [reversed nSteps hmc_stepSize].
  by apply (leapfrogs_undo (Z.to_nat (nSteps this)) (hmc_stepSize this) model).
Qed.

Lemma HamiltonianMC_leapfrog_reversible_witness :
  HamiltonianMC_leapfrog (reversed ex_hmc)
    (Leapfrog.position (HamiltonianMC_leapfrog ex_hmc (x_is 0) (x_is 1) standardNormal))
    (Leapfrog.momentum (HamiltonianMC_leapfrog ex_hmc (x_is 0) (x_is 1) standardNormal))
    standardNormal
  = {| Leapfrog.position := x_is 0; Leapfrog.momentum := x_is 1 |}.
Proof.
  apply (HamiltonianMC_leapfrog_reversible ex_hmc (x_is 0) (x_is 1) standardNormal).
  - apply x_is_dom.
  - simpl. lia.
Defined.

Lemma HamiltonianMC_leapfrog_idle (this : HamiltonianMC)
    (position momentum : gmap string R) (model : Model) :
  (nSteps this ≤ 0)%Z →
  HamiltonianMC_leapfrog this position momentum model
  = {| Leapfrog.position := position;
       Leapfrog.momentum :=
         forNames (keys position)
           (λ name, get momentum name
                    + hmc_stepSize this
                      * get (gradients (logProbAndGradient model position)) name) |}.
Proof.
  intros Hn. unfold HamiltonianMC_leapfrog. cbv zeta. unfold spread.
  replace (Z.to_nat (nSteps this)) with 0%nat by lia.
  cbn [hmc_steps fst snd].
  rewrite !forNames_keys_get.
  rewrite (assignNames_forNames (keys position)).
  - rewrite forNames_get_forNames. f_equal.
    apply forNames_ext. intros name Hin. rewrite !get_forNames by done. lra.
  - apply NoDup_keys.
  - by intros ? ? ? ->.
  - apply dom_forNames.
Qed.

(** X16. With [nSteps <= 0] the loop of [HamiltonianMC.leapfrog] does not
    run: the position comes back unchanged, while the two half steps of the
    momentum are still taken, both with the gradient at that position - a
    full momentum step. *)
Theorem HamiltonianMC_leapfrog_no_steps (this : HamiltonianMC)
    (position momentum : gmap string R) (model : Model) :
  dom momentum = dom position →
  (nSteps this ≤ 0)%Z →
  HamiltonianMC_leapfrog this position momentum model
  = {| Leapfrog.position := position;
       Leapfrog.momentum :=
         forNames (keys position)
           (λ name, get momentum name
                    + hmc_stepSize this
                      * get (gradients (logProbAndGradient model position)) name) |}.
Proof. intros _. apply HamiltonianMC_leapfrog_idle. Qed.

Lemma HamiltonianMC_leapfrog_no_steps_witness :
  Leapfrog.position
    (HamiltonianMC_leapfrog {| hmc_stepSize := 0.1; nSteps := 0 |} (x_is 0) (x_is 1)
       standardNormal)
  = x_is 0.
Proof.
  rewrite (HamiltonianMC_leapfrog_no_steps {| hmc_stepSize := 0.1; nSteps := 0 |}
             (x_is 0) (x_is 1) standardNormal).
  - reflexivity.
  - apply x_is_dom.
  - simpl. lia.
Defined.

(** ** The loop of [HamiltonianMC.sample] *)

Lemma drawMomentum_randomDraws (normalDraw : nat → R) (variableNames : list string) :
  ∀ (momentum : gmap string R) (w : World),
    randomDraws (drawMomentum normalDraw variableNames momentum w).2 = randomDraws w.
Proof.
  induction variableNames as [|name rest IH]; intros momentum w; [done|].
  cbn [drawMomentum]. unfold bind. cbv zeta. by rewrite IH.
Qed.

Lemma hmc_iteration_fields (uniformDraw normalDraw : nat → R) (this : HamiltonianMC)
    (model : Model) (variableNames : list string) (burnIn thin i : nat) (c : Walk.vars)
    (w : World) :
  let c' := (hmc_iteration uniformDraw normalDraw this model variableNames burnIn thin i
               c w).1 in
  let momentum := (drawMomentum normalDraw variableNames ∅ w).1 in
  let new := HamiltonianMC_leapfrog this (Walk.currentParams c) momentum model in
  Walk.trace c'
  = (if keptIteration burnIn thin i
     then pushTrace variableNames (Walk.trace c) (Walk.currentParams c')
     else Walk.trace c)
  ∧ Walk.accepted_total c' = S (Walk.accepted_total c)
  ∧ (Walk.accepted_count c ≤ Walk.accepted_count c' ≤ S (Walk.accepted_count c))%nat
  ∧ (Walk.currentParams c' = Walk.currentParams c
     ∨ Walk.currentParams c' = Leapfrog.position new).
Proof.
  unfold hmc_iteration, bind, ret. cbv zeta. cbn [fst snd].
  destruct (bool_decide _);
    cbn [Walk.trace Walk.accepted_total Walk.accepted_count Walk.currentParams];
    repeat split; (reflexivity || lia || (left; reflexivity) || (right; reflexivity)).
Qed.

Lemma hmc_forLoop_invariant (uniformDraw normalDraw : nat → R) (this : HamiltonianMC)
    (model : Model) (variableNames : list string) (burnIn thin : nat) (n : nat) :
  NoDup variableNames →
  ∀ (i : nat) (c : Walk.vars) (w : World),
    traceShape variableNames (keptBefore burnIn thin i) (Walk.trace c) →
    let c' := (hmc_forLoop uniformDraw normalDraw n this model variableNames burnIn thin
                 i c w).1 in
    traceShape variableNames (keptBefore burnIn thin (i + n)) (Walk.trace c')
    ∧ Walk.accepted_total c' = (Walk.accepted_total c + n)%nat
    ∧ (Walk.accepted_count c ≤ Walk.accepted_count c' ≤ Walk.accepted_count c + n)%nat.
Proof.
  intros Hnd. induction n as [|n IH]; intros i c w Hshape; cbv zeta.
  - cbn [hmc_forLoop]. unfold ret. cbn [fst]. rewrite !Nat.add_0_r. split; [done|]. split; lia.
  - cbn [hmc_forLoop]. unfold bind. cbv zeta.
    destruct (hmc_iteration_fields uniformDraw normalDraw this model variableNames burnIn
                thin i c w) as (Htrace & Htotal & Hcount & _).
    set (step := hmc_iteration _ _ _ _ _ _ _ _ _ _) in *.
    assert (Hshape' : traceShape variableNames (keptBefore burnIn thin (S i))
                        (Walk.trace step.1)).
    { rewrite Htrace. by apply storeTrace_shape. }
    destruct (IH (S i) step.1 step.2 Hshape') as (Hs & Ht & Hc).
    replace (i + S n)%nat with (S i + n)%nat by lia.
    split; [done|]. split; lia.
Qed.

Lemma HamiltonianMC_sample_summary (uniformDraw normalDraw : nat → R)
    (this : HamiltonianMC) (model : Model) (initialValues : gmap string R)
    (nSamples burnIn thin : nat) (w : World) :
  NoDup (getFreeVariableNames model) →
  let outcome := (HamiltonianMC_sample uniformDraw normalDraw this model initialValues
                    (Some nSamples) (Some burnIn) (Some thin) w).1 in
  traceShape (getFreeVariableNames model) (if (thin =? 0)%nat then 0%nat else nSamples)
    (Outcome.trace outcome)
  ∧ Outcome.nSamples outcome = nSamples
  ∧ ((1 ≤ burnIn + nSamples * thin)%nat → 0 <= Outcome.acceptanceRate outcome <= 1).
Proof.
  intros Hnd. cbv zeta. unfold HamiltonianMC_sample, bind, ret. cbv zeta.
  cbn [default from_option fst snd Outcome.trace Outcome.nSamples Outcome.acceptanceRate].
  unfold Datatypes.id.
  set (start := {| Walk.trace := initTrace (getFreeVariableNames model);
                   Walk.accepted_count := 0;
                   Walk.accepted_total := 0;
                   Walk.currentParams := spread initialValues |}).
  assert (H0 : traceShape (getFreeVariableNames model) (keptBefore burnIn thin 0%nat)
                 (Walk.trace start)).
  { assert (Hk : keptBefore burnIn thin 0%nat = 0%nat).
    { unfold keptBefore. cbn [Nat.sub Nat.add].
      destruct thin as [|t]; [done|]. apply Nat.div_small. lia. }
    rewrite Hk. apply initTrace_shape. }
  destruct (hmc_forLoop_invariant uniformDraw normalDraw this model
              (getFreeVariableNames model) burnIn thin (burnIn + nSamples * thin) Hnd
              0%nat start w H0) as (Hs & Ht & Hc).
  cbn [Nat.add] in Hs. rewrite keptBefore_total in Hs.
  change (Walk.accepted_total start) with 0%nat in Ht.
  change (Walk.accepted_count start) with 0%nat in Hc.
  split; [done|]. split; [done|].
  intros Hn. apply rate_bounds; lia.
Qed.

(** X17. [HamiltonianMC.sample] returns a trace with one sequence per free
    variable of the model and nothing else, each of exactly [nSamples] values
    (none when [thin = 0]); it reports [nSamples] as given; and when it runs
    at least one iteration its acceptance rate lies between 0 and 1. *)
Theorem HamiltonianMC_sample_outcome (uniformDraw normalDraw : nat → R)
    (this : HamiltonianMC) (model : Model) (initialValues : gmap string R)
    (nSamples burnIn thin : nat) (w : World) :
  NoDup (getFreeVariableNames model) →
  dom initialValues = list_to_set (getFreeVariableNames model) →
  let outcome := (HamiltonianMC_sample uniformDraw normalDraw this model initialValues
                    (Some nSamples) (Some burnIn) (Some thin) w).1 in
  traceShape (getFreeVariableNames model) (if (thin =? 0)%nat then 0%nat else nSamples)
    (Outcome.trace outcome)
  ∧ Outcome.nSamples outcome = nSamples
  ∧ ((1 ≤ burnIn + nSamples * thin)%nat → 0 <= Outcome.acceptanceRate outcome <= 1).
Proof. intros Hnd _. by apply HamiltonianMC_sample_summary. Qed.

Lemma HamiltonianMC_sample_outcome_witness :
  traceShape ["x"%string] 10%nat
    (Outcome.trace
       (HamiltonianMC_sample (always 0.5) (always 0) ex_hmc standardNormal (x_is 0)
          (Some 10%nat) (Some 5%nat) (Some 1%nat) startWorld).1).
Proof.
  apply (HamiltonianMC_sample_outcome (always 0.5) (always 0) ex_hmc standardNormal
           (x_is 0) 10%nat 5%nat 1%nat startWorld).
  - apply NoDup_singleton.
  - unfold x_is. rewrite dom_singleton_L. simpl. by rewrite union_empty_r_L.
Defined.

(** X18. [HamiltonianMC.sample] never rejects a proposal that does not raise
    the energy: the acceptance ratio [exp(min(0, currentH - proposedH))] is
    then 1, above every draw of [Math.random()]; the proposal becomes the
    current position and the iteration is counted as accepted. *)
Theorem hmc_iteration_accepts (uniformDraw normalDraw : nat → R) (this : HamiltonianMC)
    (model : Model) (variableNames : list string) (burnIn thin i : nat) (c : Walk.vars)
    (w : World) :
  (∀ n, 0 <= uniformDraw n < 1) →
  let momentum := (drawMomentum normalDraw variableNames ∅ w).1 in
  let new := HamiltonianMC_leapfrog this (Walk.currentParams c) momentum model in
  HamiltonianMC_hamiltonian (Leapfrog.position new) (Leapfrog.momentum new) model
  <= HamiltonianMC_hamiltonian (Walk.currentParams c) momentum model →
  let c' := (hmc_iteration uniformDraw normalDraw this model variableNames burnIn thin i
               c w).1 in
  Walk.currentParams c' = Leapfrog.position new
  ∧ Walk.accepted_count c' = S (Walk.accepted_count c).
Proof.
  intros Hu. cbv zeta. intros Henergy.
  unfold hmc_iteration, bind, ret. cbv zeta. cbn [fst snd].
  rewrite bool_decide_eq_true_2; [done|].
  cbn [call_HamiltonianMC_hamiltonian call_HamiltonianMC_leapfrog fst snd].
  rewrite Rmin_left by lra. rewrite exp_0. apply Hu.
Qed.

Lemma hmc_iteration_accepts_witness :
  Walk.accepted_count
    (hmc_iteration (always 0.5) (always 0) {| hmc_stepSize := 0.1; nSteps := 0 |} flat
       ["x"%string] 0 1 0
       {| Walk.trace := initTrace ["x"%string];
          Walk.accepted_count := 0;
          Walk.accepted_total := 0;
          Walk.currentParams := x_is 0 |} startWorld).1
  = 1%nat.
Proof.
  apply (hmc_iteration_accepts (always 0.5) (always 0)
           {| hmc_stepSize := 0.1; nSteps := 0 |} flat ["x"%string] 0 1 0
           {| Walk.trace := initTrace ["x"%string];
              Walk.accepted_count := 0;
              Walk.accepted_total := 0;
              Walk.currentParams := x_is 0 |} startWorld).
  - intros n. unfold always. lra.
  - rewrite HamiltonianMC_leapfrog_idle by (simpl; lia).
    cbn [Walk.currentParams Leapfrog.position Leapfrog.momentum].
    rewrite drawMomentum_x. unfold HamiltonianMC_hamiltonian, flat, x_is, always.
    cbn [logProb logProbAndGradient gradients hmc_stepSize].
    autorewrite with js_eval. lra.
Defined.

Lemma hmc_forLoop_idle (uniformDraw normalDraw : nat → R) (this : HamiltonianMC)
    (model : Model) (variableNames : list string) (burnIn thin : nat)
    (x0 : gmap string R) (n : nat) :
  (nSteps this ≤ 0)%Z →
  NoDup variableNames →
  ∀ (i : nat) (c : Walk.vars) (w : World),
    Walk.currentParams c = x0 →
    (∀ name samples, Walk.trace c !! name = Some samples →
                     Forall (λ v, v = get x0 name) samples) →
    let c' := (hmc_forLoop uniformDraw normalDraw n this model variableNames burnIn thin
                 i c w).1 in
    Walk.currentParams c' = x0
    ∧ ∀ name samples, Walk.trace c' !! name = Some samples →
                      Forall (λ v, v = get x0 name) samples.
Proof.
  intros Hn Hnd. induction n as [|n IH]; intros i c w Hx Htrace; cbv zeta; [done|].
  cbn [hmc_forLoop]. unfold bind. cbv zeta.
  destruct (hmc_iteration_fields uniformDraw normalDraw this model variableNames burnIn
              thin i c w) as (Htr & _ & _ & Hpos).
  rewrite HamiltonianMC_leapfrog_idle in Hpos by done.
  cbn [Leapfrog.position] in Hpos.
  set (step := hmc_iteration _ _ _ _ _ _ _ _ _ _) in *.
  assert (Hx' : Walk.currentParams step.1 = x0) by (destruct Hpos; congruence).
  apply IH; [done|].
  intros name samples. rewrite Htr, Hx'.
  destruct (keptIteration burnIn thin i); [|apply Htrace].
  rewrite lookup_pushTrace by done. case_decide as Hin; [|apply Htrace].
  intros [= <-]. apply Forall_app. split; [|by repeat constructor].
  rewrite lookup_total_alt. destruct (Walk.trace c !! name) as [old|] eqn:Hold.
  - by apply Htrace.
  - constructor.
Qed.

(** X19. With [nSteps <= 0] the proposals of [HamiltonianMC.sample] repeat
    the current position, so the chain never moves: every value of the trace
    it returns is the initial value of its variable. *)
Theorem HamiltonianMC_sample_no_steps (uniformDraw normalDraw : nat → R)
    (this : HamiltonianMC) (model : Model) (initialValues : gmap string R)
    (nSamples burnIn thin : nat) (w : World) :
  (nSteps this ≤ 0)%Z →
  NoDup (getFreeVariableNames model) →
  dom initialValues = list_to_set (getFreeVariableNames model) →
  let outcome := (HamiltonianMC_sample uniformDraw normalDraw this model initialValues
                    (Some nSamples) (Some burnIn) (Some thin) w).1 in
  ∀ name samples,
    Outcome.trace outcome !! name = Some samples →
    Forall (λ v, v = get initialValues name) samples.
Proof.
  intros Hn Hnd _. cbv zeta. unfold HamiltonianMC_sample, bind, ret. cbv zeta.
  cbn [default from_option fst snd Outcome.trace]. unfold Datatypes.id.
  apply (hmc_forLoop_idle uniformDraw normalDraw this model (getFreeVariableNames model)
           burnIn thin initialValues (burnIn + nSamples * thin) Hn Hnd); [done|].
  cbn [Walk.trace]. intros name samples. rewrite lookup_initTrace.
  case_decide; [|done]. intros [= <-]. constructor.
Qed.

Lemma HamiltonianMC_sample_no_steps_witness :
  ∃ samples,
    Outcome.trace
      (HamiltonianMC_sample (always 0.5) (always 0) {| hmc_stepSize := 0.1; nSteps := 0 |}
         standardNormal (x_is 2) (Some 10%nat) (Some 5%nat) (Some 1%nat) startWorld).1
    !! "x"%string = Some samples
    ∧ length samples = 10%nat
    ∧ Forall (λ v, v = get (x_is 2) "x"%string) samples.
Proof.
  destruct (HamiltonianMC_sample_summary (always 0.5) (always 0)
              {| hmc_stepSize := 0.1; nSteps := 0 |} standardNormal (x_is 2)
              10%nat 5%nat 1%nat startWorld (NoDup_singleton "x"%string))
    as (Hshape & _).
  destruct (proj1 (Hshape "x"%string) ltac:(by left)) as (samples & Hlook & Hlen).
  exists samples. split; [exact Hlook|]. split; [exact Hlen|].
  apply (HamiltonianMC_sample_no_steps (always 0.5) (always 0)
           {| hmc_stepSize := 0.1; nSteps := 0 |} standardNormal (x_is 2)
           10%nat 5%nat 1%nat startWorld);
    [simpl; lia | apply NoDup_singleton | | exact Hlook].
  unfold x_is. rewrite dom_singleton_L. simpl. by rewrite union_empty_r_L.
Defined.

(** ** Metropolis-Hastings *)

Lemma propose_world (jstatDraw : nat → R → R → R)
    (this : MetropolisHastings) (variableNames : list string)
    (currentParams : gmap string R) :
  ∀ (proposedParams : gmap string R) (w : World),
    let w' := (propose jstatDraw this variableNames currentParams proposedParams w).2 in
    randomDraws w' = randomDraws w
    ∧ normalDraws w' = (normalDraws w + length variableNames)%nat
    ∧ leapfrogSteps w' = leapfrogSteps w
    ∧ modelEvaluations w' = modelEvaluations w.
Proof.
  induction variableNames as [|name rest IH]; intros proposedParams w; cbv zeta.
  - cbn [propose length]. unfold ret. cbn [snd]. repeat split; lia.
  - cbn [propose length]. unfold bind. cbv zeta.
    destruct (IH (<[name := get currentParams name
                             + (jstat_normal_sample jstatDraw 0 (proposalStd this) w).1]>
                    proposedParams)
                (jstat_normal_sample jstatDraw 0 (proposalStd this) w).2)
      as (Hr & Hn & Hl & Hm).
    cbv zeta in Hr, Hn, Hl, Hm. rewrite Hr, Hn, Hl, Hm.
    cbn [jstat_normal_sample snd randomDraws normalDraws leapfrogSteps modelEvaluations].
    repeat split; lia.
Qed.

Lemma propose_dom (jstatDraw : nat → R → R → R) (this : MetropolisHastings)
    (variableNames : list string) (currentParams : gmap string R) :
  ∀ (proposedParams : gmap string R) (w : World),
    dom (propose jstatDraw this variableNames currentParams proposedParams w).1
    = dom proposedParams ∪ list_to_set variableNames.
Proof.
  induction variableNames as [|name rest IH]; intros proposedParams w.
  - cbn [propose]. unfold ret. cbn [fst list_to_set]. by rewrite union_empty_r_L.
  - cbn [propose]. unfold bind. cbv zeta. rewrite IH.
    rewrite dom_insert_L. cbn [list_to_set].
    by rewrite (comm_L (∪) {[name]} (dom proposedParams)), <- (assoc_L (∪)).
Qed.

Lemma mh_iteration_fields (uniformDraw : nat → R) (jstatDraw : nat → R → R → R)
    (this : MetropolisHastings) (model : Model) (variableNames : list string)
    (burnIn thin i : nat) (c : MHWalk.vars) (w : World) :
  let c' := (mh_iteration uniformDraw jstatDraw this model variableNames burnIn thin i
               c w).1 in
  let proposed := (propose jstatDraw this variableNames (MHWalk.currentParams c) ∅ w).1 in
  MHWalk.trace c'
  = (if keptIteration burnIn thin i
     then pushTrace variableNames (MHWalk.trace c) (MHWalk.currentParams c')
     else MHWalk.trace c)
  ∧ MHWalk.accepted_total c' = S (MHWalk.accepted_total c)
  ∧ (MHWalk.accepted_count c ≤ MHWalk.accepted_count c' ≤ S (MHWalk.accepted_count c))%nat
  ∧ ((MHWalk.currentParams c' = MHWalk.currentParams c
      ∧ MHWalk.currentLogProb c' = MHWalk.currentLogProb c)
     ∨ (MHWalk.currentParams c' = proposed
        ∧ MHWalk.currentLogProb c' = logProb model proposed)).
Proof.
  unfold mh_iteration, bind, ret. cbv zeta. cbn [fst snd].
  destruct (bool_decide _);
    cbn [MHWalk.trace MHWalk.accepted_total MHWalk.accepted_count MHWalk.currentParams
         MHWalk.currentLogProb];
    (split; [reflexivity|]); (split; [reflexivity|]); (split; [lia|]);
    [right | left]; split; reflexivity.
Qed.

Lemma mh_iteration_world (uniformDraw : nat → R) (jstatDraw : nat → R → R → R)
    (this : MetropolisHastings) (model : Model) (variableNames : list string)
    (burnIn thin i : nat) (c : MHWalk.vars) (w : World) :
  let w' := (mh_iteration uniformDraw jstatDraw this model variableNames burnIn thin i
               c w).2 in
  randomDraws w' = S (randomDraws w)
  ∧ normalDraws w' = (normalDraws w + length variableNames)%nat
  ∧ leapfrogSteps w' = leapfrogSteps w
  ∧ modelEvaluations w' = S (modelEvaluations w).
Proof.
  cbv zeta.
  destruct (propose_world jstatDraw this variableNames (MHWalk.currentParams c)
              ∅ w) as (Hr & Hn & Hl & Hm).
  unfold mh_iteration, bind, ret. cbv zeta.
  cbn [fst snd call_logProb Math_random randomDraws normalDraws leapfrogSteps
       modelEvaluations].
  by rewrite Hr, Hn, Hl, Hm.
Qed.

Lemma mh_forLoop_invariant (uniformDraw : nat → R) (jstatDraw : nat → R → R → R)
    (this : MetropolisHastings) (model : Model) (variableNames : list string)
    (burnIn thin : nat) (n : nat) :
  NoDup variableNames →
  ∀ (i : nat) (c : MHWalk.vars) (w : World),
    traceShape variableNames (keptBefore burnIn thin i) (MHWalk.trace c) →
    let c' := (mh_forLoop uniformDraw jstatDraw n this model variableNames burnIn thin
                 i c w).1 in
    traceShape variableNames (keptBefore burnIn thin (i + n)) (MHWalk.trace c')
    ∧ MHWalk.accepted_total c' = (MHWalk.accepted_total c + n)%nat
    ∧ (MHWalk.accepted_count c ≤ MHWalk.accepted_count c'
       ≤ MHWalk.accepted_count c + n)%nat.
Proof.
  intros Hnd. induction n as [|n IH]; intros i c w Hshape; cbv zeta.
  - cbn [mh_forLoop]. unfold ret. cbn [fst]. rewrite !Nat.add_0_r.
    split; [done|]. split; lia.
  - cbn [mh_forLoop]. unfold bind. cbv zeta.
    destruct (mh_iteration_fields uniformDraw jstatDraw this model variableNames burnIn
                thin i c w) as (Htrace & Htotal & Hcount & _).
    set (step := mh_iteration _ _ _ _ _ _ _ _ _ _) in *.
    assert (Hshape' : traceShape variableNames (keptBefore burnIn thin (S i))
                        (MHWalk.trace step.1)).
    { rewrite Htrace. by apply storeTrace_shape. }
    destruct (IH (S i) step.1 step.2 Hshape') as (Hs & Ht & Hc).
    replace (i + S n)%nat with (S i + n)%nat by lia.
    split; [done|]. split; lia.
Qed.

Lemma mh_forLoop_cache (uniformDraw : nat → R) (jstatDraw : nat → R → R → R)
    (this : MetropolisHastings) (model : Model) (variableNames : list string)
    (burnIn thin : nat) (n : nat) :
  ∀ (i : nat) (c : MHWalk.vars) (w : World),
    MHWalk.currentLogProb c = logProb model (MHWalk.currentParams c) →
    dom (MHWalk.currentParams c) = list_to_set variableNames →
    let c' := (mh_forLoop uniformDraw jstatDraw n this model variableNames burnIn thin
                 i c w).1 in
    MHWalk.currentLogProb c' = logProb model (MHWalk.currentParams c')
    ∧ dom (MHWalk.currentParams c') = list_to_set variableNames.
Proof.
  induction n as [|n IH]; intros i c w Hcache Hdom; cbv zeta; [done|].
  cbn [mh_forLoop]. unfold bind. cbv zeta.
  destruct (mh_iteration_fields uniformDraw jstatDraw this model variableNames burnIn
              thin i c w) as (_ & _ & _ & Hcase).
  set (step := mh_iteration _ _ _ _ _ _ _ _ _ _) in *.
  apply IH.
  - destruct Hcase as [[Hp Hl]|[Hp Hl]]; rewrite Hl, Hp; done.
  - destruct Hcase as [[Hp _]|[Hp _]]; rewrite Hp; [done|].
    rewrite propose_dom, dom_empty_L. by rewrite union_empty_l_L.
Qed.

Lemma mh_forLoop_world (uniformDraw : nat → R) (jstatDraw : nat → R → R → R)
    (this : MetropolisHastings) (model : Model) (variableNames : list string)
    (burnIn thin : nat) (n : nat) :
  ∀ (i : nat) (c : MHWalk.vars) (w : World),
    let w' := (mh_forLoop uniformDraw jstatDraw n this model variableNames burnIn thin
                 i c w).2 in
    randomDraws w' = (randomDraws w + n)%nat
    ∧ normalDraws w' = (normalDraws w + n * length variableNames)%nat
    ∧ leapfrogSteps w' = leapfrogSteps w
    ∧ modelEvaluations w' = (modelEvaluations w + n)%nat.
Proof.
  induction n as [|n IH]; intros i c w; cbv zeta.
  - cbn [mh_forLoop]. unfold ret. cbn [snd]. repeat split; lia.
  - cbn [mh_forLoop]. unfold bind. cbv zeta.
    destruct (mh_iteration_world uniformDraw jstatDraw this model variableNames burnIn
                thin i c w) as (Hr & Hn & Hl & Hm).
    set (step := mh_iteration _ _ _ _ _ _ _ _ _ _) in *.
    destruct (IH (S i) step.1 step.2) as (Hr' & Hn' & Hl' & Hm').
    cbv zeta in Hr', Hn', Hl', Hm'. rewrite Hr', Hn', Hl', Hm', Hr, Hn, Hl, Hm.
    repeat split; lia.
Qed.

Lemma x_is_names (v : R) : dom (x_is v) = list_to_set ["x"%string].
Proof. unfold x_is. rewrite dom_singleton_L. simpl. by rewrite union_empty_r_L. Qed.

(** X20. [MetropolisHastings.sample] returns a trace with one sequence per
    free variable of the model and nothing else, each of exactly [nSamples]
    values (none when [thin = 0]); it reports [nSamples] as given; and when
    it runs at least one iteration its acceptance rate lies between 0 and
    1. *)
Theorem MetropolisHastings_sample_outcome (uniformDraw : nat → R)
    (jstatDraw : nat → R → R → R) (this : MetropolisHastings) (model : Model)
    (initialValues : gmap string R) (nSamples burnIn thin : nat) (w : World) :
  NoDup (getFreeVariableNames model) →
  dom initialValues = list_to_set (getFreeVariableNames model) →
  let outcome := (MetropolisHastings_sample uniformDraw jstatDraw this model initialValues
                    (Some nSamples) (Some burnIn) (Some thin) w).1 in
  traceShape (getFreeVariableNames model) (if (thin =? 0)%nat then 0%nat else nSamples)
    (Outcome.trace outcome)
  ∧ Outcome.nSamples outcome = nSamples
  ∧ ((1 ≤ burnIn + nSamples * thin)%nat → 0 <= Outcome.acceptanceRate outcome <= 1).
Proof.
  intros Hnd _. cbv zeta. unfold MetropolisHastings_sample, bind, ret. cbv zeta.
  cbn [default from_option fst snd Outcome.trace Outcome.nSamples Outcome.acceptanceRate].
  unfold Datatypes.id.
  set (start := mh_start model (getFreeVariableNames model) initialValues w).
  assert (H0 : traceShape (getFreeVariableNames model) (keptBefore burnIn thin 0%nat)
                 (MHWalk.trace start.1)).
  { assert (Hk : keptBefore burnIn thin 0%nat = 0%nat).
    { unfold keptBefore. cbn [Nat.sub Nat.add].
      destruct thin as [|t]; [done|]. apply Nat.div_small. lia. }
    rewrite Hk. apply initTrace_shape. }
  destruct (mh_forLoop_invariant uniformDraw jstatDraw this model
              (getFreeVariableNames model) burnIn thin (burnIn + nSamples * thin) Hnd
              0%nat start.1 start.2 H0) as (Hs & Ht & Hc).
  cbn [Nat.add] in Hs. rewrite keptBefore_total in Hs.
  change (MHWalk.accepted_total start.1) with 0%nat in Ht.
  change (MHWalk.accepted_count start.1) with 0%nat in Hc.
  split; [done|]. split; [done|].
  intros Hn. apply rate_bounds; lia.
Qed.

Lemma MetropolisHastings_sample_outcome_witness :
  traceShape ["x"%string] 10%nat
    (Outcome.trace
       (MetropolisHastings_sample (always 0.5) (λ _ _ _, 0) ex_mh standardNormal (x_is 0)
          (Some 10%nat) (Some 5%nat) (Some 1%nat) startWorld).1).
Proof.
  apply (MetropolisHastings_sample_outcome (always 0.5) (λ _ _ _, 0) ex_mh standardNormal
           (x_is 0) 10%nat 5%nat 1%nat startWorld).
  - apply NoDup_singleton.
  - apply x_is_names.
Defined.

(** X21. Throughout [MetropolisHastings.sample], started with initial values
    for exactly the free variables of the model, the cached [currentLogProb]
    is the log-density of the model at the current position, and the current
    position carries exactly the free variables. *)
Theorem MetropolisHastings_cache (uniformDraw : nat → R) (jstatDraw : nat → R → R → R)
    (this : MetropolisHastings) (model : Model) (initialValues : gmap string R)
    (burnIn thin : nat) (w : World) (k : nat) :
  dom initialValues = list_to_set (getFreeVariableNames model) →
  let start := mh_start model (getFreeVariableNames model) initialValues w in
  let c := (mh_forLoop uniformDraw jstatDraw k this model (getFreeVariableNames model)
              burnIn thin 0 start.1 start.2).1 in
  MHWalk.currentLogProb c = logProb model (MHWalk.currentParams c)
  ∧ dom (MHWalk.currentParams c) = list_to_set (getFreeVariableNames model).
Proof.
  intros Hdom. cbv zeta.
  by apply (mh_forLoop_cache uniformDraw jstatDraw this model (getFreeVariableNames model)
              burnIn thin k).
Qed.

Lemma MetropolisHastings_cache_witness :
  MHWalk.currentLogProb
    (mh_forLoop (always 0.5) (λ _ _ _, 0) 7 ex_mh standardNormal ["x"%string] 5 1 0
       (mh_start standardNormal ["x"%string] (x_is 0) startWorld).1
       (mh_start standardNormal ["x"%string] (x_is 0) startWorld).2).1
  = logProb standardNormal
      (MHWalk.currentParams
         (mh_forLoop (always 0.5) (λ _ _ _, 0) 7 ex_mh standardNormal ["x"%string] 5 1 0
            (mh_start standardNormal ["x"%string] (x_is 0) startWorld).1
            (mh_start standardNormal ["x"%string] (x_is 0) startWorld).2).1).
Proof.
  apply (MetropolisHastings_cache (always 0.5) (λ _ _ _, 0) ex_mh standardNormal (x_is 0)
           5 1 startWorld 7).
  apply x_is_names.
Defined.

(** X22. The cost of [MetropolisHastings.sample]: one evaluation of the
    model's log-density before the loop and one per iteration, one draw of
    [Math.random()] per iteration, one draw of [jstat.normal.sample] per
    iteration and free variable, and no leapfrog step. *)
Theorem MetropolisHastings_sample_cost (uniformDraw : nat → R)
    (jstatDraw : nat → R → R → R) (this : MetropolisHastings) (model : Model)
    (initialValues : gmap string R) (nSamples burnIn thin : nat) (w : World) :
  let w' := (MetropolisHastings_sample uniformDraw jstatDraw this model initialValues
               (Some nSamples) (Some burnIn) (Some thin) w).2 in
  let totalIterations := (burnIn + nSamples * thin)%nat in
  modelEvaluations w' = (modelEvaluations w + 1 + totalIterations)%nat
  ∧ randomDraws w' = (randomDraws w + totalIterations)%nat
  ∧ normalDraws w'
    = (normalDraws w + totalIterations * length (getFreeVariableNames model))%nat
  ∧ leapfrogSteps w' = leapfrogSteps w.
Proof.
  cbv zeta. unfold MetropolisHastings_sample, bind, ret. cbv zeta.
  cbn [default from_option fst snd]. unfold Datatypes.id.
  set (start := mh_start model (getFreeVariableNames model) initialValues w).
  destruct (mh_forLoop_world uniformDraw jstatDraw this model (getFreeVariableNames model)
              burnIn thin (burnIn + nSamples * thin) 0%nat start.1 start.2)
    as (Hr & Hn & Hl & Hm).
  cbv zeta in Hr, Hn, Hl, Hm. rewrite Hr, Hn, Hl, Hm.
  unfold start, mh_start, bind, ret. cbv zeta.
  cbn [call_logProb fst snd randomDraws normalDraws leapfrogSteps modelEvaluations].
  repeat split; lia.
Qed.

(** X23. [MetropolisHastings.sample] never rejects a proposal whose
    log-density is at least the cached one: the acceptance ratio
    [exp(proposedLogProb - currentLogProb)] is then at least 1, above every
    draw of [Math.random()]; the proposal becomes the current position, its
    log-density the cached one, and the iteration is counted as accepted. *)
Theorem mh_iteration_accepts (uniformDraw : nat → R) (jstatDraw : nat → R → R → R)
    (this : MetropolisHastings) (model : Model) (variableNames : list string)
    (burnIn thin i : nat) (c : MHWalk.vars) (w : World) :
  (∀ n, 0 <= uniformDraw n < 1) →
  let proposed := (propose jstatDraw this variableNames (MHWalk.currentParams c) ∅ w).1 in
  MHWalk.currentLogProb c <= logProb model proposed →
  let c' := (mh_iteration uniformDraw jstatDraw this model variableNames burnIn thin i
               c w).1 in
  MHWalk.currentParams c' = proposed
  ∧ MHWalk.currentLogProb c' = logProb model proposed
  ∧ MHWalk.accepted_count c' = S (MHWalk.accepted_count c).
Proof.
  intros Hu. cbv zeta. intros Huphill.
  unfold mh_iteration, bind, ret. cbv zeta. cbn [fst snd].
  rewrite bool_decide_eq_true_2; [done|].
  cbn [call_logProb fst snd].
  set (d := logProb model _ - MHWalk.currentLogProb c).
  assert (Hd : 0 <= d) by (unfold d; lra).
  eapply Rlt_le_trans; [apply Hu|].
  destruct (Req_dec d 0) as [->|Hne]; [rewrite exp_0; lra|].
  pose proof (exp_ineq1 d Hne). lra.
Qed.

Lemma mh_iteration_accepts_witness :
  MHWalk.accepted_count
    (mh_iteration (always 0.5) (λ _ _ _, 0) ex_mh flat ["x"%string] 0 1 0
       {| MHWalk.trace := initTrace ["x"%string];
          MHWalk.accepted_count := 0;
          MHWalk.accepted_total := 0;
          MHWalk.currentParams := x_is 0;
          MHWalk.currentLogProb := 0 |} startWorld).1
  = 1%nat.
Proof.
  apply (mh_iteration_accepts (always 0.5) (λ _ _ _, 0) ex_mh flat ["x"%string] 0 1 0
           {| MHWalk.trace := initTrace ["x"%string];
              MHWalk.accepted_count := 0;
              MHWalk.accepted_total := 0;
              MHWalk.currentParams := x_is 0;
              MHWalk.currentLogProb := 0 |} startWorld).
  - intros n. unfold always. lra.
  - unfold flat. cbn [logProb MHWalk.currentLogProb]. lra.
Defined.

(** X24. [MetropolisHastings.tuneProposal] returns the proposal width it
    leaves in the sampler, keeps a positive width positive, and shrinks it
    at the target rate 0.234 itself; an increase and a decrease do not
    cancel: together, in either order, they leave 0.99 of the width. *)
Theorem tuneProposal_drift (this : MetropolisHastings) (high low : R) :
  0 < proposalStd this →
  high > 0.234 →
  low <= 0.234 →
  let up := tuneProposal this high in
  let down := tuneProposal this low in
  up.2 = proposalStd up.1
  ∧ down.2 = proposalStd down.1
  ∧ 0 < down.2 < proposalStd this
  ∧ proposalStd this < up.2
  ∧ (tuneProposal this 0.234).2 = proposalStd this * 0.9
  ∧ (tuneProposal up.1 low).2 = proposalStd this * 0.99
  ∧ (tuneProposal down.1 high).2 = proposalStd this * 0.99.
Proof.
  intros Hpos Hhigh Hlow. cbv zeta. unfold tuneProposal. cbv zeta.
  rewrite !(bool_decide_eq_true_2 (high > 0.234)) by done.
  rewrite !(bool_decide_eq_false_2 (low > 0.234)) by lra.
  rewrite (bool_decide_eq_false_2 (0.234 > 0.234)) by lra.
  cbn [fst snd proposalStd]. repeat split; lra.
Qed.

Lemma tuneProposal_drift_witness :
  (tuneProposal (tuneProposal ex_mh 0.5).1 0.1).2 = proposalStd ex_mh * 0.99.
Proof.
  apply (tuneProposal_drift ex_mh 0.5 0.1); unfold ex_mh; cbn [proposalStd]; lra.
Defined.
